(** * Leader hotkeys: the key-sequence trie and its two state machines

    A shallow embedding of the matching core of the plugin: [KeyPress] and its
    serialisation, the generic [Trie] indexed by serialised key presses, the
    [KeyMatcher] state machine that consumes key presses against the trie,
    the [RegisterMachine] that records a new sequence, and the plugin's
    key-down handler.

    JavaScript objects are mutated in place; here every method takes the
    object and returns the updated one.  A [Map] keeps its keys in insertion
    order and [TrieNode.leaves] iterates in that order, so a node's children
    are an association list.  Strings are byte strings holding the UTF-8 form
    of the source's literals. *)

From Stdlib Require Import List String Ascii Bool Arith Lia.
Import ListNotations.
Open Scope string_scope.
Open Scope list_scope.

Set Implicit Arguments.

(** ** General type shims *)

(** [type Optional<T> = T | undefined | null] *)
Inductive Optional (T : Type) : Type :=
| undefined : Optional T
| null : Optional T
| some : T -> Optional T.

Arguments undefined {T}.
Arguments null {T}.
Arguments some {T} _.

(** [x !== undefined] *)
Definition is_defined {T} (o : Optional T) : bool :=
  match o with
  | undefined => false
  | _ => true
  end.

(** [interface Hashable { serialize(): string }] *)
Class Hashable (A : Type) := serialize : A -> string.

(** [interface HashIter extends Iterable<Hashable>]: iterating a composite
    yields its components. *)
Class HashIter (T C : Type) := components : T -> list C.

(** How a method call completes: it returns, or it throws [new Error(msg)]. *)
Inductive Completion : Type :=
| Returned : Completion
| Thrown : string -> Completion.

(** ** Trie *)

Module TrieNode.

(** [class TrieNode<T>]: the [children] map in insertion order, and
    [value]. *)
#[local] Unset Elimination Schemes.
Inductive t (T : Type) : Type :=
| Node : Optional T -> list (string * t T) -> t T.
#[local] Set Elimination Schemes.

Section Methods.
Context {T : Type}.

Definition value (n : t T) : Optional T :=
  match n with Node v _ => v end.

Definition children (n : t T) : list (string * t T) :=
  match n with Node _ cs => cs end.

(** [new TrieNode()] *)
Definition new : t T := Node undefined [].

(** [Map.get] *)
Fixpoint map_get (cs : list (string * t T)) (key : string) : option (t T) :=
  match cs with
  | [] => None
  | (k, c) :: rest => if String.eqb k key then Some c else map_get rest key
  end.

(** [Map.set]: an existing key keeps its position, a new key goes last. *)
Fixpoint map_set (cs : list (string * t T)) (key : string) (child : t T)
  : list (string * t T) :=
  match cs with
  | [] => [(key, child)]
  | (k, c) :: rest =>
      if String.eqb k key then (k, child) :: rest
      else (k, c) :: map_set rest key child
  end.

Definition child (n : t T) (key : string) : option (t T) :=
  map_get (children n) key.

Definition addChild (n : t T) (key : string) (c : t T) : t T :=
  Node null (map_set (children n) key c).

Definition isLeaf (n : t T) : bool :=
  match children n with
  | [] => true
  | _ :: _ => false
  end.

Fixpoint leaves (n : t T) : list (t T) :=
  match n with
  | Node _ [] => [n]
  | Node _ cs => flat_map (fun kc => leaves (snd kc)) cs
  end.

Definition leafValues (n : t T) : list (Optional T) :=
  map value (leaves n).

Definition setValue (n : t T) (v : T) : t T :=
  Node (some v) (children n).

End Methods.
End TrieNode.

Module Trie.

Section Methods.
Context {T C : Type} {HC : Hashable C} {HI : HashIter T C}.

(** [class Trie<T extends HashIter>] *)
Record t : Type := Build { root : TrieNode.t T }.

Definition new : t := Build TrieNode.new.

(** The loop and the final check of [add], started at [lastSeenNode]; the
    node returned is [lastSeenNode] after every mutation made below it,
    also when the call throws. *)
Fixpoint add_from (lastSeenNode : TrieNode.t T) (keys : list string)
  (composite : T) : TrieNode.t T * Completion :=
  match keys with
  | [] =>
      if is_defined (TrieNode.value lastSeenNode)
      then (lastSeenNode, Thrown "Duplicate keymap")
      else (TrieNode.setValue lastSeenNode composite, Returned)
  | key :: rest =>
      let child :=
        match TrieNode.child lastSeenNode key with
        | Some c => c
        | None => TrieNode.new
        end in
      let (child', r) := add_from child rest composite in
      (TrieNode.addChild lastSeenNode key child', r)
  end.

Definition add (tr : t) (composite : T) : t * Completion :=
  let (r, c) := add_from (root tr) (map serialize (components composite))
                  composite in
  (Build r, c).

Fixpoint bestMatch_from (lastNode : TrieNode.t T) (keys : list string)
  : option (TrieNode.t T) :=
  match keys with
  | [] => Some lastNode
  | key :: rest =>
      match TrieNode.child lastNode key with
      | None => None
      | Some c => bestMatch_from c rest
      end
  end.

Definition bestMatch (tr : t) (sequence : list C) : option (TrieNode.t T) :=
  bestMatch_from (root tr) (map serialize sequence).

Definition contains (tr : t) (sequence : list C) : bool :=
  match bestMatch tr sequence with
  | Some _ => true
  | None => false
  end.

End Methods.

Arguments t T : clear implicits.
End Trie.

Arguments Trie.bestMatch : simpl never.

(** ** Fundamental domain *)

Inductive KeyClassification : Type := NoKey | SpecialKey | NormalKey.

Module KeyPress.

(** [class KeyPress]; the constructor's argument order is
    [(key, shift, alt, ctrl, meta)]. *)
Record t : Type := Build {
  key : string;
  shift : bool;
  alt : bool;
  ctrl : bool;
  meta : bool
}.

Definition ctrl_ (k : string) : t := Build k false false true false.
Definition alt_ (k : string) : t := Build k false true false false.
Definition shift_ (k : string) : t := Build k true false false false.
Definition meta_ (k : string) : t := Build k false false false true.
Definition just (k : string) : t := Build k false false false false.
Definition ctrlAlt (k : string) : t := Build k false true true false.

Definition metaRepr (p : t) : string := if meta p then "⌘ + " else "".
Definition altRepr (p : t) : string := if alt p then "Alt + " else "".
Definition ctrlRepr (p : t) : string := if ctrl p then "Ctrl + " else "".
Definition shiftRepr (p : t) : string := if shift p then "⇧ + " else "".

Definition repr (p : t) : string :=
  (metaRepr p ++ ctrlRepr p ++ altRepr p ++ shiftRepr p ++ key p)%string.

Definition serialize (p : t) : string := repr p.

(** [key] is declared [string]; the [null] and [undefined] tests of
    [containsKey] and [classification] are never true for a [string]. *)
Definition containsKey (p : t) : bool :=
  negb (String.eqb (key p) "Alt") && negb (String.eqb (key p) "Control")
  && negb (String.eqb (key p) "Shift") && negb (String.eqb (key p) "Meta").

Definition classification (p : t) : KeyClassification :=
  if String.eqb (key p) "Alt" || String.eqb (key p) "Control"
     || String.eqb (key p) "Shift" || String.eqb (key p) "Meta"
  then NoKey
  else if String.eqb (key p) "Enter" || String.eqb (key p) "Escape"
  then SpecialKey
  else NormalKey.

End KeyPress.

#[export] Instance KeyPress_Hashable : Hashable KeyPress.t :=
  KeyPress.serialize.

Module KeyMap.

Record t : Type := Build {
  commandID : string;
  sequence : list KeyPress.t
}.

End KeyMap.

#[export] Instance KeyMap_HashIter : HashIter KeyMap.t KeyPress.t :=
  KeyMap.sequence.

(** ** Console and host effects, in the order they happen *)

Inductive Effect : Type :=
| ConsoleLogEvent : Effect
| WriteConsole : string -> Effect
| PreventDefault : Effect
| ExecuteCommandById : string -> Effect.

(** ** Matching of existing keymaps *)

Module MatchClassification.
Inductive t : Type := NoMatch | PartialMatch | FullMatch.
End MatchClassification.

Module KeyMatchingState.
Inductive t : Type :=
| NoMatch | StartedMatch | RetainedMatch | ImprovedMatch
| SuccessMatch | InvalidMatch.

Definition eqb (a b : t) : bool :=
  match a, b with
  | NoMatch, NoMatch | StartedMatch, StartedMatch
  | RetainedMatch, RetainedMatch | ImprovedMatch, ImprovedMatch
  | SuccessMatch, SuccessMatch | InvalidMatch, InvalidMatch => true
  | _, _ => false
  end.
End KeyMatchingState.

Module KeyMatcher.
Import KeyMatchingState.

(** [class KeyMatcher] *)
Record t : Type := Build {
  trie : Trie.t KeyMap.t;
  currentState : KeyMatchingState.t;
  currentSequence : list KeyPress.t;
  currentMatches : list (Optional KeyMap.t)
}.

(** [constructor(trie)] *)
Definition new (tr : Trie.t KeyMap.t) : t := Build tr NoMatch [] [].

Definition reset (m : t) : t := Build (trie m) NoMatch [] [].

Definition classify (bestMatch : option (TrieNode.t KeyMap.t))
  : MatchClassification.t :=
  match bestMatch with
  | None => MatchClassification.NoMatch
  | Some n =>
      if TrieNode.isLeaf n then MatchClassification.FullMatch
      else MatchClassification.PartialMatch
  end.

Definition set_state (m : t) (s : KeyMatchingState.t) : t :=
  Build (trie m) s (currentSequence m) (currentMatches m).

(** [this.currentSequence.pop()] *)
Definition pop (m : t) : t :=
  Build (trie m) (currentState m) (removelast (currentSequence m))
    (currentMatches m).

(** What one call of [advance] hands back: the updated matcher, the state
    it returns, and how many activations of [advance] the call took
    (itself included). *)
Record Outcome : Type := Out {
  machine : t;
  returned : KeyMatchingState.t;
  calls : nat
}.

(** [advance], with [fuel] bounding the number of nested activations. *)
Fixpoint advance_fuel (fuel : nat) (m : t) (keypress : KeyPress.t)
  : option Outcome :=
  match fuel with
  | O => None
  | S fuel' =>
      let pushed := currentSequence m ++ [keypress] in
      let bestMatch := Trie.bestMatch (trie m) pushed in
      let matchClassification := classify bestMatch in
      let matches :=
        match bestMatch with
        | Some n => TrieNode.leafValues n
        | None => []
        end in
      let m1 := Build (trie m) (currentState m) pushed matches in
      match currentState m with
      | NoMatch =>
          let m2 :=
            match matchClassification with
            | MatchClassification.NoMatch => set_state (reset m1) NoMatch
            | MatchClassification.FullMatch => set_state m1 SuccessMatch
            | MatchClassification.PartialMatch => set_state m1 StartedMatch
            end in
          Some (Out m2 (currentState m2) 1)
      | StartedMatch | RetainedMatch | ImprovedMatch =>
          let m2 :=
            match KeyPress.classification keypress with
            | NoKey => set_state (pop m1) RetainedMatch
            | _ =>
                match matchClassification with
                | MatchClassification.NoMatch => set_state m1 InvalidMatch
                | MatchClassification.FullMatch => set_state m1 SuccessMatch
                | MatchClassification.PartialMatch =>
                    set_state m1 ImprovedMatch
                end
            end in
          Some (Out m2 (currentState m2) 1)
      | SuccessMatch | InvalidMatch =>
          match advance_fuel fuel' (reset m1) keypress with
          | Some o => Some (Out (machine o) (returned o) (S (calls o)))
          | None => None
          end
      end
  end.

(** Two activations are always enough ([Termination.matcher_two_activations]
    below), so [advance] is total; the [None] branch is never taken. *)
Definition advance (m : t) (keypress : KeyPress.t)
  : t * KeyMatchingState.t :=
  match advance_fuel 2 m keypress with
  | Some o => (machine o, returned o)
  | None => (m, currentState m)
  end.

Definition allMatches (m : t) : list (Optional KeyMap.t) :=
  currentMatches m.

(** [fullMatch], with what it writes to the console. *)
Definition fullMatch (m : t) : Optional KeyMap.t * list Effect :=
  let numMatches := List.length (allMatches m) in
  let isFullMatch := KeyMatchingState.eqb (currentState m) SuccessMatch in
  if isFullMatch && negb (Nat.eqb numMatches 1) then
    (null,
     [WriteConsole "State Machine in FullMatch state, but availableHotkeys.length contains more than 1 element. This is definitely a bug."])
  else if isFullMatch && Nat.eqb numMatches 1 then
    (nth 0 (currentMatches m) undefined, [])
  else (null, []).

End KeyMatcher.

(** ** The plugin's key-down handler *)

Module LeaderHotkeysPlugin.
Import KeyMatchingState.

(** The fields of a [KeyboardEvent] that [KeyPress.fromEvent] reads. *)
Record KeyboardEvent : Type := Event {
  key : string;
  shiftKey : bool;
  ctrlKey : bool;
  altKey : bool;
  metaKey : bool
}.

Definition fromEvent (event : KeyboardEvent) : KeyPress.t :=
  KeyPress.Build (key event) (shiftKey event) (altKey event)
    (ctrlKey event) (metaKey event).

Definition invoke (keymap : Optional KeyMap.t) : list Effect :=
  match keymap with
  | some km => [ExecuteCommandById (KeyMap.commandID km)]
  | _ => [WriteConsole "No keymap found for the full match. This is definitely a bug."]
  end.

(** [handleKeyDown]: the matcher after the event and the effects, in
    order. *)
Definition handleKeyDown (matcher : KeyMatcher.t) (event : KeyboardEvent)
  : KeyMatcher.t * list Effect :=
  let keypress := fromEvent event in
  let (matcher', currentState) := KeyMatcher.advance matcher keypress in
  match currentState with
  | NoMatch =>
      (matcher',
       [ConsoleLogEvent;
        WriteConsole "An keypress resulted in a NoMatch state. Letting this event pass."])
  | InvalidMatch =>
      (matcher',
       [ConsoleLogEvent; PreventDefault;
        WriteConsole "An keypress resulted in a ExitMatch. Exiting matching state."])
  | StartedMatch =>
      (matcher',
       [ConsoleLogEvent; PreventDefault;
        WriteConsole "An keypress resulted in a LeaderMatch. Entering matching state."])
  | RetainedMatch =>
      (matcher',
       [ConsoleLogEvent; PreventDefault;
        WriteConsole "An keypress resulted in a RetainedMatch. Retaining matching state."])
  | ImprovedMatch =>
      (matcher',
       [ConsoleLogEvent; PreventDefault;
        WriteConsole "An keypress resulted in a ImprovedMatch. Waiting for the rest of the key sequence."])
  | SuccessMatch =>
      let (keymap, logged) := KeyMatcher.fullMatch matcher' in
      (matcher',
       [ConsoleLogEvent; PreventDefault;
        WriteConsole "An keypress resulted in a FullMatch. Dispatching keymap."]
       ++ logged ++ invoke keymap)
  end.

(** The loop of [_loadKeymaps]: the bindings are added one by one to the
    trie, and the first [add] that throws ends the loop. *)
Fixpoint add_all (tr : Trie.t KeyMap.t) (hotkeys : list KeyMap.t)
  : Trie.t KeyMap.t * Completion :=
  match hotkeys with
  | [] => (tr, Returned)
  | km :: rest =>
      match Trie.add tr km with
      | (tr', Returned) => add_all tr' rest
      | (tr', Thrown e) => (tr', Thrown e)
      end
  end.

(** The trie [_loadKeymaps] leaves in [this.trie]. *)
Definition load (hotkeys : list KeyMap.t) : Trie.t KeyMap.t :=
  fst (add_all Trie.new hotkeys).

(** Did the handler call [event.preventDefault()]? *)
Definition defaultPrevented (effects : list Effect) : bool :=
  existsb (fun e => match e with PreventDefault => true | _ => false end)
    effects.

End LeaderHotkeysPlugin.

(** ** Registering of new keymaps *)

Module KeyRegisterState.
Inductive t : Type :=
| NoKeys | FirstKey | AddedKeys | RetainedKeys | BacktrackedKey
| PendingConfirmation | FinishedRegistering.
End KeyRegisterState.

Module RegisterMachine.
Import KeyRegisterState.

(** [class RegisterMachine] *)
Record t : Type := Build {
  currentState : KeyRegisterState.t;
  currentSequence : list KeyPress.t
}.

Definition new : t := Build NoKeys [].

Definition reset (m : t) : t := Build NoKeys [].

Definition set_state (m : t) (s : KeyRegisterState.t) : t :=
  Build s (currentSequence m).

Definition pop (m : t) : t :=
  Build (currentState m) (removelast (currentSequence m)).

Record Outcome : Type := Out {
  machine : t;
  returned : KeyRegisterState.t;
  calls : nat
}.

(** [advance], with [fuel] bounding the number of nested activations. *)
Fixpoint advance_fuel (fuel : nat) (m : t) (event : KeyPress.t)
  : option Outcome :=
  match fuel with
  | O => None
  | S fuel' =>
      let m1 := Build (currentState m) (currentSequence m ++ [event]) in
      let classification := KeyPress.classification event in
      match currentState m with
      | NoKeys =>
          let m2 :=
            match classification with
            | NoKey => set_state (pop m1) RetainedKeys
            | SpecialKey => set_state m1 PendingConfirmation
            | NormalKey => set_state m1 FirstKey
            end in
          Some (Out m2 (currentState m2) 1)
      | FirstKey | RetainedKeys | BacktrackedKey | AddedKeys =>
          let m2 :=
            match classification with
            | NoKey => set_state (pop m1) RetainedKeys
            | SpecialKey => set_state m1 PendingConfirmation
            | NormalKey => set_state m1 AddedKeys
            end in
          Some (Out m2 (currentState m2) 1)
      | PendingConfirmation =>
          let m2 :=
            if String.eqb (KeyPress.key event) "Enter"
               && KeyPress.ctrl event && KeyPress.alt event
            then set_state (pop m1) FinishedRegistering
            else if String.eqb (KeyPress.key event) "Enter"
            then set_state m1 AddedKeys
            else if String.eqb (KeyPress.key event) "Backspace"
            then set_state (pop m1) BacktrackedKey
            else set_state m1 PendingConfirmation in
          Some (Out m2 (currentState m2) 1)
      | FinishedRegistering =>
          match advance_fuel fuel' (reset m1) event with
          | Some o => Some (Out (machine o) (returned o) (S (calls o)))
          | None => None
          end
      end
  end.

(** Two activations are always enough here too
    ([Termination.register_two_activations]). *)
Definition advance (m : t) (event : KeyPress.t) : t * KeyRegisterState.t :=
  match advance_fuel 2 m event with
  | Some o => (machine o, returned o)
  | None => (m, currentState m)
  end.

Definition presses (m : t) : list KeyPress.t := currentSequence m.

(** [Array.join(sep)] *)
Fixpoint join (sep : string) (parts : list string) : string :=
  match parts with
  | [] => ""
  | [p] => p
  | p :: rest => (p ++ sep ++ join sep rest)%string
  end.

Definition representation (m : t) : string :=
  join " => " (map KeyPress.repr (presses m)).

End RegisterMachine.

(** ** Key presses from the host's custom hotkeys *)

Module KeyPressCustom.

(** [interface CustomCommand] *)
Record CustomCommand : Type := Custom {
  key : string;
  modifiers : list string
}.

(** [Array.contains] *)
Definition contains (xs : list string) (x : string) : bool :=
  existsb (String.eqb x) xs.

(** [KeyPress.fromCustom]: the constructor is called with
    [(key, shift, ctrl, alt, meta)] while it takes
    [(key, shift, alt, ctrl, meta)]. *)
Definition fromCustom (binding : CustomCommand) : KeyPress.t :=
  let key := key binding in
  let shift := contains (modifiers binding) "Shift" in
  let ctrl := contains (modifiers binding) "Ctrl" in
  let alt := contains (modifiers binding) "Alt" in
  let meta := contains (modifiers binding) "Meta" in
  KeyPress.Build key shift ctrl alt meta.

End KeyPressCustom.

(** ** The modal that records a new sequence *)

Module SetHotkeyModal.
Import KeyRegisterState.

(** What the modal's handler does to its surroundings. *)
Inductive ModalEffect : Type :=
| LogEvent : ModalEffect
| Console : string -> ModalEffect
| Prevent : ModalEffect
| SetNewKey : string -> bool -> bool -> ModalEffect
| Close : ModalEffect.

(** The modal: its register machine and the paragraphs of [contentEl]. *)
Record t : Type := Build {
  keyRegister : RegisterMachine.t;
  contentEl : list string
}.

(** [constructor]: a new register machine; [onOpen] puts the intro text. *)
Definition onOpen : t := Build RegisterMachine.new ["Just Testing, you know"].

(** The statements of a [case] body: an effect, a change of [contentEl], a
    [return], or [if (cond) return]. *)
Inductive Stmt : Type :=
| Do : ModalEffect -> Stmt
| SetContent : list string -> Stmt
| Return : Stmt
| IfReturn : bool -> Stmt.

(** Runs statements in order until one returns. *)
Fixpoint run (body : list Stmt) (content : list string)
  : list string * list ModalEffect :=
  match body with
  | [] => (content, [])
  | Do e :: rest =>
      let (content', effects) := run rest content in (content', e :: effects)
  | SetContent c :: rest => run rest c
  | Return :: _ => (content, [])
  | IfReturn true :: _ => (content, [])
  | IfReturn false :: rest => run rest content
  end.

(** [setText]: empties [contentEl] and appends one paragraph. *)
Definition setText (text : string) : Stmt := SetContent [text].

(** [existingSettingsConflict] *)
Definition existingSettingsConflict (keyPresses : list KeyPress.t)
  : list KeyMap.t := [].

(** An array is truthy, empty or not. *)
Definition truthy (conflict : list KeyMap.t) : bool := true.

(** The double quote character. *)
Definition dquote : string := String (ascii_of_nat 34) EmptyString.

Definition confirmText : string :=
  ("Did you mean literal " ++ dquote ++ "lastKey" ++ dquote
   ++ "?. If so, Press Enter."
   ++ "If not, discard it with Backspace. If you wanted to finish, press Ctrl + Alt + Enter")%string.

(** The body of the [switch] of [handleKeyDown], for the state [advance]
    returned and the register machine it left. *)
Definition body (registerState : KeyRegisterState.t)
  (keyRegister : RegisterMachine.t) : list Stmt :=
  match registerState with
  | NoKeys =>
      [Do (Console "An keypress resulted in a NoKeys state. ");
       Do Prevent; setText "Waiting for keypress"; Return]
  | RetainedKeys =>
      [Do (Console "An keypress resulted in a RetainedKeys state. Awaiting further keypresses.");
       Do Prevent; Return]
  | FirstKey =>
      [Do Prevent;
       Do (Console "An keypress resulted in a FirstKey state. Awaiting further keypresses.");
       setText (RegisterMachine.representation keyRegister); Return]
  | BacktrackedKey =>
      [Do Prevent;
       Do (Console "An keypress resulted in a BacktrackedKey state. Awaiting further keypresses.");
       setText (RegisterMachine.representation keyRegister); Return]
  | AddedKeys =>
      [Do Prevent;
       Do (Console "An keypress resulted in a AddedKeys state. Awaiting further keypresses.");
       setText (RegisterMachine.representation keyRegister); Return]
  | PendingConfirmation =>
      [Do Prevent;
       Do (Console "An keypress resulted in a PendingConfirmation state. Showing confirmation text.");
       SetContent [RegisterMachine.representation keyRegister; confirmText];
       Return]
  | FinishedRegistering =>
      let conflict :=
        existingSettingsConflict (RegisterMachine.presses keyRegister) in
      [Do Prevent;
       Do (Console "An keypress resulted in a FinishedRegistering state.");
       setText "This sequence conflicts with other sequences [ . . . ] . Please try again.";
       Return;
       IfReturn (negb (truthy conflict));
       Do (SetNewKey (RegisterMachine.representation keyRegister) false false);
       Do Close;
       Return]
  end.

(** [handleKeyDown]: the modal after the event and the effects, in order. *)
Definition handleKeyDown (modal : t) (event : LeaderHotkeysPlugin.KeyboardEvent)
  : t * list ModalEffect :=
  let keyPress := LeaderHotkeysPlugin.fromEvent event in
  let (keyRegister', registerState) :=
    RegisterMachine.advance (keyRegister modal) keyPress in
  let (content, effects) :=
    run (body registerState keyRegister') (contentEl modal) in
  (Build keyRegister' content, LogEvent :: effects).

End SetHotkeyModal.

(** ** The settings of the first version ([main.ts]): one key per hotkey *)

Module Hotkey.

(** [class Hotkey] *)
Record t : Type := Build {
  key : string;
  meta : bool;
  shift : bool;
  commandID : string
}.

End Hotkey.

Module SettingsTab.

(** [newEmptyHotkey] *)
Definition newEmptyHotkey : Hotkey.t := Hotkey.Build "" false false "".

(** [defaultHotkeys] *)
Definition defaultHotkeys : list Hotkey.t :=
  [ Hotkey.Build "h" false false "editor:focus-left";
    Hotkey.Build "j" false false "editor:focus-bottom";
    Hotkey.Build "k" false false "editor:focus-top";
    Hotkey.Build "l" false false "editor:focus-right" ].

(** [hotkeyToName]; the argument is [None] for [undefined]. *)
Definition hotkeyToName (hotkey : option Hotkey.t) : string :=
  match hotkey with
  | None => "?"
  | Some hotkey =>
      if String.eqb (Hotkey.key hotkey) "" then "?"
      else
        let keyToUse :=
          if String.eqb (Hotkey.key hotkey) "ArrowRight" then "→"
          else if String.eqb (Hotkey.key hotkey) "ArrowLeft" then "←"
          else if String.eqb (Hotkey.key hotkey) "ArrowDown" then "↓"
          else if String.eqb (Hotkey.key hotkey) "ArrowUp" then "↑"
          else Hotkey.key hotkey in
        ((if Hotkey.meta hotkey then "meta+" else "")
         ++ (if Hotkey.shift hotkey then "shift+" else "")
         ++ keyToUse)%string
  end.

(** [validateNewHotkey]: the answer, and the notice shown when the key is
    taken. *)
Fixpoint validateNewHotkey (hotkeys : list Hotkey.t)
  (key : string) (meta shift : bool) : bool * option string :=
  match hotkeys with
  | [] => (true, None)
  | hotkey :: rest =>
      if String.eqb (Hotkey.key hotkey) key
         && Bool.eqb (Hotkey.meta hotkey) meta
         && Bool.eqb (Hotkey.shift hotkey) shift
      then
        let hotkeyName := hotkeyToName (Some hotkey) in
        (false,
         Some ("Leader hotkey '" ++ hotkeyName ++ "' is already in use")%string)
      else validateNewHotkey rest key meta shift
  end.

(** The test that makes the three loops below [continue]. *)
Definition differs (hotkey existingHotkey : Hotkey.t) : bool :=
  negb (String.eqb (Hotkey.key hotkey) (Hotkey.key existingHotkey))
  || negb (Bool.eqb (Hotkey.meta hotkey) (Hotkey.meta existingHotkey))
  || negb (Bool.eqb (Hotkey.shift hotkey) (Hotkey.shift existingHotkey)).

(** [Array.splice(i, 1)] *)
Definition splice1 (hotkeys : list Hotkey.t) (i : nat) : list Hotkey.t :=
  firstn i hotkeys ++ skipn (S i) hotkeys.

(** The loop of [deleteHotkeyFromSettings] from index [i] on: the array
    shrinks under the loop while [i] keeps counting up.  [fuel] bounds the
    number of iterations. *)
Fixpoint delete_loop (fuel i : nat) (hotkeys : list Hotkey.t)
  (existingHotkey : Hotkey.t) : list Hotkey.t :=
  match fuel with
  | O => hotkeys
  | S fuel' =>
      match nth_error hotkeys i with
      | None => hotkeys
      | Some hotkey =>
          if differs hotkey existingHotkey
          then delete_loop fuel' (S i) hotkeys existingHotkey
          else delete_loop fuel' (S i) (splice1 hotkeys i) existingHotkey
      end
  end.

(** [deleteHotkeyFromSettings]: the array that is saved.  The loop ends
    within [length hotkeys] iterations ([SettingsMore.delete_loop_skipping]
    below). *)
Definition deleteHotkeyFromSettings (hotkeys : list Hotkey.t)
  (existingHotkey : Hotkey.t) : list Hotkey.t :=
  delete_loop (S (List.length hotkeys)) 0 hotkeys existingHotkey.

(** [updateHotkeyInSettings]: the first hotkey that does not differ is
    changed in place, and the loop breaks. *)
Fixpoint updateHotkeyInSettings (hotkeys : list Hotkey.t)
  (existingHotkey : Hotkey.t) (newKey : string) (meta shift : bool)
  : list Hotkey.t :=
  match hotkeys with
  | [] => []
  | hotkey :: rest =>
      if differs hotkey existingHotkey
      then hotkey :: updateHotkeyInSettings rest existingHotkey newKey meta shift
      else Hotkey.Build newKey meta shift (Hotkey.commandID hotkey) :: rest
  end.

(** [updateHotkeyCommandInSettings] *)
Fixpoint updateHotkeyCommandInSettings (hotkeys : list Hotkey.t)
  (existingHotkey : Hotkey.t) (newCommand : string) : list Hotkey.t :=
  match hotkeys with
  | [] => []
  | hotkey :: rest =>
      if differs hotkey existingHotkey
      then hotkey :: updateHotkeyCommandInSettings rest existingHotkey newCommand
      else Hotkey.Build (Hotkey.key hotkey) (Hotkey.meta hotkey)
             (Hotkey.shift hotkey) newCommand :: rest
  end.

(** [storeNewHotkeyInSettings]: the array that is saved and the new
    [tempNewHotkey]. *)
Definition storeNewHotkeyInSettings (hotkeys : list Hotkey.t)
  (tempNewHotkey : Hotkey.t) : list Hotkey.t * Hotkey.t :=
  (hotkeys ++ [tempNewHotkey], newEmptyHotkey).

(** The click handler of "Save New Hotkey". *)
Definition saveNewHotkey (hotkeys : list Hotkey.t) (tempNewHotkey : Hotkey.t)
  : list Hotkey.t * Hotkey.t :=
  let isValid :=
    fst (validateNewHotkey hotkeys (Hotkey.key tempNewHotkey)
           (Hotkey.meta tempNewHotkey) (Hotkey.shift tempNewHotkey)) in
  if isValid then storeNewHotkeyInSettings hotkeys tempNewHotkey
  else (hotkeys, tempNewHotkey).

(** The [setNewKey] callback of an existing hotkey's modal. *)
Definition setKeyOfExisting (hotkeys : list Hotkey.t)
  (configuredCommand : Hotkey.t) (newKey : string) (meta shift : bool)
  : list Hotkey.t :=
  let isValid := fst (validateNewHotkey hotkeys newKey meta shift) in
  if isValid
  then updateHotkeyInSettings hotkeys configuredCommand newKey meta shift
  else hotkeys.

End SettingsTab.

(** ** The earlier matcher: [StateMachine] over the earlier [Trie] *)

(** The earlier [TrieNode] and [Trie] have the fields and the lookups of the
    later ones ([allValues] is [leafValues]); they differ in [addChild],
    which leaves [value] alone, and in the constructor, which adds the
    keymaps. *)
Module EarlierTrie.

Definition addChild {T : Type} (n : TrieNode.t T) (key : string)
  (c : TrieNode.t T) : TrieNode.t T :=
  TrieNode.Node (TrieNode.value n) (TrieNode.map_set (TrieNode.children n) key c).

Section Methods.
Context {T C : Type} {HC : Hashable C} {HI : HashIter T C}.

Fixpoint add_from (lastSeenNode : TrieNode.t T) (keys : list string)
  (composite : T) : TrieNode.t T * Completion :=
  match keys with
  | [] =>
      if is_defined (TrieNode.value lastSeenNode)
      then (lastSeenNode, Thrown "Duplicate keymap")
      else (TrieNode.setValue lastSeenNode composite, Returned)
  | key :: rest =>
      let child :=
        match TrieNode.child lastSeenNode key with
        | Some c => c
        | None => TrieNode.new
        end in
      let (child', r) := add_from child rest composite in
      (addChild lastSeenNode key child', r)
  end.

Definition add (tr : Trie.t T) (composite : T) : Trie.t T * Completion :=
  let (r, c) := add_from (Trie.root tr) (map serialize (components composite))
                  composite in
  (Trie.Build r, c).

(** The loop of the constructor, which the first [add] that throws ends. *)
Fixpoint add_all (tr : Trie.t T) (keymaps : list T) : Trie.t T * Completion :=
  match keymaps with
  | [] => (tr, Returned)
  | keymap :: rest =>
      match add tr keymap with
      | (tr', Returned) => add_all tr' rest
      | (tr', Thrown e) => (tr', Thrown e)
      end
  end.

(** [constructor(keymaps)] *)
Definition constructor (keymaps : list T) : Trie.t T * Completion :=
  add_all Trie.new keymaps.

End Methods.
End EarlierTrie.

Module MatchingState.
Inductive t : Type :=
| NoMatch | LeaderMatch | PartialMatch | FullMatch | ExitMatch.

Definition eqb (a b : t) : bool :=
  match a, b with
  | NoMatch, NoMatch | LeaderMatch, LeaderMatch
  | PartialMatch, PartialMatch | FullMatch, FullMatch
  | ExitMatch, ExitMatch => true
  | _, _ => false
  end.
End MatchingState.

Module StateMachine.
Import MatchingState.

(** [class StateMachine] *)
Record t : Type := Build {
  trie : Trie.t KeyMap.t;
  currentState : MatchingState.t;
  keyPressBuffer : list KeyPress.t;
  availableCommands : list (Optional KeyMap.t)
}.

(** [constructor(hotkeys)]: no machine when building the trie throws. *)
Definition constructor (hotkeys : list KeyMap.t) : option t :=
  match EarlierTrie.constructor hotkeys with
  | (tr, Returned) => Some (Build tr NoMatch [] [])
  | (_, Thrown _) => None
  end.

Definition clear (m : t) : t := Build (trie m) NoMatch [] [].

Definition set_state (m : t) (s : MatchingState.t) : t :=
  Build (trie m) s (keyPressBuffer m) (availableCommands m).

(** [this.keyPressBuffer.pop()] *)
Definition pop (m : t) : t :=
  Build (trie m) (currentState m) (removelast (keyPressBuffer m))
    (availableCommands m).

(** The lookup both matching branches make: [bestMatch] for the buffer, and
    [availableCommands] set from it. *)
Definition lookup (m : t) : option (TrieNode.t KeyMap.t) * t :=
  let bestMatch := Trie.bestMatch (trie m) (keyPressBuffer m) in
  (bestMatch,
   Build (trie m) (currentState m) (keyPressBuffer m)
     match bestMatch with
     | Some n => TrieNode.leafValues n
     | None => []
     end).

Record Outcome : Type := Out {
  machine : t;
  returned : MatchingState.t;
  calls : nat
}.

(** [advance], with [fuel] bounding the number of nested activations. *)
Fixpoint advance_fuel (fuel : nat) (m : t) (keypress : KeyPress.t)
  : option Outcome :=
  match fuel with
  | O => None
  | S fuel' =>
      let m1 := Build (trie m) (currentState m)
                  (keyPressBuffer m ++ [keypress]) (availableCommands m) in
      match currentState m with
      | NoMatch =>
          let (bestMatch, m2) := lookup m1 in
          let m3 :=
            match bestMatch with
            | None => set_state (clear m2) NoMatch
            | Some n =>
                if TrieNode.isLeaf n then set_state m2 FullMatch
                else set_state m2 LeaderMatch
            end in
          Some (Out m3 (currentState m3) 1)
      | LeaderMatch | PartialMatch =>
          if negb (KeyPress.containsKey keypress) then
            let m2 := set_state (pop m1) PartialMatch in
            Some (Out m2 (currentState m2) 1)
          else
            let (bestMatch, m2) := lookup m1 in
            let m3 :=
              match bestMatch with
              | None => set_state m2 ExitMatch
              | Some n =>
                  if TrieNode.isLeaf n then set_state m2 FullMatch
                  else set_state m2 PartialMatch
              end in
            Some (Out m3 (currentState m3) 1)
      | FullMatch | ExitMatch =>
          match advance_fuel fuel' (clear m1) keypress with
          | Some o => Some (Out (machine o) (returned o) (S (calls o)))
          | None => None
          end
      end
  end.

(** Two activations are always enough, as for the later matcher. *)
Definition advance (m : t) (keypress : KeyPress.t) : t * MatchingState.t :=
  match advance_fuel 2 m keypress with
  | Some o => (machine o, returned o)
  | None => (m, currentState m)
  end.

Definition getPartialMatchedKeymaps (m : t) : list (Optional KeyMap.t) :=
  availableCommands m.

End StateMachine.

(** ** The first version ([main.ts]): a matcher over a trie still to be
    written *)

Module KeymapTrie.

(** [class KeymapTrie]: the constructor keeps nothing. *)
Inductive t : Type := Empty.

Definition constructor (keymaps : list Hotkey.t) : t := Empty.

(** [availableHotkeys]: [commands] is never assigned, so the result is
    [commands || []]. *)
Definition availableHotkeys (tr : t)
  (eventBuffer : list LeaderHotkeysPlugin.KeyboardEvent) : list Hotkey.t :=
  let commands : option (list Hotkey.t) := None in
  match commands with
  | Some cs => cs
  | None => []
  end.

End KeymapTrie.

Module FirstStateMachine.
Import MatchingState.

Abbreviation KeyboardEvent := LeaderHotkeysPlugin.KeyboardEvent.

(** [class StateMachine] of [main.ts] *)
Record t : Type := Build {
  trie : KeymapTrie.t;
  currentState : MatchingState.t;
  eventBuffer : list KeyboardEvent;
  availableHotkeys : list Hotkey.t;
  matchedHotkey : Optional Hotkey.t
}.

Definition constructor (hotkeys : list Hotkey.t) : t :=
  Build (KeymapTrie.constructor hotkeys) NoMatch [] [] null.

Definition clear (m : t) : t := Build (trie m) NoMatch [] [] null.

Definition set_state (m : t) (s : MatchingState.t) : t :=
  Build (trie m) s (eventBuffer m) (availableHotkeys m) (matchedHotkey m).

(** [this.availableHotkeys = this.trie.availableHotkeys(this.eventBuffer)] *)
Definition lookup (m : t) : t :=
  Build (trie m) (currentState m) (eventBuffer m)
    (KeymapTrie.availableHotkeys (trie m) (eventBuffer m)) (matchedHotkey m).

Record Outcome : Type := Out {
  machine : t;
  returned : MatchingState.t;
  calls : nat
}.

(** [advance], with [fuel] bounding the number of nested activations; what
    it writes to the console is left out. *)
Fixpoint advance_fuel (fuel : nat) (m : t) (event : KeyboardEvent)
  : option Outcome :=
  match fuel with
  | O => None
  | S fuel' =>
      let m1 := Build (trie m) (currentState m) (eventBuffer m ++ [event])
                  (availableHotkeys m) (matchedHotkey m) in
      match currentState m with
      | NoMatch =>
          let m2 := lookup m1 in
          let commandLength := List.length (availableHotkeys m2) in
          let m3 :=
            if Nat.eqb commandLength 0 then set_state m2 NoMatch
            else if Nat.eqb commandLength 1 then set_state m2 FullMatch
            else set_state m2 LeaderMatch in
          Some (Out m3 (currentState m3) 1)
      | LeaderMatch | PartialMatch =>
          let m2 := lookup m1 in
          let commandLength := List.length (availableHotkeys m2) in
          let m3 :=
            if Nat.eqb commandLength 0 then set_state m2 ExitMatch
            else if Nat.eqb commandLength 1 then set_state m2 FullMatch
            else set_state m2 PartialMatch in
          Some (Out m3 (currentState m3) 1)
      | FullMatch | ExitMatch =>
          match advance_fuel fuel' (clear m1) event with
          | Some o => Some (Out (machine o) (returned o) (S (calls o)))
          | None => None
          end
      end
  end.

Definition advance (m : t) (event : KeyboardEvent) : t * MatchingState.t :=
  match advance_fuel 2 m event with
  | Some o => (machine o, returned o)
  | None => (m, currentState m)
  end.

Definition getPartialMatchedKeymaps (m : t) : list Hotkey.t :=
  availableHotkeys m.

(** [getFullyMatchedKeymap]; [None] stands for [null], and what it writes
    to the console is left out. *)
Definition getFullyMatchedKeymap (m : t) : option Hotkey.t :=
  let availableCommandLength := List.length (getPartialMatchedKeymaps m) in
  let isFullMatch := MatchingState.eqb (currentState m) FullMatch in
  if isFullMatch && negb (Nat.eqb availableCommandLength 1) then None
  else if negb isFullMatch && Nat.eqb availableCommandLength 1 then None
  else if isFullMatch && Nat.eqb availableCommandLength 1
  then nth_error (availableHotkeys m) 0
  else None.

(** [handleKeyDown] of the plugin: the machine after the event and the
    effects, in order. *)
Definition handleKeyDown (m : t) (event : KeyboardEvent)
  : t * list Effect :=
  let (m', currentState) := advance m event in
  match currentState with
  | NoMatch =>
      (m', [WriteConsole "An unregistered key was pressed. Letting this event pass."])
  | ExitMatch =>
      (m', [PreventDefault;
            WriteConsole "An unregistered key was pressed after leader matching. Exiting matching state."])
  | LeaderMatch =>
      (m', [PreventDefault;
            WriteConsole "A leader key was pressed. Entering matching state."])
  | PartialMatch =>
      (m', [PreventDefault;
            WriteConsole "A registered key was pressed. Waiting for the rest of the key sequence."])
  | FullMatch =>
      (m', [PreventDefault;
            WriteConsole "A full match was found. Dispatching keymap."]
           ++ match getFullyMatchedKeymap m' with
              | Some keymap => [ExecuteCommandById (Hotkey.commandID keymap)]
              | None =>
                  [WriteConsole "No keymap found for the full match. This is definitely a bug."]
              end)
  end.

End FirstStateMachine.

(** * Vocabulary of the properties *)

Module TrieSpec.
Import TrieNode.

Section Nodes.
Context {T : Type}.

(** A node below the root of a trie that only [add] has touched: a leaf
    carries a value, an inner node carries [null]. *)
#[local] Unset Elimination Schemes.
Inductive wf_node : TrieNode.t T -> Prop :=
| wf_leaf (x : T) : wf_node (Node (some x) [])
| wf_inner (cs : list (string * TrieNode.t T)) :
    cs <> [] -> Forall (fun kc => wf_node (snd kc)) cs ->
    wf_node (Node null cs).
#[local] Set Elimination Schemes.

(** The root may be a leaf with any value (a new trie has [undefined]
    there). *)
Definition wf_root (n : TrieNode.t T) : Prop :=
  (children n <> [] -> value n = null)
  /\ Forall (fun kc => wf_node (snd kc)) (children n).

End Nodes.

Section Tries.
Context {T C : Type} {HC : Hashable C} {HI : HashIter T C}.

(** A trie that only [add] has touched, whether the calls returned or
    threw. *)
Inductive built : Trie.t T -> Prop :=
| built_new : built Trie.new
| built_add (tr : Trie.t T) (composite : T) :
    built tr -> built (fst (Trie.add tr composite)).

Definition wf (tr : Trie.t T) : Prop := wf_root (Trie.root tr).

(** A binding is stored in the trie when the walk along its sequence ends
    on a node that carries it. *)
Definition stored (tr : Trie.t T) (composite : T) : Prop :=
  exists n, Trie.bestMatch tr (components composite) = Some n
            /\ value n = some composite.

End Tries.
End TrieSpec.

Module KeyMatcherSpec.
Import KeyMatchingState KeyMatcher.

(** One [advance] per key press, from left to right. *)
Definition feed (m : t) (keys : list KeyPress.t) : t :=
  fold_left (fun m k => fst (advance m k)) keys m.

(** The states [advance] returns along a list of key presses. *)
Fixpoint trace (m : t) (keys : list KeyPress.t) : list KeyMatchingState.t :=
  match keys with
  | [] => []
  | k :: rest => snd (advance m k) :: trace (fst (advance m k)) rest
  end.

(** The bindings stored at the leaves below the node a buffer leads to:
    [bestMatch(buffer).leafValues()], and none when there is no such
    node. *)
Definition reachableFrom (tr : Trie.t KeyMap.t) (buffer : list KeyPress.t)
  : list (Optional KeyMap.t) :=
  match Trie.bestMatch tr buffer with
  | Some n => TrieNode.leafValues n
  | None => []
  end.

(** The states of a match in progress. *)
Definition in_progress (s : KeyMatchingState.t) : Prop :=
  s = StartedMatch \/ s = RetainedMatch \/ s = ImprovedMatch.

Definition terminal (s : KeyMatchingState.t) : Prop :=
  s = SuccessMatch \/ s = InvalidMatch.

(** In [NoMatch] the matcher holds no buffered key press and no match. *)
Definition idle_inv (m : t) : Prop :=
  currentState m = NoMatch ->
  currentSequence m = [] /\ currentMatches m = [].

(** A matcher is reachable when it is a new matcher that has been fed key
    presses. *)
Definition reachable (tr : Trie.t KeyMap.t) (m : t) : Prop :=
  exists keys, m = feed (new tr) keys.

(** Two lists hold the same bindings. *)
Definition same_bindings (xs ys : list (Optional KeyMap.t)) : Prop :=
  forall b, In b xs <-> In b ys.

(** C3 as stated, for one call: [allMatches()] holds the bindings
    reachable from the buffer as it is after the call. *)
Definition matches_follow_buffer (m : t) (c : KeyPress.t) : Prop :=
  same_bindings (allMatches (fst (advance m c)))
    (reachableFrom (trie (fst (advance m c)))
       (currentSequence (fst (advance m c)))).

(** Bare modifiers, and the key presses that count. *)
Definition is_noise (k : KeyPress.t) : Prop :=
  KeyPress.classification k = NoKey.

Definition is_key (k : KeyPress.t) : Prop :=
  KeyPress.classification k <> NoKey.

(** A sequence given as its key presses after the first, each with the bare
    modifiers pressed just before it; [with_noise] is what the matcher is
    fed, [map snd] the sequence itself. *)
Definition with_noise (gaps : list (list KeyPress.t * KeyPress.t))
  : list KeyPress.t :=
  flat_map (fun g => fst g ++ [snd g]) gaps.

Definition noisy_gap (g : list KeyPress.t * KeyPress.t) : Prop :=
  Forall is_noise (fst g) /\ is_key (snd g).

(** C4 as stated, for one binding, one cut of its sequence and one list of
    bare modifiers put in at the cut: the matcher ends in [SuccessMatch]
    with [fullMatch()] returning the binding. *)
Definition noise_is_ignored (tr : Trie.t KeyMap.t) (km : KeyMap.t)
  (before noise after : list KeyPress.t) : Prop :=
  currentState (feed (new tr) (before ++ noise ++ after)) = SuccessMatch
  /\ fst (fullMatch (feed (new tr) (before ++ noise ++ after))) = some km.

End KeyMatcherSpec.

Module RegisterMachineSpec.
Import RegisterMachine.

(** One [advance] per key press, from left to right. *)
Definition feed (m : t) (keys : list KeyPress.t) : t :=
  fold_left (fun m k => fst (advance m k)) keys m.

End RegisterMachineSpec.

Module SerializeSpec.
Import KeyPress.

(** The four modifier markers of [repr]. *)
Definition markers : list string := ["⌘ + "; "Ctrl + "; "Alt + "; "⇧ + "].

(** Does a key name begin with one of the markers? *)
Definition starts_with_marker (k : string) : bool :=
  existsb (fun mk => String.prefix mk k) markers.

(** C7 as stated, for one pair of key presses. *)
Definition distinct_serialization (c1 c2 : t) : Prop :=
  c1 <> c2 -> serialize c1 <> serialize c2.

End SerializeSpec.

Module TrieLookupSpec.
Import TrieNode.

(** [xs] is a prefix of [ys]. *)
Definition is_prefix {A : Type} (xs ys : list A) : Prop :=
  exists rest, ys = xs ++ rest.

Section Paths.
Context {T C : Type} {HC : Hashable C} {HI : HashIter T C}.

(** The keys [add] walks for a composite. *)
Definition keys_of (composite : T) : list string :=
  map serialize (components composite).

(** A value that is a binding, neither [undefined] nor [null]. *)
Definition is_binding (v : Optional T) : Prop := exists x, v = some x.

(** Every binding held in the subtree of a node reached along [path] sits on
    a node whose own path is the key sequence of that binding. *)
#[local] Unset Elimination Schemes.
Inductive on_path : list string -> TrieNode.t T -> Prop :=
| on_path_node (path : list string) (v : Optional T)
    (cs : list (string * TrieNode.t T)) :
    (forall x, v = some x -> keys_of x = path) ->
    Forall (fun kc => on_path (path ++ [fst kc]) (snd kc)) cs ->
    on_path path (Node v cs).
#[local] Set Elimination Schemes.

End Paths.
End TrieLookupSpec.

Module KeyMatcherInvariantSpec.
Import KeyMatchingState KeyMatcher KeyMatcherSpec.

(** What the state of a matcher says about its buffer and its matches. *)
Definition state_inv (m : t) : Prop :=
  match currentState m with
  | NoMatch => currentSequence m = [] /\ currentMatches m = []
  | StartedMatch | ImprovedMatch =>
      currentSequence m <> []
      /\ exists n, Trie.bestMatch (trie m) (currentSequence m) = Some n
                   /\ TrieNode.isLeaf n = false
                   /\ currentMatches m = TrieNode.leafValues n
  | RetainedMatch =>
      currentSequence m <> []
      /\ exists n, Trie.bestMatch (trie m) (currentSequence m) = Some n
                   /\ TrieNode.isLeaf n = false
  | SuccessMatch =>
      currentSequence m <> []
      /\ exists n, Trie.bestMatch (trie m) (currentSequence m) = Some n
                   /\ TrieNode.isLeaf n = true
                   /\ currentMatches m = TrieNode.leafValues n
  | InvalidMatch =>
      currentSequence m <> []
      /\ Trie.bestMatch (trie m) (currentSequence m) = None
      /\ currentMatches m = []
  end.

(** The states in which the matches are those of the buffer's node. *)
Definition has_candidates (s : KeyMatchingState.t) : Prop :=
  s = StartedMatch \/ s = ImprovedMatch \/ s = SuccessMatch.

(** The commands a list of effects hands to [executeCommandById]. *)
Fixpoint executed (effects : list Effect) : list string :=
  match effects with
  | [] => []
  | ExecuteCommandById id :: rest => id :: executed rest
  | _ :: rest => executed rest
  end.

End KeyMatcherInvariantSpec.

Module RegisterMachineInvariantSpec.
Import KeyRegisterState RegisterMachine RegisterMachineSpec.

(** A register machine is reachable when it is a new machine that has been
    fed key presses. *)
Definition reachable (m : t) : Prop := exists keys, m = feed new keys.

(** The states from which a key press is recorded or dropped by its
    classification alone. *)
Definition collecting (s : KeyRegisterState.t) : Prop :=
  s = NoKeys \/ s = FirstKey \/ s = AddedKeys \/ s = RetainedKeys
  \/ s = BacktrackedKey.

Definition is_special (k : KeyPress.t) : Prop :=
  KeyPress.classification k = SpecialKey.

(** The key presses that end or undo a pending confirmation. *)
Definition is_enter (k : KeyPress.t) : bool :=
  String.eqb (KeyPress.key k) "Enter".

Definition is_backspace (k : KeyPress.t) : bool :=
  String.eqb (KeyPress.key k) "Backspace".

(** [Enter] with both [ctrl] and [alt] held. *)
Definition is_confirmation (k : KeyPress.t) : bool :=
  is_enter k && KeyPress.ctrl k && KeyPress.alt k.

(** Did the handler of the modal hand a sequence over, or close? *)
Definition commits (effects : list SetHotkeyModal.ModalEffect) : bool :=
  existsb (fun e =>
             match e with
             | SetHotkeyModal.SetNewKey _ _ _ | SetHotkeyModal.Close => true
             | _ => false
             end) effects.

Definition prevents (effects : list SetHotkeyModal.ModalEffect) : bool :=
  existsb (fun e =>
             match e with
             | SetHotkeyModal.Prevent => true
             | _ => false
             end) effects.

End RegisterMachineInvariantSpec.

Module KeyPressCustomSpec.
Import LeaderHotkeysPlugin KeyPressCustom.

(** The key event in which exactly the modifiers of a custom hotkey are
    held. *)
Definition event_of (binding : CustomCommand) : KeyboardEvent :=
  Event (KeyPressCustom.key binding)
    (contains (modifiers binding) "Shift")
    (contains (modifiers binding) "Ctrl")
    (contains (modifiers binding) "Alt")
    (contains (modifiers binding) "Meta").

End KeyPressCustomSpec.

Module SettingsSpec.
Import SettingsTab.

(** What identifies a hotkey: its key with [meta] and [shift]. *)
Definition binding (h : Hotkey.t) : string * bool * bool :=
  (Hotkey.key h, Hotkey.meta h, Hotkey.shift h).

(** No two hotkeys of the list have the same key, [meta] and [shift]. *)
Definition distinct (hotkeys : list Hotkey.t) : Prop :=
  NoDup (map binding hotkeys).

(** What the loop of [deleteHotkeyFromSettings] comes to: a hotkey that does
    not differ is removed, and the hotkey after it is then passed over
    unexamined. *)
Fixpoint delete_skipping (hotkeys : list Hotkey.t) (existingHotkey : Hotkey.t)
  : list Hotkey.t :=
  match hotkeys with
  | [] => []
  | hotkey :: rest =>
      if differs hotkey existingHotkey
      then hotkey :: delete_skipping rest existingHotkey
      else
        match rest with
        | [] => []
        | next :: rest' => next :: delete_skipping rest' existingHotkey
        end
  end.

End SettingsSpec.

Module StateMachineSpec.
Import MatchingState StateMachine.

(** A machine over a given trie in its initial state. *)
Definition initial (tr : Trie.t KeyMap.t) : t := Build tr NoMatch [] [].

(** One [advance] per key press, from left to right. *)
Definition feed (m : t) (keys : list KeyPress.t) : t :=
  fold_left (fun m k => fst (advance m k)) keys m.

(** The earlier name of each state of the later matcher. *)
Definition earlier_state (s : KeyMatchingState.t) : MatchingState.t :=
  match s with
  | KeyMatchingState.NoMatch => NoMatch
  | KeyMatchingState.StartedMatch => LeaderMatch
  | KeyMatchingState.RetainedMatch => PartialMatch
  | KeyMatchingState.ImprovedMatch => PartialMatch
  | KeyMatchingState.SuccessMatch => FullMatch
  | KeyMatchingState.InvalidMatch => ExitMatch
  end.

(** The two matchers agree: same trie, corresponding states, same buffer,
    and the same matches unless the later one has just dropped a bare
    modifier. *)
Definition agree (m : KeyMatcher.t) (s : t) : Prop :=
  KeyMatcher.trie m = trie s
  /\ earlier_state (KeyMatcher.currentState m) = currentState s
  /\ KeyMatcher.currentSequence m = keyPressBuffer s
  /\ (KeyMatcher.currentState m <> KeyMatchingState.RetainedMatch ->
      KeyMatcher.currentMatches m = availableCommands s).

(** In every state but [NoMatch] the available commands are the leaf values
    below the node the buffer leads to. *)
Definition commands_follow_buffer (s : t) : Prop :=
  currentState s <> NoMatch ->
  availableCommands s
  = KeyMatcherSpec.reachableFrom (trie s) (keyPressBuffer s).

End StateMachineSpec.

Module FirstStateMachineSpec.
Import FirstStateMachine.

(** One [handleKeyDown] per event, from left to right: the machine at the
    end and all the effects. *)
Fixpoint handle_all (m : t) (events : list KeyboardEvent) : t * list Effect :=
  match events with
  | [] => (m, [])
  | e :: rest =>
      let (m', effects) := handleKeyDown m e in
      let (m'', effects') := handle_all m' rest in
      (m'', effects ++ effects')
  end.

End FirstStateMachineSpec.

(** ** Example bindings *)

Module Examples.
Import LeaderHotkeysPlugin.

Definition focus_left : KeyMap.t :=
  KeyMap.Build "focus-left" [KeyPress.ctrl_ "b"; KeyPress.just "h"].
Definition focus_bottom : KeyMap.t :=
  KeyMap.Build "focus-bottom" [KeyPress.ctrl_ "b"; KeyPress.just "j"].
Definition focus_top : KeyMap.t :=
  KeyMap.Build "focus-top" [KeyPress.ctrl_ "b"; KeyPress.just "k"].

(** [defaultHotkeys] *)
Definition defaultHotkeys : list KeyMap.t :=
  [ KeyMap.Build "editor:focus-left" [KeyPress.ctrl_ "b"; KeyPress.just "h"];
    KeyMap.Build "editor:focus-right" [KeyPress.ctrl_ "b"; KeyPress.just "l"];
    KeyMap.Build "editor:focus-top" [KeyPress.ctrl_ "b"; KeyPress.just "k"];
    KeyMap.Build "editor:focus-bottom" [KeyPress.ctrl_ "b"; KeyPress.just "j"];
    KeyMap.Build "command-palette:open"
      [KeyPress.ctrl_ "q"; KeyPress.just "1"; KeyPress.just "2";
       KeyPress.just "2"];
    KeyMap.Build "command-palette:open"
      [KeyPress.ctrl_ " "; KeyPress.just "p"; KeyPress.just "a";
       KeyPress.just "l"; KeyPress.just "l"; KeyPress.just "e";
       KeyPress.just "t"; KeyPress.just "t"; KeyPress.just "e"] ].

Definition focus_trie : Trie.t KeyMap.t :=
  load [focus_left; focus_bottom; focus_top].

(** A binding whose sequence goes on where that of [focus_left] ends. *)
Definition longer_than_focus_left : KeyMap.t :=
  KeyMap.Build "other"
    [KeyPress.ctrl_ "b"; KeyPress.just "h"; KeyPress.just "x"].

(** The matcher after [Ctrl+b]: a match in progress. *)
Definition after_leader : KeyMatcher.t :=
  KeyMatcherSpec.feed (KeyMatcher.new focus_trie) [KeyPress.ctrl_ "b"].

(** The matcher after [Ctrl+b, h]: a full match. *)
Definition after_focus_left : KeyMatcher.t :=
  KeyMatcherSpec.feed (KeyMatcher.new focus_trie)
    [KeyPress.ctrl_ "b"; KeyPress.just "h"].

(** The register machine after [a] and [Enter]. *)
Definition pending_enter : RegisterMachine.t :=
  RegisterMachineSpec.feed RegisterMachine.new
    [KeyPress.just "a"; KeyPress.just "Enter"].

(** A matcher state that [advance] never produces: [SuccessMatch] with the
    three bindings reachable from [Ctrl+b] as its matches. *)
Definition success_with_three : KeyMatcher.t :=
  KeyMatcher.Build focus_trie KeyMatchingState.SuccessMatch
    [KeyPress.ctrl_ "b"]
    (KeyMatcherSpec.reachableFrom focus_trie [KeyPress.ctrl_ "b"]).

(** A binding with a bare modifier, [Shift] pressed alone, inside its
    sequence, and the trie that holds it. *)
Definition with_modifier_inside : KeyMap.t :=
  KeyMap.Build "other"
    [KeyPress.ctrl_ "b"; KeyPress.just "x"; KeyPress.shift_ "Shift";
     KeyPress.just "y"].

Definition modifier_trie : Trie.t KeyMap.t := load [with_modifier_inside].

End Examples.

Import Examples.


(** * Properties *)

(** ** The trie: lookups, well-formedness and [add] *)

Module TrieFacts.
Import TrieNode TrieSpec.

Section Nodes.
Context {T : Type}.

#[local] Abbreviation node := (TrieNode.t T).
#[local] Abbreviation kids := (list (string * TrieNode.t T)).

Lemma map_get_Forall (P : node -> Prop) (cs : kids) (k : string) (c : node) :
  Forall (fun kc => P (snd kc)) cs -> map_get cs k = Some c -> P c.
Proof.
  induction cs as [|[k0 c0] cs IH]; cbn; intros HF Hg; [discriminate|].
  inversion HF; subst. destruct (String.eqb k0 k).
  - injection Hg as <-. assumption.
  - auto.
Qed.

Lemma map_set_Forall (P : node -> Prop) (cs : kids) (k : string) (c : node) :
  Forall (fun kc => P (snd kc)) cs -> P c ->
  Forall (fun kc => P (snd kc)) (map_set cs k c).
Proof.
  induction cs as [|[k0 c0] cs IH]; cbn; intros HF Hc.
  - constructor; [assumption|constructor].
  - inversion HF; subst. destruct (String.eqb k0 k); constructor; auto.
Qed.

Lemma map_set_nonempty (cs : kids) (k : string) (c : node) :
  map_set cs k c <> [].
Proof.
  destruct cs as [|[k0 c0] cs]; cbn; [discriminate|].
  destruct (String.eqb k0 k); discriminate.
Qed.

Lemma map_set_same (cs : kids) (k : string) (c : node) :
  map_get cs k = Some c -> map_set cs k c = cs.
Proof.
  induction cs as [|[k0 c0] cs IH]; cbn; intros Hg; [discriminate|].
  destruct (String.eqb k0 k).
  - injection Hg as <-. reflexivity.
  - rewrite IH by assumption. reflexivity.
Qed.

Lemma map_get_set_same (cs : kids) (k : string) (c : node) :
  map_get (map_set cs k c) k = Some c.
Proof.
  induction cs as [|[k0 c0] cs IH]; cbn.
  - rewrite String.eqb_refl. reflexivity.
  - destruct (String.eqb k0 k) eqn:E; cbn; rewrite E; [reflexivity|exact IH].
Qed.

Lemma map_get_nonempty (cs : kids) (k : string) (c : node) :
  map_get cs k = Some c -> cs <> [].
Proof. destruct cs; cbn; [discriminate|]. intros _. discriminate. Qed.

Lemma child_not_leaf (n c : node) (k : string) :
  child n k = Some c -> isLeaf n = false.
Proof.
  unfold child, isLeaf. destruct (children n); cbn; [discriminate|].
  reflexivity.
Qed.

Lemma leaf_leafValues (n : node) :
  isLeaf n = true -> leafValues n = [value n].
Proof.
  destruct n as [v [|kc cs]]; cbn; [reflexivity|discriminate].
Qed.

Lemma wf_node_root (n : node) : wf_node n -> wf_root n.
Proof.
  intros [x | cs Hne HF]; split; cbn; auto. intros []. reflexivity.
Qed.

Lemma wf_node_defined (n : node) :
  wf_node n -> is_defined (value n) = true.
Proof. intros [x | cs Hne HF]; reflexivity. Qed.

Lemma wf_node_leaf_value (n : node) :
  wf_node n -> isLeaf n = true -> exists x, value n = some x.
Proof.
  intros [x | cs Hne HF]; cbn; intros Hl.
  - exists x. reflexivity.
  - destruct cs; [congruence|discriminate].
Qed.

Lemma wf_root_child (n c : node) (k : string) :
  wf_root n -> child n k = Some c -> wf_node c.
Proof.
  intros [_ HF] Hc. eapply map_get_Forall; eassumption.
Qed.

Lemma wf_root_inner_null (n c : node) (k : string) :
  wf_root n -> child n k = Some c -> value n = null.
Proof.
  intros [Hv _] Hc. apply Hv. eapply map_get_nonempty; eassumption.
Qed.

End Nodes.

Section Tries.
Context {T C : Type} {HC : Hashable C} {HI : HashIter T C}.

#[local] Abbreviation node := (TrieNode.t T).

Lemma bestMatch_from_app (xs ys : list string) (n : node) :
  Trie.bestMatch_from n (xs ++ ys) =
    match Trie.bestMatch_from n xs with
    | Some n' => Trie.bestMatch_from n' ys
    | None => None
    end.
Proof.
  revert n. induction xs as [|x xs IH]; intros n; cbn; [reflexivity|].
  destruct (child n x); [apply IH | reflexivity].
Qed.

Lemma bestMatch_app (tr : Trie.t T) (xs ys : list C) :
  Trie.bestMatch tr (xs ++ ys) =
    match Trie.bestMatch tr xs with
    | Some n' => Trie.bestMatch_from n' (map serialize ys)
    | None => None
    end.
Proof. unfold Trie.bestMatch. rewrite map_app. apply bestMatch_from_app. Qed.

(** A lookup that goes on below a node finds that node with a child. *)
Lemma bestMatch_from_step (n n' : node) (k : string) (ks : list string) :
  Trie.bestMatch_from n (k :: ks) = Some n' -> isLeaf n = false.
Proof.
  cbn. destruct (child n k) eqn:E; [|discriminate].
  intros _. exact (child_not_leaf _ _ E).
Qed.

(** A buffer that can be extended to a match leads to an inner node. *)
Lemma bestMatch_more (tr : Trie.t T) (xs : list C) (y : C) (ys : list C)
  (n : node) :
  Trie.bestMatch tr (xs ++ y :: ys) = Some n ->
  exists n1, Trie.bestMatch tr xs = Some n1 /\ isLeaf n1 = false.
Proof.
  rewrite bestMatch_app.
  destruct (Trie.bestMatch tr xs) as [n1|]; [|discriminate].
  intros Hb. exists n1. split; [reflexivity|].
  eapply bestMatch_from_step. exact Hb.
Qed.

Lemma bestMatch_from_wf_node (keys : list string) (n n' : node) :
  wf_node n -> Trie.bestMatch_from n keys = Some n' -> wf_node n'.
Proof.
  revert n. induction keys as [|k keys IH]; intros n Hwf; cbn.
  - intros [= <-]. assumption.
  - destruct (child n k) as [c|] eqn:E; [|discriminate].
    apply IH. exact (wf_root_child _ (wf_node_root Hwf) E).
Qed.

Lemma bestMatch_from_wf_root (keys : list string) (n n' : node) :
  wf_root n -> Trie.bestMatch_from n keys = Some n' ->
  wf_root n' /\ (keys <> [] -> wf_node n').
Proof.
  intros Hwf. destruct keys as [|k keys]; cbn.
  - intros [= <-]. split; [assumption|congruence].
  - destruct (child n k) as [c|] eqn:E; [|discriminate]. intros Hb.
    pose proof (bestMatch_from_wf_node _ (wf_root_child _ Hwf E) Hb) as Hn.
    split; [apply wf_node_root; assumption | intros _; assumption].
Qed.

(** *** [add] *)

Lemma add_from_new (keys : list string) (composite : T) :
  exists n', Trie.add_from TrieNode.new keys composite = (n', Returned)
             /\ wf_node n'.
Proof.
  induction keys as [|k keys (n' & E & Hwf)]; cbn.
  - eexists. split; [reflexivity|]. constructor.
  - rewrite E. eexists. split; [reflexivity|].
    cbn. apply wf_inner; [discriminate|].
    constructor; [assumption|constructor].
Qed.

(** [add] keeps a node well formed whether it returns or throws, and a
    call that throws has changed nothing. *)
Lemma add_from_wf_root (keys : list string) (composite : T) (n : node) :
  wf_root n ->
  wf_root (fst (Trie.add_from n keys composite))
  /\ (keys <> [] -> wf_node (fst (Trie.add_from n keys composite)))
  /\ (snd (Trie.add_from n keys composite) <> Returned ->
      fst (Trie.add_from n keys composite) = n).
Proof.
  revert n. induction keys as [|k keys IH]; intros n Hwf.
  - cbn. destruct (is_defined (value n)) eqn:Ed; cbn.
    + split; [assumption|split; [congruence|reflexivity]].
    + split; [|split; congruence].
      destruct n as [v cs]. destruct Hwf as [Hv HF]. cbn in *.
      destruct cs as [|kc cs].
      * split; cbn; [congruence|constructor].
      * rewrite Hv in Ed by discriminate. discriminate.
  - cbn. destruct (child n k) as [c|] eqn:E.
    + pose proof (wf_root_child _ Hwf E) as Hc.
      destruct (IH c (wf_node_root Hc)) as (Hr & Hn & Hsame).
      destruct (Trie.add_from c keys composite) as [c' r] eqn:Ea.
      cbn in *.
      assert (Hc' : wf_node c').
      { destruct keys as [|k' keys'].
        - cbn in Ea. rewrite (wf_node_defined Hc) in Ea.
          injection Ea as <- _. assumption.
        - apply Hn. discriminate. }
      assert (Hn' : wf_node (addChild n k c')).
      { apply wf_inner; [apply map_set_nonempty|].
        apply map_set_Forall; [apply Hwf | assumption]. }
      split; [apply wf_node_root; assumption|].
      split; [intros _; assumption|].
      intros Hthrown. rewrite (Hsame Hthrown).
      pose proof (wf_root_inner_null _ Hwf E) as Hnull.
      unfold addChild. rewrite (map_set_same _ _ E).
      destruct n as [v cs]. cbn in Hnull. subst v. reflexivity.
    + destruct (add_from_new keys composite) as (n' & Ea & Hn').
      rewrite Ea. cbn.
      assert (Hn'' : wf_node (addChild n k n')).
      { apply wf_inner; [apply map_set_nonempty|].
        apply map_set_Forall; [apply Hwf | assumption]. }
      split; [apply wf_node_root; assumption|].
      split; [intros _; assumption|congruence].
Qed.

(** When the walk of [add] ends on a node whose value is not
    [undefined], [add] throws. *)
Lemma add_from_existing_throws (keys : list string) (composite : T)
  (n n' : node) :
  Trie.bestMatch_from n keys = Some n' ->
  is_defined (value n') = true ->
  snd (Trie.add_from n keys composite) = Thrown "Duplicate keymap".
Proof.
  revert n. induction keys as [|k keys IH]; intros n; cbn.
  - intros [= <-] ->. reflexivity.
  - destruct (child n k) as [c|]; [|discriminate]. intros Hb Hd.
    specialize (IH c Hb Hd).
    destruct (Trie.add_from c keys composite) as [c' r]. exact IH.
Qed.

Lemma add_wf (tr : Trie.t T) (composite : T) :
  wf tr -> wf (fst (Trie.add tr composite)).
Proof.
  unfold wf, Trie.add. intros Hwf.
  destruct (add_from_wf_root (map serialize (components composite))
              composite Hwf) as (Hr & _).
  destruct (Trie.add_from _ _ _). exact Hr.
Qed.

Lemma built_wf (tr : Trie.t T) : built tr -> wf tr.
Proof.
  induction 1 as [|tr composite _ IH].
  - split; cbn; [congruence|constructor].
  - apply add_wf. assumption.
Qed.

(** The two conflicts that [add] does reject, in a well-formed trie: the
    new sequence is the sequence of a stored binding, or a proper prefix
    of it.  [add] throws and the trie is unchanged. *)
Lemma add_prefix_of_stored_throws (tr : Trie.t T) (old new_ : T)
  (rest : list C) :
  wf tr -> stored tr old ->
  components old = components new_ ++ rest ->
  Trie.add tr new_ = (tr, Thrown "Duplicate keymap").
Proof.
  intros Hwf (n & Hb & Hv) Hseq. rewrite Hseq, bestMatch_app in Hb.
  destruct (Trie.bestMatch tr (components new_)) as [np|] eqn:Ep;
    [|discriminate].
  assert (Hd : is_defined (value np) = true).
  { destruct rest as [|c rest].
    - cbn in Hb. injection Hb as ->. rewrite Hv. reflexivity.
    - cbn in Hb. destruct (child np (serialize c)) as [ch|] eqn:Ec;
        [|discriminate].
      destruct (bestMatch_from_wf_root _ Hwf Ep) as [Hnp _].
      rewrite (wf_root_inner_null _ Hnp Ec). reflexivity. }
  pose proof (add_from_existing_throws _ new_ _ Ep Hd) as Hthrow.
  destruct (add_from_wf_root (map serialize (components new_)) new_ Hwf)
    as (_ & _ & Hsame).
  unfold Trie.add.
  destruct (Trie.add_from (Trie.root tr) (map serialize (components new_))
              new_) as [r c]. cbn in *. subst c.
  rewrite Hsame by discriminate. destruct tr. reflexivity.
Qed.

(** In a well-formed trie a node that carries a binding is a leaf. *)
Lemma valued_node_is_leaf (tr : Trie.t T) (seq : list C) (n : node) (x : T) :
  wf tr -> Trie.bestMatch tr seq = Some n -> value n = some x ->
  isLeaf n = true /\ leafValues n = [some x].
Proof.
  intros Hwf Hb Hv.
  destruct (bestMatch_from_wf_root _ Hwf Hb) as [[Hnull _] _].
  assert (Hl : isLeaf n = true).
  { unfold isLeaf. destruct (children n); [reflexivity|].
    rewrite Hnull in Hv by discriminate. discriminate. }
  split; [assumption|]. rewrite leaf_leafValues, Hv by assumption.
  reflexivity.
Qed.

(** The conflict that [add] does not reject.  When the walk along [keys]
    ends on a leaf and the new sequence goes on below it, [add] returns, and
    the former leaf is left with [null] for a value. *)
Lemma add_from_below_leaf (keys ext : list string) (composite : T) :
  forall n leaf : node,
    Trie.bestMatch_from n keys = Some leaf -> isLeaf leaf = true ->
    ext <> [] ->
    snd (Trie.add_from n (keys ++ ext) composite) = Returned
    /\ exists inner,
        Trie.bestMatch_from (fst (Trie.add_from n (keys ++ ext) composite)) keys
        = Some inner
        /\ value inner = null.
Proof.
  induction keys as [|k keys IH]; intros n leaf Hb Hl Hext.
  - cbn in Hb. injection Hb as ->. destruct ext as [|e ext]; [congruence|].
    cbn. unfold child. unfold isLeaf in Hl.
    destruct (children leaf) eqn:Ec; [|discriminate]. cbn.
    destruct (add_from_new ext composite) as (c' & Ea & _). rewrite Ea. cbn.
    split; [reflexivity|]. eexists. split; reflexivity.
  - cbn in Hb. destruct (child n k) as [c|] eqn:Ec; [|discriminate].
    destruct (IH c leaf Hb Hl Hext) as (Hr & inner & Hi & Hv).
    cbn. rewrite Ec.
    destruct (Trie.add_from c (keys ++ ext) composite) as [c' r]. cbn in *.
    split; [assumption|]. exists inner. unfold child. cbn.
    rewrite map_get_set_same. auto.
Qed.

Lemma add_longer_than_stored_overwrites (tr : Trie.t T) (old new_ : T)
  (ext : list C) :
  wf tr -> stored tr old ->
  components new_ = components old ++ ext -> ext <> [] ->
  snd (Trie.add tr new_) = Returned
  /\ ~ stored (fst (Trie.add tr new_)) old.
Proof.
  intros Hwf (n & Hb & Hv) Hseq Hext.
  destruct (valued_node_is_leaf _ Hwf Hb Hv) as [Hl _].
  assert (Hext' : map serialize ext <> [])
    by (destruct ext; [congruence|discriminate]).
  destruct (@add_from_below_leaf (map serialize (components old))
              (map serialize ext) new_ (Trie.root tr) n Hb Hl Hext')
    as (Hr & inner & Hi & Hnull).
  unfold Trie.add. rewrite Hseq, map_app.
  destruct (Trie.add_from (Trie.root tr)
              (map serialize (components old) ++ map serialize ext) new_)
    as [r c]. cbn in *.
  split; [assumption|]. intros (n' & Hb' & Hv').
  unfold Trie.bestMatch in Hb'. cbn in Hb'. congruence.
Qed.

End Tries.
End TrieFacts.

(** ** The matcher's transitions, one lemma per branch of [advance] *)

Module KeyMatcherFacts.
Import KeyMatchingState KeyMatcher KeyMatcherSpec.

Lemma advance_returns_state (m : t) (k : KeyPress.t) :
  snd (advance m k) = currentState (fst (advance m k)).
Proof.
  unfold advance. destruct m as [tr s buf ms].
  destruct s; cbn; repeat (destruct (classify _) || destruct (KeyPress.classification _));
    reflexivity.
Qed.

Lemma advance_start (m : t) (k : KeyPress.t) :
  currentState m = NoMatch ->
  fst (advance m k) =
    match Trie.bestMatch (trie m) (currentSequence m ++ [k]) with
    | None => Build (trie m) NoMatch [] []
    | Some n =>
        Build (trie m)
          (if TrieNode.isLeaf n then SuccessMatch else StartedMatch)
          (currentSequence m ++ [k]) (TrieNode.leafValues n)
    end.
Proof.
  intros Hs. unfold advance. destruct m as [tr s buf ms]. cbn in *. subst s.
  cbn. destruct (Trie.bestMatch tr (buf ++ [k])) as [n|]; cbn; [|reflexivity].
  destruct (TrieNode.isLeaf n); reflexivity.
Qed.

Lemma advance_noise (m : t) (k : KeyPress.t) :
  in_progress (currentState m) ->
  KeyPress.classification k = NoKey ->
  fst (advance m k) =
    Build (trie m) RetainedMatch (currentSequence m)
      (reachableFrom (trie m) (currentSequence m ++ [k])).
Proof.
  intros Hs Hk. unfold advance, reachableFrom.
  destruct m as [tr s buf ms]. cbn in *.
  destruct Hs as [-> | [-> | ->]]; cbn; rewrite Hk; cbn; unfold pop; cbn;
    rewrite removelast_last; reflexivity.
Qed.

Lemma advance_continue (m : t) (k : KeyPress.t) :
  in_progress (currentState m) ->
  KeyPress.classification k <> NoKey ->
  fst (advance m k) =
    match Trie.bestMatch (trie m) (currentSequence m ++ [k]) with
    | None => Build (trie m) InvalidMatch (currentSequence m ++ [k]) []
    | Some n =>
        Build (trie m)
          (if TrieNode.isLeaf n then SuccessMatch else ImprovedMatch)
          (currentSequence m ++ [k]) (TrieNode.leafValues n)
    end.
Proof.
  intros Hs Hk. unfold advance. destruct m as [tr s buf ms]. cbn in *.
  destruct Hs as [-> | [-> | ->]]; cbn;
    (destruct (KeyPress.classification k); [congruence| |]);
    (destruct (Trie.bestMatch tr (buf ++ [k])) as [n|]; cbn; [|reflexivity]);
    destruct (TrieNode.isLeaf n); reflexivity.
Qed.

Lemma advance_restart (m : t) (k : KeyPress.t) :
  terminal (currentState m) ->
  advance m k = advance (new (trie m)) k.
Proof.
  intros Hs. unfold advance. destruct m as [tr s buf ms]. cbn in *.
  destruct Hs as [-> | ->]; cbn;
    destruct (classify _); reflexivity.
Qed.

Lemma advance_trie (m : t) (k : KeyPress.t) :
  trie (fst (advance m k)) = trie m.
Proof.
  unfold advance. destruct m as [tr s buf ms].
  destruct s; cbn;
    repeat (destruct (classify _) || destruct (KeyPress.classification _));
    reflexivity.
Qed.

End KeyMatcherFacts.

(** ** Re-entrancy, recursion depth and the idle invariant of the matcher *)

Module KeyMatcherClaims.
Import KeyMatchingState KeyMatcher KeyMatcherSpec KeyMatcherFacts.

Lemma advance_idle (m : t) (k : KeyPress.t) : idle_inv (fst (advance m k)).
Proof.
  unfold idle_inv, advance. destruct m as [tr s buf ms].
  destruct s; cbn;
    repeat (destruct (classify _) || destruct (KeyPress.classification _));
    cbn; intros; (discriminate || auto).
Qed.

Lemma feed_snoc (m : t) (keys : list KeyPress.t) (k : KeyPress.t) :
  feed m (keys ++ [k]) = fst (advance (feed m keys) k).
Proof. unfold feed. rewrite fold_left_app. reflexivity. Qed.

Lemma feed_app (m : t) (xs ys : list KeyPress.t) :
  feed m (xs ++ ys) = feed (feed m xs) ys.
Proof. unfold feed. apply fold_left_app. Qed.

Lemma feed_cons (m : t) (k : KeyPress.t) (keys : list KeyPress.t) :
  feed m (k :: keys) = feed (fst (advance m k)) keys.
Proof. reflexivity. Qed.

Lemma feed_trie (keys : list KeyPress.t) (m : t) :
  trie (feed m keys) = trie m.
Proof.
  revert m. induction keys as [|k keys IH]; intros m; [reflexivity|].
  rewrite feed_cons, IH. apply advance_trie.
Qed.

(** C5. Re-entrancy: a matcher that is in [SuccessMatch] or [InvalidMatch]
    handles the next key press exactly as a new matcher over the same trie
    handles it: the same matcher state (state, buffer, current matches),
    the same returned state, the same [allMatches()] and [fullMatch()]. *)
Theorem advance_after_terminal_is_fresh (m : t) (c : KeyPress.t)
  (Hterminal : currentState m = SuccessMatch \/ currentState m = InvalidMatch) :
  advance m c = advance (new (trie m)) c
  /\ allMatches (fst (advance m c)) = allMatches (fst (advance (new (trie m)) c))
  /\ fullMatch (fst (advance m c)) = fullMatch (fst (advance (new (trie m)) c)).
Proof.
  assert (E : advance m c = advance (new (trie m)) c)
    by (apply advance_restart; exact Hterminal).
  rewrite E. repeat split.
Qed.

Lemma advance_after_terminal_is_fresh_witness :
  (currentState after_focus_left = SuccessMatch
   \/ currentState after_focus_left = InvalidMatch)
  /\ advance after_focus_left (KeyPress.ctrl_ "b")
     = advance (new (trie after_focus_left)) (KeyPress.ctrl_ "b").
Proof.
  split.
  - left. vm_compute. reflexivity.
  - apply (advance_after_terminal_is_fresh after_focus_left
             (KeyPress.ctrl_ "b")).
    left. vm_compute. reflexivity.
Defined.

(** C10. The idle invariant: a new matcher satisfies it, so does the
    matcher after any sequence of [advance] calls, and every [advance]
    call preserves it. *)
Theorem idle_invariant (tr : Trie.t KeyMap.t) (keys : list KeyPress.t)
  (m : t) (k : KeyPress.t) (Hinv : idle_inv m) :
  idle_inv (new tr)
  /\ idle_inv (feed (new tr) keys)
  /\ idle_inv (fst (advance m k)).
Proof.
  split; [|split].
  - intros _. split; reflexivity.
  - destruct keys as [|k0 keys0] using rev_ind.
    + intros _. split; reflexivity.
    + rewrite feed_snoc. apply advance_idle.
  - apply advance_idle.
Qed.

Lemma idle_invariant_witness :
  idle_inv (new focus_trie)
  /\ idle_inv (fst (advance (new focus_trie) (KeyPress.just "x"))).
Proof.
  assert (H0 : idle_inv (new focus_trie)) by (intros _; split; reflexivity).
  split; [exact H0|].
  exact (proj2 (proj2 (idle_invariant focus_trie [] (KeyPress.just "x") H0))).
Defined.

End KeyMatcherClaims.

(** ** Termination of [advance] *)

Module Termination.

Lemma matcher_two_activations (extra : nat) (m : KeyMatcher.t)
  (k : KeyPress.t) :
  exists o,
    KeyMatcher.advance_fuel (2 + extra) m k = Some o
    /\ KeyMatcher.advance_fuel 2 m k = Some o
    /\ KeyMatcher.calls o <= 2.
Proof.
  destruct m as [tr s buf ms]. destruct s; cbn.
  all: eexists; split; [reflexivity|]; split; [reflexivity|]; cbn; lia.
Qed.

Lemma register_two_activations (extra : nat) (m : RegisterMachine.t)
  (e : KeyPress.t) :
  exists o,
    RegisterMachine.advance_fuel (2 + extra) m e = Some o
    /\ RegisterMachine.advance_fuel 2 m e = Some o
    /\ RegisterMachine.calls o <= 2.
Proof.
  destruct m as [s buf]. destruct s; cbn.
  all: eexists; split; [reflexivity|]; split; [reflexivity|]; cbn; lia.
Qed.

(** C9. Every call of [advance], on the matcher and on the register
    machine, returns: two nested activations are enough whatever the state
    and the key press, more fuel changes nothing, and the call takes at
    most two activations, so [advance] calls itself at most once.  A
    machine that has just been reset returns within one activation. *)
Theorem advance_terminates_depth_two :
  (forall (m : KeyMatcher.t) (k : KeyPress.t),
      exists o,
        (forall extra, KeyMatcher.advance_fuel (2 + extra) m k = Some o)
        /\ KeyMatcher.calls o <= 2
        /\ (exists o1,
               KeyMatcher.advance_fuel 1 (KeyMatcher.reset m) k = Some o1))
  /\ (forall (m : RegisterMachine.t) (e : KeyPress.t),
         exists o,
           (forall extra,
               RegisterMachine.advance_fuel (2 + extra) m e = Some o)
           /\ RegisterMachine.calls o <= 2
           /\ (exists o1,
                  RegisterMachine.advance_fuel 1 (RegisterMachine.reset m) e
                  = Some o1)).
Proof.
  split.
  - intros m k.
    destruct (matcher_two_activations 0 m k) as (o & _ & H2 & Hc).
    exists o. split; [|split; [exact Hc|]].
    + intros extra.
      destruct (matcher_two_activations extra m k) as (o' & He & H2' & _).
      congruence.
    + cbn. eexists. reflexivity.
  - intros m e.
    destruct (register_two_activations 0 m e) as (o & _ & H2 & Hc).
    exists o. split; [|split; [exact Hc|]].
    + intros extra.
      destruct (register_two_activations extra m e) as (o' & He & H2' & _).
      congruence.
    + cbn. eexists. reflexivity.
Qed.

End Termination.

(** ** The key-down handler *)

Module HandlerClaims.
Import LeaderHotkeysPlugin.

(** C8. The key-down handler calls [preventDefault] exactly when the state
    returned by [advance] is not [NoMatch]; the matcher it leaves behind is
    the one [advance] produced. *)
Theorem handleKeyDown_prevents_unless_NoMatch
  (matcher : KeyMatcher.t) (event : KeyboardEvent) :
  defaultPrevented (snd (handleKeyDown matcher event))
  = negb (KeyMatchingState.eqb
            (snd (KeyMatcher.advance matcher (fromEvent event)))
            KeyMatchingState.NoMatch)
  /\ fst (handleKeyDown matcher event)
     = fst (KeyMatcher.advance matcher (fromEvent event)).
Proof.
  unfold handleKeyDown.
  destruct (KeyMatcher.advance matcher (fromEvent event)) as [m' s].
  destruct s; cbn; try (split; reflexivity).
  destruct (KeyMatcher.fullMatch m') as [keymap logged]. cbn.
  split; reflexivity.
Qed.

End HandlerClaims.

(** ** The register machine in [PendingConfirmation] *)

Module RegisterMachineClaims.
Import KeyRegisterState RegisterMachine RegisterMachineSpec.

(** What [advance] does from [PendingConfirmation], branch by branch, as
    the code has it: every branch that pops removes the key press that this
    very call pushed. *)
Lemma advance_pending (m : t) (c : KeyPress.t) :
  currentState m = PendingConfirmation ->
  advance m c =
    if String.eqb (KeyPress.key c) "Enter" && KeyPress.ctrl c && KeyPress.alt c
    then (Build FinishedRegistering (currentSequence m), FinishedRegistering)
    else if String.eqb (KeyPress.key c) "Enter"
    then (Build AddedKeys (currentSequence m ++ [c]), AddedKeys)
    else if String.eqb (KeyPress.key c) "Backspace"
    then (Build BacktrackedKey (currentSequence m), BacktrackedKey)
    else (Build PendingConfirmation (currentSequence m ++ [c]),
          PendingConfirmation).
Proof.
  intros Hs. unfold advance. destruct m as [s buf]. cbn in *. subst s. cbn.
  destruct (String.eqb (KeyPress.key c) "Enter" && KeyPress.ctrl c
            && KeyPress.alt c); cbn.
  - unfold pop. cbn. rewrite removelast_last. reflexivity.
  - destruct (String.eqb (KeyPress.key c) "Enter"); cbn; [reflexivity|].
    destruct (String.eqb (KeyPress.key c) "Backspace"); cbn; [|reflexivity].
    unfold pop. cbn. rewrite removelast_last. reflexivity.
Qed.

(** C6, at the failing input.  After [a] and [Enter] the machine is in
    [PendingConfirmation] with [Enter] pending; [Backspace] then leads to
    [BacktrackedKey], but [presses()] still ends with the pending [Enter]:
    the only key press popped is the [Backspace] just pushed. *)
Theorem backspace_keeps_pending_key :
  currentState pending_enter = PendingConfirmation
  /\ presses pending_enter = [KeyPress.just "a"; KeyPress.just "Enter"]
  /\ snd (advance pending_enter (KeyPress.just "Backspace")) = BacktrackedKey
  /\ presses (fst (advance pending_enter (KeyPress.just "Backspace")))
     = [KeyPress.just "a"; KeyPress.just "Enter"]
  /\ presses (fst (advance pending_enter (KeyPress.just "Backspace")))
     <> [KeyPress.just "a"].
Proof.
  repeat split; try (vm_compute; reflexivity).
  vm_compute. discriminate.
Qed.

End RegisterMachineClaims.

(** ** Serialisation of key presses *)

Module SerializeClaims.
Import KeyPress SerializeSpec.

(** C7 as stated is false: a key whose name begins with a marker collides
    with the key press that has the modifier held. *)
Lemma serialize_collision :
  ~ distinct_serialization (just "Ctrl + x") (ctrl_ "x").
Proof. intros H. apply H; [discriminate | reflexivity]. Qed.

Local Ltac strip H :=
  repeat match type of H with
    | String ?a ?s = String ?b ?u =>
        first [ discriminate H
              | let E := fresh in injection H as E H; clear E
              | injection H as H ]
    end.

Lemma prefix_empty (k : string) : String.prefix "" k = true.
Proof. destruct k; reflexivity. Qed.

Lemma serialize_injective (c1 c2 : t) :
  starts_with_marker (key c1) = false ->
  starts_with_marker (key c2) = false ->
  serialize c1 = serialize c2 -> c1 = c2.
Proof.
  destruct c1 as [k1 s1 a1 c1 m1], c2 as [k2 s2 a2 c2 m2].
  unfold serialize, repr, metaRepr, ctrlRepr, altRepr, shiftRepr.
  cbn [key shift alt ctrl meta]. intros Hk1 Hk2 H.
  destruct m1, m2, c1, c2, a1, a2, s1, s2; cbn in H; strip H;
    try (subst; reflexivity);
    exfalso;
    first [ rewrite H in Hk1; cbn in Hk1; rewrite ?prefix_empty in Hk1;
            discriminate Hk1
          | rewrite <- H in Hk2; cbn in Hk2; rewrite ?prefix_empty in Hk2;
            discriminate Hk2 ].
Qed.

(** C7, amended.  Two different key presses whose key names do not begin
    with one of the four modifier markers have different serialisations. *)
Theorem serialize_distinct_on_plain_keys (c1 c2 : t)
  (Hplain1 : starts_with_marker (key c1) = false)
  (Hplain2 : starts_with_marker (key c2) = false)
  (Hdiff : c1 <> c2) :
  serialize c1 <> serialize c2.
Proof.
  intros E. apply Hdiff. apply serialize_injective; assumption.
Qed.

Lemma serialize_distinct_on_plain_keys_witness :
  starts_with_marker (key (ctrl_ "b")) = false
  /\ starts_with_marker (key (just "b")) = false
  /\ ctrl_ "b" <> just "b"
  /\ serialize (ctrl_ "b") <> serialize (just "b").
Proof.
  split; [reflexivity|]. split; [reflexivity|].
  split; [discriminate|].
  apply (serialize_distinct_on_plain_keys (c1 := ctrl_ "b") (c2 := just "b"));
    [reflexivity | reflexivity | discriminate].
Defined.

End SerializeClaims.

(** ** The matcher over a trie built by [add] *)

Module MatcherOverTrie.
Import LeaderHotkeysPlugin KeyMatchingState KeyMatcher KeyMatcherSpec.
Import KeyMatcherFacts KeyMatcherClaims TrieSpec TrieFacts.

Lemma state_cases (s : KeyMatchingState.t) :
  s = NoMatch \/ in_progress s \/ terminal s.
Proof. unfold in_progress, terminal. destruct s; auto 6. Qed.

Lemma add_all_built (hotkeys : list KeyMap.t) (tr : Trie.t KeyMap.t) :
  built tr -> built (fst (add_all tr hotkeys)).
Proof.
  revert tr. induction hotkeys as [|km rest IH]; intros tr Hb; cbn.
  - assumption.
  - pose proof (built_add km Hb) as Hb'.
    destruct (Trie.add tr km) as [tr' [|e]]; cbn in *; auto.
Qed.

Lemma load_built (hotkeys : list KeyMap.t) : built (load hotkeys).
Proof. apply add_all_built. constructor. Qed.

(** A leaf found for a non-empty buffer carries a binding. *)
Lemma probe_leaf (tr : Trie.t KeyMap.t) (buf : list KeyPress.t)
  (k : KeyPress.t) (n : TrieNode.t KeyMap.t) :
  wf tr -> Trie.bestMatch tr (buf ++ [k]) = Some n ->
  TrieNode.isLeaf n = true ->
  exists km, TrieNode.value n = some km
             /\ TrieNode.leafValues n = [some km].
Proof.
  intros Hwf Hb Hl.
  destruct (bestMatch_from_wf_root _ Hwf Hb) as [_ Hn].
  destruct (wf_node_leaf_value (n := n)) as [km Hv]; [|assumption|].
  - apply Hn. rewrite map_app. cbn. intros E.
    apply app_eq_nil in E. destruct E; discriminate.
  - exists km. split; [assumption|].
    rewrite leaf_leafValues, Hv by assumption. reflexivity.
Qed.

(** Whenever [advance] ends in [SuccessMatch], the buffer leads to a leaf
    and the current matches are that leaf's one binding. *)
Lemma advance_success (m : t) (k : KeyPress.t) :
  wf (trie m) ->
  currentState (fst (advance m k)) = SuccessMatch ->
  exists n km,
    Trie.bestMatch (trie m) (currentSequence (fst (advance m k))) = Some n
    /\ TrieNode.isLeaf n = true
    /\ currentMatches (fst (advance m k)) = [some km]
    /\ reachableFrom (trie m) (currentSequence (fst (advance m k)))
       = [some km].
Proof.
  intros Hwf.
  assert (Hstart : forall m0 : t,
             currentState m0 = NoMatch -> wf (trie m0) ->
             currentState (fst (advance m0 k)) = SuccessMatch ->
             exists n km,
               Trie.bestMatch (trie m0) (currentSequence (fst (advance m0 k)))
               = Some n
               /\ TrieNode.isLeaf n = true
               /\ currentMatches (fst (advance m0 k)) = [some km]
               /\ reachableFrom (trie m0)
                    (currentSequence (fst (advance m0 k))) = [some km]).
  { intros m0 Hs0 Hwf0. rewrite (advance_start _ k Hs0).
    destruct (Trie.bestMatch (trie m0) (currentSequence m0 ++ [k]))
      as [n|] eqn:Eb; cbn; [|discriminate].
    destruct (TrieNode.isLeaf n) eqn:El; [|discriminate]. intros _.
    destruct (probe_leaf _ _ Hwf0 Eb El) as (km & Hv & Hlv).
    exists n, km. unfold reachableFrom. rewrite Eb. auto. }
  destruct (state_cases (currentState m)) as [Hs | [Hs | Hs]].
  - apply Hstart; assumption.
  - destruct (KeyPress.classification k) eqn:Ek.
    + rewrite (advance_noise _ k Hs Ek). cbn. discriminate.
    + rewrite (advance_continue m k Hs) by congruence.
      destruct (Trie.bestMatch (trie m) (currentSequence m ++ [k]))
        as [n|] eqn:Eb; cbn; [|discriminate].
      destruct (TrieNode.isLeaf n) eqn:El; [|discriminate]. intros _.
      destruct (probe_leaf _ _ Hwf Eb El) as (km & Hv & Hlv).
      exists n, km. unfold reachableFrom. rewrite Eb. auto.
    + rewrite (advance_continue m k Hs) by congruence.
      destruct (Trie.bestMatch (trie m) (currentSequence m ++ [k]))
        as [n|] eqn:Eb; cbn; [|discriminate].
      destruct (TrieNode.isLeaf n) eqn:El; [|discriminate]. intros _.
      destruct (probe_leaf _ _ Hwf Eb El) as (km & Hv & Hlv).
      exists n, km. unfold reachableFrom. rewrite Eb. auto.
  - rewrite (advance_restart m k Hs). apply (Hstart (new (trie m)));
      [reflexivity | assumption].
Qed.

Lemma reachable_success (tr : Trie.t KeyMap.t) (m : t) :
  built tr -> reachable tr m -> currentState m = SuccessMatch ->
  exists km, currentMatches m = [some km]
             /\ reachableFrom (trie m) (currentSequence m) = [some km].
Proof.
  intros Hb [keys ->]. destruct keys as [|k keys _] using rev_ind.
  - cbn. discriminate.
  - rewrite feed_snoc. intros Hs.
    destruct (advance_success (feed (new tr) keys) k) as (n & km & H1 & H2 & H3 & H4).
    + rewrite feed_trie. apply built_wf. assumption.
    + assumption.
    + exists km. rewrite advance_trie. auto.
Qed.

(** C2. [fullMatch()] returns a binding exactly when the state is
    [SuccessMatch] and exactly one binding is reachable from the buffer, and
    the binding it returns is that one: so it is in every matcher reached
    from a new one over a trie built by [add].  There [SuccessMatch] always
    comes with a single match, so what [fullMatch()] does otherwise is
    stated for every state the fields can take: it returns a binding
    exactly when the state is [SuccessMatch] and that binding is the only
    match; in [SuccessMatch] with a number of matches other than one, be
    they the bindings reachable from the buffer or not, it returns [null]
    and reports the fault on the console; outside [SuccessMatch] it returns
    [null]. *)
Theorem fullMatch_iff_success_and_single (m : t) :
  (forall tr : Trie.t KeyMap.t,
      built tr -> reachable tr m ->
      (forall km,
          fst (fullMatch m) = some km
          <-> currentState m = SuccessMatch
              /\ reachableFrom (trie m) (currentSequence m) = [some km])
      /\ ((exists km, fst (fullMatch m) = some km)
          <-> currentState m = SuccessMatch
              /\ List.length (reachableFrom (trie m) (currentSequence m)) = 1)
      /\ (currentState m = SuccessMatch ->
          allMatches m = reachableFrom (trie m) (currentSequence m)))
  /\ (forall km,
         fst (fullMatch m) = some km
         <-> currentState m = SuccessMatch /\ allMatches m = [some km])
  /\ (currentState m = SuccessMatch ->
      List.length (allMatches m) <> 1 ->
      fullMatch m
      = (null,
         [WriteConsole "State Machine in FullMatch state, but availableHotkeys.length contains more than 1 element. This is definitely a bug."]))
  /\ (currentState m = SuccessMatch ->
      allMatches m = reachableFrom (trie m) (currentSequence m) ->
      List.length (reachableFrom (trie m) (currentSequence m)) <> 1 ->
      fst (fullMatch m) = null)
  /\ (currentState m <> SuccessMatch -> fullMatch m = (null, [])).
Proof.
  assert (Hany : forall km,
             fst (fullMatch m) = some km
             <-> currentState m = SuccessMatch /\ allMatches m = [some km]).
  { intros km. unfold fullMatch, allMatches.
    destruct (currentState m); cbn;
      try (split; [discriminate | intros [? _]; discriminate]).
    destruct (currentMatches m) as [|v [|v' rest]]; cbn.
    - split; [discriminate | intros [_ ?]; discriminate].
    - split; [intros ->; auto | intros [_ [= ->]]; reflexivity].
    - split; [discriminate | intros [_ ?]; discriminate]. }
  assert (Hfault : currentState m = SuccessMatch ->
                   List.length (allMatches m) <> 1 ->
                   fullMatch m
                   = (null,
                      [WriteConsole "State Machine in FullMatch state, but availableHotkeys.length contains more than 1 element. This is definitely a bug."])).
  { intros Hs Hn. unfold fullMatch. rewrite Hs. cbn.
    destruct (Nat.eqb_spec (List.length (allMatches m)) 1); [contradiction|].
    reflexivity. }
  split; [|split; [exact Hany|split; [exact Hfault|split]]].
  - intros tr Hbuilt Hreach. split; [|split].
    + intros km. rewrite Hany. split.
      * intros [Hs Hm]. split; [assumption|].
        destruct (reachable_success Hbuilt Hreach Hs) as (km' & Hm' & Hr).
        unfold allMatches in Hm. congruence.
      * intros [Hs Hr0]. split; [assumption|].
        destruct (reachable_success Hbuilt Hreach Hs) as (km' & Hm' & Hr).
        unfold allMatches. congruence.
    + split.
      * intros [km Hf]. apply Hany in Hf. destruct Hf as [Hs _].
        split; [assumption|].
        destruct (reachable_success Hbuilt Hreach Hs) as (km' & _ & Hr).
        rewrite Hr. reflexivity.
      * intros [Hs _].
        destruct (reachable_success Hbuilt Hreach Hs) as (km & Hm & _).
        exists km. apply Hany. auto.
    + intros Hs.
      destruct (reachable_success Hbuilt Hreach Hs) as (km & Hm & Hr).
      unfold allMatches. congruence.
  - intros Hs Hm Hn. rewrite Hfault; [reflexivity|assumption|].
    rewrite Hm. assumption.
  - intros Hs. unfold fullMatch.
    destruct (currentState m); try reflexivity. congruence.
Qed.

Lemma fullMatch_iff_success_and_single_witness :
  (built focus_trie /\ reachable focus_trie after_focus_left
   /\ currentState after_focus_left = SuccessMatch
   /\ reachableFrom (trie after_focus_left) (currentSequence after_focus_left)
      = [some focus_left]
   /\ fst (fullMatch after_focus_left) = some focus_left)
  /\ (currentState success_with_three = SuccessMatch
      /\ allMatches success_with_three
         = reachableFrom (trie success_with_three)
             (currentSequence success_with_three)
      /\ List.length
           (reachableFrom (trie success_with_three)
              (currentSequence success_with_three)) <> 1
      /\ fst (fullMatch success_with_three) = null).
Proof.
  assert (Hb : built focus_trie) by apply load_built.
  assert (Hr : reachable focus_trie after_focus_left)
    by (eexists; reflexivity).
  assert (Hs : currentState after_focus_left = SuccessMatch)
    by (vm_compute; reflexivity).
  assert (Hone : reachableFrom (trie after_focus_left)
                   (currentSequence after_focus_left) = [some focus_left])
    by (vm_compute; reflexivity).
  assert (Hs3 : currentState success_with_three = SuccessMatch)
    by reflexivity.
  assert (Hm3 : allMatches success_with_three
                = reachableFrom (trie success_with_three)
                    (currentSequence success_with_three)) by reflexivity.
  assert (Hn3 : List.length
                  (reachableFrom (trie success_with_three)
                     (currentSequence success_with_three)) <> 1)
    by (vm_compute; discriminate).
  split.
  - split; [exact Hb|]. split; [exact Hr|]. split; [exact Hs|].
    split; [exact Hone|].
    exact (proj2 (proj1 (proj1 (fullMatch_iff_success_and_single
                                  after_focus_left) focus_trie Hb Hr)
                    focus_left) (conj Hs Hone)).
  - split; [exact Hs3|]. split; [exact Hm3|]. split; [exact Hn3|].
    exact (proj1 (proj2 (proj2 (proj2 (fullMatch_iff_success_and_single
                                         success_with_three))))
             Hs3 Hm3 Hn3).
Defined.

(** *** What [allMatches()] reports after [advance] *)

(** C3 fails in [NoMatch], where buffer and matches are both emptied
    although the empty buffer leads to the root, and in [RetainedMatch],
    where the matches are those of the buffer with the popped key press
    still in it. *)
Lemma allMatches_not_of_buffer :
  (currentState (fst (advance (new focus_trie) (KeyPress.just "x")))
   = NoMatch
   /\ ~ matches_follow_buffer (new focus_trie) (KeyPress.just "x"))
  /\ (currentState (fst (advance after_leader (KeyPress.shift_ "Shift")))
      = RetainedMatch
      /\ ~ matches_follow_buffer after_leader (KeyPress.shift_ "Shift")).
Proof.
  split; (split; [vm_compute; reflexivity|]); intros H;
    specialize (H (some focus_left)); apply proj2 in H;
    vm_compute in H; apply H; left; reflexivity.
Qed.

(** C3, amended.  After [advance], unless it returned [RetainedMatch]: in
    [NoMatch] the buffer and [allMatches()] are both empty; in every other
    state [allMatches()] is the list of leaf values below the node the
    buffer leads to, and empty when it leads to none. *)
Theorem allMatches_after_advance (m : t) (c : KeyPress.t)
  (Hnot_retained : snd (advance m c) <> RetainedMatch) :
  if KeyMatchingState.eqb (currentState (fst (advance m c))) NoMatch
  then currentSequence (fst (advance m c)) = []
       /\ allMatches (fst (advance m c)) = []
  else allMatches (fst (advance m c))
       = reachableFrom (trie (fst (advance m c)))
           (currentSequence (fst (advance m c))).
Proof.
  rewrite advance_returns_state in Hnot_retained.
  assert (Hstart : forall m0 : t,
             currentState m0 = NoMatch ->
             if KeyMatchingState.eqb (currentState (fst (advance m0 c))) NoMatch
             then currentSequence (fst (advance m0 c)) = []
                  /\ allMatches (fst (advance m0 c)) = []
             else allMatches (fst (advance m0 c))
                  = reachableFrom (trie (fst (advance m0 c)))
                      (currentSequence (fst (advance m0 c)))).
  { intros m0 Hs0. rewrite (advance_start _ c Hs0). unfold reachableFrom.
    destruct (Trie.bestMatch (trie m0) (currentSequence m0 ++ [c]))
      as [n|] eqn:Eb; cbn; [|auto].
    destruct (TrieNode.isLeaf n); cbn; rewrite Eb; reflexivity. }
  destruct (state_cases (currentState m)) as [Hs | [Hs | Hs]].
  - apply Hstart; assumption.
  - destruct (KeyPress.classification c) eqn:Ek.
    + rewrite (advance_noise _ c Hs Ek) in Hnot_retained. cbn in *.
      congruence.
    + rewrite (advance_continue m c Hs) by congruence.
      unfold reachableFrom.
      destruct (Trie.bestMatch (trie m) (currentSequence m ++ [c]))
        as [n|] eqn:Eb; cbn; [|rewrite Eb; reflexivity].
      destruct (TrieNode.isLeaf n); cbn; rewrite Eb; reflexivity.
    + rewrite (advance_continue m c Hs) by congruence.
      unfold reachableFrom.
      destruct (Trie.bestMatch (trie m) (currentSequence m ++ [c]))
        as [n|] eqn:Eb; cbn; [|rewrite Eb; reflexivity].
      destruct (TrieNode.isLeaf n); cbn; rewrite Eb; reflexivity.
  - rewrite (advance_restart m c Hs). apply Hstart. reflexivity.
Qed.

Lemma allMatches_after_advance_witness :
  snd (advance (new focus_trie) (KeyPress.ctrl_ "b")) <> RetainedMatch
  /\ allMatches (fst (advance (new focus_trie) (KeyPress.ctrl_ "b")))
     = reachableFrom
         (trie (fst (advance (new focus_trie) (KeyPress.ctrl_ "b"))))
         (currentSequence
            (fst (advance (new focus_trie) (KeyPress.ctrl_ "b")))).
Proof.
  assert (H : snd (advance (new focus_trie) (KeyPress.ctrl_ "b"))
              <> RetainedMatch) by (vm_compute; discriminate).
  split; [exact H|].
  exact (allMatches_after_advance (new focus_trie) (KeyPress.ctrl_ "b") H).
Defined.

End MatcherOverTrie.

(** ** Modifier noise inside a registered sequence *)

Module ModifierNoise.
Import KeyMatchingState KeyMatcher KeyMatcherSpec.
Import KeyMatcherFacts KeyMatcherClaims TrieSpec TrieFacts MatcherOverTrie.

(** Key presses that are not bare modifiers, fed to a match in progress
    whose buffer followed by them leads to a node [n]: the buffer grows by
    them and the state is decided by [n]. *)
Lemma feed_keys (xs : list KeyPress.t) :
  forall (m : t) (n : TrieNode.t KeyMap.t),
    in_progress (currentState m) -> Forall is_key xs -> xs <> [] ->
    Trie.bestMatch (trie m) (currentSequence m ++ xs) = Some n ->
    feed m xs =
      Build (trie m)
        (if TrieNode.isLeaf n then SuccessMatch else ImprovedMatch)
        (currentSequence m ++ xs) (TrieNode.leafValues n).
Proof.
  induction xs as [|x xs IH]; intros m n Hs HF Hne Hb; [congruence|].
  inversion HF as [|? ? Hx HF']; subst. rewrite feed_cons.
  rewrite (advance_continue m x Hs Hx).
  destruct xs as [|y ys].
  - rewrite Hb. reflexivity.
  - replace (currentSequence m ++ x :: y :: ys)
      with ((currentSequence m ++ [x]) ++ y :: ys) in *
      by (rewrite <- app_assoc; reflexivity).
    destruct (bestMatch_more _ _ _ _ Hb) as (n1 & E1 & Hl1).
    rewrite E1, Hl1.
    rewrite (IH _ n); cbn; auto.
    + right. right. reflexivity.
    + discriminate.
Qed.

Lemma feed_keys_partial (xs : list KeyPress.t) (m : t)
  (n : TrieNode.t KeyMap.t) :
  in_progress (currentState m) -> Forall is_key xs ->
  Trie.bestMatch (trie m) (currentSequence m ++ xs) = Some n ->
  TrieNode.isLeaf n = false ->
  in_progress (currentState (feed m xs))
  /\ currentSequence (feed m xs) = currentSequence m ++ xs
  /\ trie (feed m xs) = trie m.
Proof.
  intros Hs HF Hb Hl. destruct xs as [|x xs].
  - cbn. rewrite app_nil_r. auto.
  - rewrite feed_keys with (n := n); auto; [|discriminate].
    rewrite Hl. cbn. repeat split. right. right. reflexivity.
Qed.

(** Bare modifiers fed to a match in progress leave the buffer alone. *)
Lemma feed_noise (ns : list KeyPress.t) :
  forall m : t,
    in_progress (currentState m) -> Forall is_noise ns ->
    in_progress (currentState (feed m ns))
    /\ currentSequence (feed m ns) = currentSequence m
    /\ trie (feed m ns) = trie m.
Proof.
  induction ns as [|x ns IH]; intros m Hs HF; [cbn; auto|].
  inversion HF as [|? ? Hx HF']; subst. rewrite feed_cons.
  destruct (IH (fst (advance m x))) as (H1 & H2 & H3).
  - rewrite (advance_noise _ x Hs Hx). right. left. reflexivity.
  - assumption.
  - split; [assumption|]. rewrite H2, H3, (advance_noise _ x Hs Hx).
    split; reflexivity.
Qed.

(** The same with bare modifiers before every key press. *)
Lemma feed_with_noise (gaps : list (list KeyPress.t * KeyPress.t)) :
  forall (m : t) (n : TrieNode.t KeyMap.t),
    in_progress (currentState m) -> Forall noisy_gap gaps -> gaps <> [] ->
    Trie.bestMatch (trie m) (currentSequence m ++ map snd gaps) = Some n ->
    feed m (with_noise gaps) =
      Build (trie m)
        (if TrieNode.isLeaf n then SuccessMatch else ImprovedMatch)
        (currentSequence m ++ map snd gaps) (TrieNode.leafValues n).
Proof.
  induction gaps as [|[ns c] gaps IH]; intros m n Hs HF Hne Hb; [congruence|].
  inversion HF as [|? ? [Hns Hc] HF']; subst. cbn [fst snd] in *.
  unfold with_noise. cbn [flat_map fst snd]. fold (with_noise gaps).
  rewrite !feed_app.
  destruct (@feed_noise ns m Hs Hns) as (Hq1 & Hq2 & Hq3).
  change (feed (feed m ns) [c]) with (fst (advance (feed m ns) c)).
  rewrite (advance_continue (feed m ns) c Hq1 Hc), Hq2, Hq3.
  change (map snd ((ns, c) :: gaps)) with (c :: map snd gaps) in *.
  destruct gaps as [|g gaps'].
  - cbn [map] in *. rewrite Hb. reflexivity.
  - replace (currentSequence m ++ c :: map snd (g :: gaps'))
      with ((currentSequence m ++ [c]) ++ map snd (g :: gaps')) in *
      by (rewrite <- app_assoc; reflexivity).
    change (map snd (g :: gaps')) with (snd g :: map snd gaps') in Hb.
    destruct (bestMatch_more _ _ _ _ Hb) as (n1 & E1 & Hl1).
    rewrite E1, Hl1.
    rewrite IH with (n := n); cbn; auto.
    + right. right. reflexivity.
    + discriminate.
Qed.

(** Bare modifiers in every gap of a stored sequence at once. *)
Lemma noise_in_every_gap
  (tr : Trie.t KeyMap.t) (km : KeyMap.t) (first : KeyPress.t)
  (gaps : list (list KeyPress.t * KeyPress.t)) :
  built tr -> stored tr km ->
  KeyMap.sequence km = first :: map snd gaps ->
  Forall noisy_gap gaps ->
  feed (new tr) (first :: with_noise gaps)
  = Build tr SuccessMatch (KeyMap.sequence km) [some km].
Proof.
  intros Hbuilt (n & Hb & Hv) Hseq HF.
  pose proof (built_wf Hbuilt) as Hwf.
  change (components km) with (KeyMap.sequence km) in Hb.
  destruct (valued_node_is_leaf _ Hwf Hb Hv) as [Hleaf Hvals].
  rewrite Hseq in *. rewrite feed_cons, advance_start by reflexivity.
  cbn [new currentSequence trie app].
  destruct gaps as [|g gaps'].
  - cbn [map] in Hb. rewrite Hb, Hleaf, Hvals. reflexivity.
  - change (first :: map snd (g :: gaps'))
      with ([first] ++ snd g :: map snd gaps') in Hb.
    destruct (bestMatch_more _ _ _ _ Hb) as (n0 & E0 & Hl0).
    rewrite E0, Hl0. rewrite feed_with_noise with (n := n).
    + cbn. rewrite Hleaf, Hvals. reflexivity.
    + left. reflexivity.
    + assumption.
    + discriminate.
    + exact Hb.
Qed.

(** C4 fails for a binding with a bare modifier inside its sequence.
    [with_modifier_inside] is stored under [Ctrl+b, x, Shift, y]; with one
    bare [Shift] put in between [Ctrl+b] and [x], neither of them a bare
    modifier, the matcher drops both [Shift]s from its buffer, looks up
    [Ctrl+b, x, y] and ends in [InvalidMatch] with [fullMatch()] returning
    [null]. *)
Lemma modifier_inside_binding_derails :
  built modifier_trie /\ stored modifier_trie with_modifier_inside
  /\ KeyMap.sequence with_modifier_inside
     = [KeyPress.ctrl_ "b"]
       ++ [KeyPress.just "x"; KeyPress.shift_ "Shift"; KeyPress.just "y"]
  /\ is_key (KeyPress.ctrl_ "b") /\ is_key (KeyPress.just "x")
  /\ Forall is_noise [KeyPress.shift_ "Shift"]
  /\ currentState
       (feed (new modifier_trie)
          ([KeyPress.ctrl_ "b"] ++ [KeyPress.shift_ "Shift"]
           ++ [KeyPress.just "x"; KeyPress.shift_ "Shift"; KeyPress.just "y"]))
     = InvalidMatch
  /\ fst (fullMatch
            (feed (new modifier_trie)
               ([KeyPress.ctrl_ "b"] ++ [KeyPress.shift_ "Shift"]
                ++ [KeyPress.just "x"; KeyPress.shift_ "Shift";
                    KeyPress.just "y"])))
     = null
  /\ ~ noise_is_ignored modifier_trie with_modifier_inside
        [KeyPress.ctrl_ "b"] [KeyPress.shift_ "Shift"]
        [KeyPress.just "x"; KeyPress.shift_ "Shift"; KeyPress.just "y"].
Proof.
  split; [apply load_built|].
  split; [eexists; split; vm_compute; reflexivity|].
  split; [reflexivity|].
  split; [vm_compute; discriminate|].
  split; [vm_compute; discriminate|].
  split; [repeat constructor|].
  split; [vm_compute; reflexivity|].
  split; [vm_compute; reflexivity|].
  intros [Hs _]. vm_compute in Hs. discriminate.
Qed.

(** C4, amended.  Take a binding stored in a trie built by [add] whose key
    presses after the first are not bare modifiers, and cut its sequence
    between two consecutive key presses.  Feeding a new matcher the sequence with
    any bare modifiers put in at the cut leaves the matcher exactly where
    feeding the sequence alone leaves it: in [SuccessMatch], with
    [fullMatch()] returning the binding. *)
Theorem modifier_noise_is_ignored
  (tr : Trie.t KeyMap.t) (km : KeyMap.t)
  (before after noise : list KeyPress.t)
  (Hbuilt : built tr) (Hstored : stored tr km)
  (Hcut : KeyMap.sequence km = before ++ after)
  (Hbefore : before <> []) (Hafter : after <> [])
  (Hkeys : Forall is_key (tl (KeyMap.sequence km)))
  (Hnoise : Forall is_noise noise) :
  feed (new tr) (before ++ noise ++ after) = feed (new tr) (KeyMap.sequence km)
  /\ currentState (feed (new tr) (before ++ noise ++ after)) = SuccessMatch
  /\ fst (fullMatch (feed (new tr) (before ++ noise ++ after))) = some km.
Proof.
  pose proof (built_wf Hbuilt) as Hwf.
  destruct Hstored as (n & Hb & Hv). change (components km) with (KeyMap.sequence km) in Hb.
  destruct (valued_node_is_leaf _ Hwf Hb Hv) as [Hleaf Hvals].
  destruct before as [|c1 pre]; [congruence|]. clear Hbefore.
  rewrite Hcut in *. cbn [tl app] in Hkeys.
  apply Forall_app in Hkeys. destruct Hkeys as [Hpre Hpost].
  (* the first key press starts the match *)
  assert (H1 : exists n1,
             Trie.bestMatch tr ([c1] ++ pre) = Some n1
             /\ TrieNode.isLeaf n1 = false).
  { destruct after as [|a after']; [congruence|].
    exact (bestMatch_more _ _ _ _ Hb). }
  destruct H1 as (n1 & Hb1 & Hl1).
  assert (H0 : exists n0,
             fst (advance (new tr) c1)
             = Build tr StartedMatch [c1] (TrieNode.leafValues n0)).
  { rewrite advance_start by reflexivity. cbn [new currentSequence trie app].
    destruct pre as [|p pre'].
    - exists n1. cbn [app] in Hb1. rewrite Hb1, Hl1. reflexivity.
    - destruct (bestMatch_more _ _ _ _ Hb1) as (n0 & Hb0 & Hl0).
      exists n0. rewrite Hb0, Hl0. reflexivity. }
  destruct H0 as (n0 & E0).
  assert (Hs0 : in_progress (currentState (fst (advance (new tr) c1))))
    by (rewrite E0; left; reflexivity).
  (* the sequence alone *)
  assert (Halone : feed (new tr) ((c1 :: pre) ++ after)
                   = Build tr SuccessMatch ((c1 :: pre) ++ after) [some km]).
  { cbn [app]. rewrite feed_cons.
    rewrite feed_keys with (n := n).
    - rewrite E0. cbn. rewrite Hleaf, Hvals. reflexivity.
    - exact Hs0.
    - apply Forall_app. auto.
    - destruct pre; [assumption|discriminate].
    - rewrite E0. exact Hb. }
  (* the sequence with the noise *)
  assert (Hnoisy : feed (new tr) ((c1 :: pre) ++ noise ++ after)
                   = Build tr SuccessMatch ((c1 :: pre) ++ after) [some km]).
  { cbn [app]. rewrite feed_cons, !feed_app.
    destruct (@feed_keys_partial pre (fst (advance (new tr) c1)) n1)
      as (Hp1 & Hp2 & Hp3); auto.
    { rewrite E0. assumption. }
    destruct (@feed_noise noise (feed (fst (advance (new tr) c1)) pre))
      as (Hq1 & Hq2 & Hq3); auto.
    rewrite feed_keys with (n := n).
    - rewrite Hq2, Hq3, Hp2, Hp3, E0, Hleaf, Hvals. reflexivity.
    - exact Hq1.
    - exact Hpost.
    - exact Hafter.
    - rewrite Hq2, Hq3, Hp2, Hp3, E0. exact Hb. }
  rewrite Hnoisy, Halone. repeat split.
Qed.

Lemma modifier_noise_is_ignored_witness :
  built focus_trie /\ stored focus_trie focus_bottom
  /\ fst (fullMatch
            (feed (new focus_trie)
               ([KeyPress.ctrl_ "b"]
                ++ [KeyPress.shift_ "Shift"; KeyPress.just "Control"]
                ++ [KeyPress.just "j"])))
     = some focus_bottom.
Proof.
  split; [apply load_built|].
  split; [eexists; split; vm_compute; reflexivity|].
  refine (proj2 (proj2
    (modifier_noise_is_ignored
       (tr := focus_trie) (km := focus_bottom)
       (before := [KeyPress.ctrl_ "b"]) (after := [KeyPress.just "j"])
       (noise := [KeyPress.shift_ "Shift"; KeyPress.just "Control"])
       _ _ _ _ _ _ _))).
  - apply load_built.
  - eexists. split; vm_compute; reflexivity.
  - reflexivity.
  - discriminate.
  - discriminate.
  - repeat constructor; vm_compute; discriminate.
  - repeat constructor; vm_compute; reflexivity.
Defined.

End ModifierNoise.

(** ** Conflicting bindings *)

Module TrieClaims.
Import LeaderHotkeysPlugin TrieSpec TrieFacts.

(** C1, at the failing input.  [focus_left] is stored under [Ctrl+b, h].
    Adding a binding for [Ctrl+b, h, x], which has that sequence as a
    proper prefix, returns without throwing; afterwards the node of
    [Ctrl+b, h] holds [null], [focus_left] is no longer stored and the only
    leaf value of the trie is the new binding. *)
Theorem add_longer_sequence_erases_binding :
  stored (load [focus_left]) focus_left
  /\ snd (Trie.add (load [focus_left]) longer_than_focus_left) = Returned
  /\ ~ stored (fst (Trie.add (load [focus_left]) longer_than_focus_left))
        focus_left
  /\ option_map TrieNode.value
       (Trie.bestMatch
          (fst (Trie.add (load [focus_left]) longer_than_focus_left))
          (KeyMap.sequence focus_left)) = Some null
  /\ TrieNode.leafValues
       (Trie.root (fst (Trie.add (load [focus_left]) longer_than_focus_left)))
     = [some longer_than_focus_left].
Proof.
  split; [|split; [|split; [|split]]].
  - eexists. split; vm_compute; reflexivity.
  - vm_compute. reflexivity.
  - intros (n & Hb & Hv). vm_compute in Hb. injection Hb as <-.
    discriminate Hv.
  - vm_compute. reflexivity.
  - vm_compute. reflexivity.
Qed.

(** The conflicts that [add] rejects, on the bindings of the example: the
    same sequence again, and a proper prefix of a stored sequence. *)
Example add_same_sequence_throws :
  Trie.add focus_trie (KeyMap.Build "again" (KeyMap.sequence focus_left))
  = (focus_trie, Thrown "Duplicate keymap").
Proof.
  apply add_prefix_of_stored_throws with (old := focus_left) (rest := []).
  - apply built_wf, MatcherOverTrie.load_built.
  - eexists. split; vm_compute; reflexivity.
  - reflexivity.
Qed.

Example add_prefix_throws :
  Trie.add focus_trie (KeyMap.Build "leader" [KeyPress.ctrl_ "b"])
  = (focus_trie, Thrown "Duplicate keymap").
Proof.
  apply add_prefix_of_stored_throws
    with (old := focus_left) (rest := [KeyPress.just "h"]).
  - apply built_wf, MatcherOverTrie.load_built.
  - eexists. split; vm_compute; reflexivity.
  - reflexivity.
Qed.

(** The default bindings load without a conflict. *)
Example defaultHotkeys_load :
  snd (add_all Trie.new defaultHotkeys) = Returned.
Proof. vm_compute. reflexivity. Qed.

End TrieClaims.

(** ** The scenarios of the example bindings *)

Module Scenarios.
Import KeyMatchingState KeyMatcher KeyMatcherSpec.

Example leader_starts_a_match :
  trace (new focus_trie) [KeyPress.ctrl_ "b"] = [StartedMatch]
  /\ allMatches after_leader
     = [some focus_left; some focus_bottom; some focus_top].
Proof. split; vm_compute; reflexivity. Qed.

Example leader_then_h_succeeds :
  trace (new focus_trie) [KeyPress.ctrl_ "b"; KeyPress.just "h"]
  = [StartedMatch; SuccessMatch]
  /\ fst (fullMatch after_focus_left) = some focus_left.
Proof. split; vm_compute; reflexivity. Qed.

Example leader_then_unknown_is_invalid :
  trace (new focus_trie) [KeyPress.ctrl_ "b"; KeyPress.just "x"]
  = [StartedMatch; InvalidMatch].
Proof. vm_compute. reflexivity. Qed.

Example leader_shift_j_succeeds :
  trace (new focus_trie)
    [KeyPress.ctrl_ "b"; KeyPress.shift_ "Shift"; KeyPress.just "j"]
  = [StartedMatch; RetainedMatch; SuccessMatch]
  /\ fst (fullMatch
            (feed (new focus_trie)
               [KeyPress.ctrl_ "b"; KeyPress.shift_ "Shift";
                KeyPress.just "j"]))
     = some focus_bottom.
Proof. split; vm_compute; reflexivity. Qed.

(** A key press after a full match starts over: an unknown key leaves the
    matcher idle and the event unprevented. *)
Example key_after_success_passes_through :
  LeaderHotkeysPlugin.defaultPrevented
    (snd (LeaderHotkeysPlugin.handleKeyDown after_focus_left
            (LeaderHotkeysPlugin.Event "x" false false false false)))
  = false.
Proof. vm_compute. reflexivity. Qed.

End Scenarios.

(** * Further properties of the code *)

(** ** The trie: what [add] stores, rejects and leaves alone *)

Module TrieMore.
Import TrieNode TrieSpec TrieFacts TrieLookupSpec.

Section Nodes.
Context {T : Type}.

#[local] Abbreviation node := (TrieNode.t T).
#[local] Abbreviation kids := (list (string * TrieNode.t T)).

(** Induction on a node with the property assumed of its children. *)
Lemma node_induction (P : node -> Prop) :
  (forall v cs, Forall (fun kc => P (snd kc)) cs -> P (Node v cs)) ->
  forall n, P n.
Proof.
  intros H.
  refine (fix IH (n : node) : P n :=
            match n with
            | Node v cs =>
                H v cs
                  ((fix go (l : kids) : Forall (fun kc => P (snd kc)) l :=
                      match l with
                      | [] => Forall_nil _
                      | kc :: rest => Forall_cons kc (IH (snd kc)) (go rest)
                      end) cs)
            end).
Qed.

Lemma map_get_set_other (cs : kids) (k k' : string) (c : node) :
  k <> k' -> map_get (map_set cs k c) k' = map_get cs k'.
Proof.
  intros Hne. induction cs as [|[k0 c0] cs IH]; cbn.
  - destruct (String.eqb_spec k k'); [contradiction|reflexivity].
  - destruct (String.eqb_spec k0 k) as [->|Hk]; cbn.
    + destruct (String.eqb_spec k k'); [contradiction|reflexivity].
    + destruct (String.eqb k0 k'); [reflexivity|exact IH].
Qed.

Lemma map_get_In (cs : kids) (k : string) (c : node) :
  map_get cs k = Some c -> In (k, c) cs.
Proof.
  induction cs as [|[k0 c0] cs IH]; cbn; [discriminate|].
  destruct (String.eqb_spec k0 k) as [->|Hk].
  - intros [= ->]. left. reflexivity.
  - intros Hg. right. auto.
Qed.

Lemma map_set_Forall_keyed (P : string -> node -> Prop) (cs : kids)
  (k : string) (c : node) :
  Forall (fun kc => P (fst kc) (snd kc)) cs -> P k c ->
  Forall (fun kc => P (fst kc) (snd kc)) (map_set cs k c).
Proof.
  induction cs as [|[k0 c0] cs IH]; cbn; intros HF Hc.
  - constructor; [assumption|constructor].
  - inversion HF; subst. destruct (String.eqb_spec k0 k) as [->|Hk];
      constructor; auto.
Qed.

(** [leaves()] is never empty: every node has a leaf below it or is one. *)
Lemma leaves_nonempty (n : node) : leaves n <> [].
Proof.
  induction n as [v cs IH] using node_induction.
  destruct cs as [|[k c] cs]; cbn; [discriminate|].
  inversion IH as [|? ? Hc _]; subst. cbn in Hc.
  destruct (leaves c); [congruence|discriminate].
Qed.

Lemma leaves_inner (v : Optional T) (cs : kids) :
  cs <> [] -> leaves (Node v cs) = flat_map (fun kc => leaves (snd kc)) cs.
Proof. destruct cs; [congruence|reflexivity]. Qed.

Lemma wf_node_leafValues (n : node) :
  wf_node n -> Forall (fun v => exists x, v = some x) (leafValues n).
Proof.
  induction n as [v cs IH] using node_induction. intros Hwf.
  inversion Hwf as [x | cs' Hne HF]; subst.
  - cbn. constructor; [eexists; reflexivity|constructor].
  - unfold leafValues. rewrite leaves_inner by assumption.
    clear Hne Hwf. induction cs as [|[k c] cs IHcs]; cbn; [constructor|].
    inversion IH; subst. inversion HF; subst. cbn in *.
    rewrite map_app. apply Forall_app. split; [|auto].
    apply H1. assumption.
Qed.

End Nodes.

Section Tries.
Context {T C : Type} {HC : Hashable C} {HI : HashIter T C}.

#[local] Abbreviation tnode := (TrieNode.t T).

Lemma add_from_completion (keys : list string) (composite : T) :
  forall n : tnode,
    snd (Trie.add_from n keys composite) = Returned
    \/ snd (Trie.add_from n keys composite) = Thrown "Duplicate keymap".
Proof.
  induction keys as [|k keys IH]; intros n; cbn.
  - destruct (is_defined (value n)); cbn; auto.
  - match goal with
    | |- context [Trie.add_from ?c keys composite] =>
        specialize (IH c); destruct (Trie.add_from c keys composite)
    end.
    exact IH.
Qed.

Lemma add_from_throws_iff (keys : list string) (composite : T) :
  forall n : tnode,
    snd (Trie.add_from n keys composite) = Thrown "Duplicate keymap"
    <-> exists n', Trie.bestMatch_from n keys = Some n'
                   /\ value n' <> undefined.
Proof.
  induction keys as [|k keys IH]; intros n; cbn.
  - destruct (value n) eqn:Ev; cbn; split; try reflexivity; try discriminate.
    + intros (n' & [= <-] & Hv). congruence.
    + intros _. exists n. rewrite Ev. split; [reflexivity|discriminate].
    + intros _. exists n. rewrite Ev. split; [reflexivity|discriminate].
  - destruct (child n k) as [c|] eqn:Ec.
    + specialize (IH c).
      destruct (Trie.add_from c keys composite) as [c' r]. exact IH.
    + destruct (add_from_new keys composite) as (n' & Ea & _).
      rewrite Ea. cbn. split; [discriminate|].
      intros (n'' & Hb & _). discriminate.
Qed.

(** X1. [add] throws, with the message "Duplicate keymap", exactly when the
    walk along the new sequence ends on a node that is already in the trie
    and whose value is not [undefined]; in every other case it returns. *)
Theorem add_throws_iff (tr : Trie.t T) (composite : T) :
  (snd (Trie.add tr composite) = Thrown "Duplicate keymap"
   <-> exists n, Trie.bestMatch tr (components composite) = Some n
                 /\ value n <> undefined)
  /\ (snd (Trie.add tr composite) = Returned
      <-> ~ exists n, Trie.bestMatch tr (components composite) = Some n
                      /\ value n <> undefined).
Proof.
  unfold Trie.add, Trie.bestMatch.
  pose proof (add_from_throws_iff (map serialize (components composite))
                composite (Trie.root tr)) as H.
  pose proof (add_from_completion (map serialize (components composite))
                composite (Trie.root tr)) as Hc.
  destruct (Trie.add_from (Trie.root tr)
              (map serialize (components composite)) composite) as [r c].
  cbn in *. split; [exact H|]. split.
  - intros -> Hex. apply H in Hex. discriminate.
  - intros Hn. destruct Hc as [Hc|Hc]; [assumption|].
    exfalso. apply Hn. apply H. assumption.
Qed.

Lemma add_from_stores (keys : list string) (composite : T) :
  forall n : tnode,
    wf_root n ->
    snd (Trie.add_from n keys composite) = Returned ->
    exists leaf,
      Trie.bestMatch_from (fst (Trie.add_from n keys composite)) keys
      = Some leaf
      /\ value leaf = some composite /\ isLeaf leaf = true.
Proof.
  induction keys as [|k keys IH]; intros n Hwf; cbn.
  - destruct (is_defined (value n)) eqn:Ed; cbn; [discriminate|]. intros _.
    eexists. split; [reflexivity|]. split; [reflexivity|].
    unfold isLeaf. cbn. destruct Hwf as [Hnull _].
    destruct (children n); [reflexivity|].
    rewrite Hnull in Ed by discriminate. discriminate.
  - assert (Hc : wf_root match child n k with Some c => c | None => new end).
    { destruct (child n k) as [c|] eqn:Ec.
      - apply wf_node_root. eapply wf_root_child; eassumption.
      - split; cbn; [congruence|constructor]. }
    specialize (IH _ Hc).
    destruct (Trie.add_from match child n k with Some c => c | None => new end
                keys composite) as [c' r]. cbn in *.
    intros Hr. destruct (IH Hr) as (leaf & Hb & Hv & Hl).
    exists leaf. unfold child. cbn. rewrite map_get_set_same. auto.
Qed.

(** X2. Insert then look up: when [add] returns on a trie built by [add],
    the walk along the new binding's sequence ends on a leaf that carries
    the binding. *)
Theorem add_then_bestMatch (tr : Trie.t T) (composite : T)
  (Hbuilt : built tr)
  (Hreturned : snd (Trie.add tr composite) = Returned) :
  exists leaf,
    Trie.bestMatch (fst (Trie.add tr composite)) (components composite)
    = Some leaf
    /\ value leaf = some composite /\ isLeaf leaf = true.
Proof.
  pose proof (built_wf Hbuilt) as Hwf. unfold wf in Hwf.
  unfold Trie.add, Trie.bestMatch in *.
  pose proof (add_from_stores (map serialize (components composite))
                composite Hwf) as H.
  destruct (Trie.add_from (Trie.root tr)
              (map serialize (components composite)) composite) as [r c].
  cbn in *. auto.
Qed.

(** X3. A call of [add] that throws has changed nothing in a trie built by
    [add]. *)
Theorem add_thrown_unchanged (tr : Trie.t T) (composite : T)
  (Hbuilt : built tr)
  (Hthrown : snd (Trie.add tr composite) <> Returned) :
  fst (Trie.add tr composite) = tr.
Proof.
  pose proof (built_wf Hbuilt) as Hwf. unfold wf in Hwf.
  unfold Trie.add in *.
  destruct (add_from_wf_root (map serialize (components composite))
              composite Hwf) as (_ & _ & Hsame).
  destruct (Trie.add_from (Trie.root tr)
              (map serialize (components composite)) composite) as [r c].
  cbn in *. rewrite Hsame by assumption. destruct tr. reflexivity.
Qed.

Lemma bestMatch_from_addChild (n c' : tnode) (k o : string)
  (other : list string) :
  Trie.bestMatch_from (addChild n k c') (o :: other)
  = if String.eqb k o then Trie.bestMatch_from c' other
    else Trie.bestMatch_from n (o :: other).
Proof.
  cbn. unfold child. cbn.
  destruct (String.eqb_spec k o) as [<-|Hne].
  - rewrite map_get_set_same. reflexivity.
  - rewrite map_get_set_other by assumption. reflexivity.
Qed.

Lemma add_from_frame (keys : list string) (composite : T) :
  forall (n : tnode) (other : list string),
    ~ is_prefix other keys ->
    Trie.bestMatch_from (fst (Trie.add_from n keys composite)) other
    = Trie.bestMatch_from n other.
Proof.
  induction keys as [|k keys IH]; intros n other Hnp.
  - destruct other as [|o other]; [exfalso; apply Hnp; exists []; reflexivity|].
    cbn. destruct (is_defined (value n)); reflexivity.
  - destruct other as [|o other];
      [exfalso; apply Hnp; exists (k :: keys); reflexivity|].
    cbn [Trie.add_from].
    destruct (child n k) as [c|] eqn:Ec.
    + pose proof (IH c other) as Hf.
      destruct (Trie.add_from c keys composite) as [c' r]. cbn [fst] in *.
      rewrite bestMatch_from_addChild.
      destruct (String.eqb_spec k o) as [<-|Hne]; [|reflexivity].
      rewrite Hf.
      * cbn. rewrite Ec. reflexivity.
      * intros [rest ->]. apply Hnp. exists rest. reflexivity.
    + pose proof (IH new other) as Hf.
      destruct (Trie.add_from new keys composite) as [c' r]. cbn [fst] in *.
      rewrite bestMatch_from_addChild.
      destruct (String.eqb_spec k o) as [<-|Hne]; [|reflexivity].
      assert (Hnp' : ~ is_prefix other keys).
      { intros [rest ->]. apply Hnp. exists rest. reflexivity. }
      rewrite Hf by assumption. cbn. rewrite Ec.
      destruct other as [|o' other'];
        [exfalso; apply Hnp'; exists keys; reflexivity|reflexivity].
Qed.

(** X4. [add] leaves every other lookup alone: whether it returns or throws,
    a walk along a key sequence that is not a prefix of the new binding's
    sequence ends on the same node as before, so a binding stored there is
    still stored. *)
Theorem add_frame (tr : Trie.t T) (composite : T) (other : list C)
  (Hother : ~ is_prefix (map serialize other) (keys_of composite)) :
  Trie.bestMatch (fst (Trie.add tr composite)) other
  = Trie.bestMatch tr other.
Proof.
  unfold Trie.add, Trie.bestMatch, keys_of in *.
  pose proof (add_from_frame composite (Trie.root tr) Hother) as H.
  destruct (Trie.add_from (Trie.root tr)
              (map serialize (components composite)) composite) as [r c].
  exact H.
Qed.

Lemma add_from_path (keys : list string) (composite : T) :
  forall n : tnode,
  exists n',
    Trie.bestMatch_from (fst (Trie.add_from n keys composite)) keys = Some n'.
Proof.
  induction keys as [|k keys IH]; intros n; cbn.
  - destruct (is_defined (value n)); eexists; reflexivity.
  - destruct (IH match child n k with Some c => c | None => new end)
      as (n' & Hb).
    destruct (Trie.add_from match child n k with Some c => c | None => new end
                keys composite) as [c' r].
    cbn in *. exists n'. unfold child. cbn. rewrite map_get_set_same.
    exact Hb.
Qed.

Lemma contains_prefix_closed (tr : Trie.t T) (xs ys : list C) :
  Trie.contains tr (xs ++ ys) = true -> Trie.contains tr xs = true.
Proof.
  unfold Trie.contains. rewrite bestMatch_app.
  destruct (Trie.bestMatch tr xs); [reflexivity|discriminate].
Qed.

(** X5. After [add], whether it returned or threw, the trie contains the
    binding's sequence and every prefix of it; and in any trie the
    sequences [contains] accepts are closed under taking prefixes. *)
Theorem add_then_contains (tr : Trie.t T) (composite : T) (xs ys : list C)
  (Hsplit : components composite = xs ++ ys) :
  Trie.contains (fst (Trie.add tr composite)) xs = true
  /\ (forall (tr' : Trie.t T) (us vs : list C),
         Trie.contains tr' (us ++ vs) = true -> Trie.contains tr' us = true).
Proof.
  split; [|intros tr' us vs; apply contains_prefix_closed].
  apply contains_prefix_closed with (ys := ys). rewrite <- Hsplit.
  unfold Trie.contains, Trie.bestMatch, Trie.add.
  destruct (add_from_path (map serialize (components composite)) composite
              (Trie.root tr)) as (n' & Hb).
  destruct (Trie.add_from (Trie.root tr)
              (map serialize (components composite)) composite) as [r c].
  cbn in *. rewrite Hb. reflexivity.
Qed.

Lemma bestMatch_from_leaf_value (keys : list string) :
  forall n leaf : tnode,
    Trie.bestMatch_from n keys = Some leaf -> isLeaf leaf = true ->
    In (value leaf) (leafValues n).
Proof.
  induction keys as [|k keys IH]; intros n leaf; cbn.
  - intros [= <-] Hl. rewrite leaf_leafValues by assumption. left. reflexivity.
  - destruct (child n k) as [c|] eqn:Ec; [|discriminate]. intros Hb Hl.
    specialize (IH c leaf Hb Hl).
    destruct n as [v cs]. unfold child in Ec. cbn in Ec.
    unfold leafValues. rewrite leaves_inner
      by (eapply map_get_nonempty; eassumption).
    apply in_map_iff. unfold leafValues in IH. apply in_map_iff in IH.
    destruct IH as (l & Hv & Hin). exists l. split; [assumption|].
    apply in_flat_map. exists (k, c). split; [|assumption].
    apply map_get_In. assumption.
Qed.

(** Every binding stored in a trie built by [add] is among the leaf values
    below each node on its way. *)
Lemma stored_in_leafValues (tr : Trie.t T) (composite : T) (xs ys : list C)
  (Hbuilt : built tr) (Hstored : stored tr composite)
  (Hsplit : components composite = xs ++ ys) :
  exists n, Trie.bestMatch tr xs = Some n
            /\ In (some composite) (leafValues n).
Proof.
  destruct Hstored as (leaf & Hb & Hv).
  destruct (valued_node_is_leaf _ (built_wf Hbuilt) Hb Hv) as [Hl _].
  rewrite Hsplit, bestMatch_app in Hb.
  destruct (Trie.bestMatch tr xs) as [n|]; [|discriminate].
  exists n. split; [reflexivity|]. rewrite <- Hv.
  eapply bestMatch_from_leaf_value; eassumption.
Qed.

Lemma on_path_new (path : list string) : on_path path (new : tnode).
Proof. constructor; [discriminate|constructor]. Qed.

Lemma on_path_child (path : list string) (n c : tnode) (k : string) :
  on_path path n -> child n k = Some c -> on_path (path ++ [k]) c.
Proof.
  intros Hp Hc. inversion Hp as [p v cs Hv HF]; subst.
  unfold child in Hc. cbn in Hc. apply map_get_In in Hc.
  rewrite Forall_forall in HF. exact (HF _ Hc).
Qed.

Lemma add_from_on_path (keys : list string) (composite : T) :
  forall (path : list string) (n : tnode),
    on_path path n -> keys_of composite = path ++ keys ->
    on_path path (fst (Trie.add_from n keys composite)).
Proof.
  induction keys as [|k keys IH]; intros path n Hp Hk.
  - cbn. destruct (is_defined (value n)); cbn; [assumption|].
    inversion Hp as [p v cs Hv HF]; subst. cbn. constructor; [|assumption].
    intros x [= <-]. rewrite Hk, app_nil_r. reflexivity.
  - cbn [Trie.add_from].
    assert (Hc : on_path (path ++ [k])
                   match child n k with Some c => c | None => new end).
    { destruct (child n k) as [c|] eqn:Ec;
        [eapply on_path_child; eassumption | apply on_path_new]. }
    pose proof (IH (path ++ [k]) _ Hc) as Hc'.
    destruct (Trie.add_from match child n k with Some c => c | None => new end
                keys composite) as [c' r]. cbn [fst] in *.
    inversion Hp as [p v cs Hv HF]; subst. unfold addChild. cbn.
    constructor; [discriminate|].
    apply (map_set_Forall_keyed (fun k0 c0 => on_path (path ++ [k0]) c0));
      [assumption|].
    apply Hc'. rewrite Hk, <- app_assoc. reflexivity.
Qed.

Lemma built_on_path (tr : Trie.t T) : built tr -> on_path [] (Trie.root tr).
Proof.
  induction 1 as [|tr composite _ IH].
  - apply on_path_new.
  - unfold Trie.add.
    pose proof (add_from_on_path (map serialize (components composite))
                  composite IH eq_refl) as H.
    destruct (Trie.add_from (Trie.root tr)
                (map serialize (components composite)) composite). exact H.
Qed.

Lemma bestMatch_from_on_path (keys : list string) :
  forall (path : list string) (n n' : tnode),
    on_path path n -> Trie.bestMatch_from n keys = Some n' ->
    on_path (path ++ keys) n'.
Proof.
  induction keys as [|k keys IH]; intros path n n' Hp; cbn.
  - intros [= <-]. rewrite app_nil_r. assumption.
  - destruct (child n k) as [c|] eqn:Ec; [|discriminate]. intros Hb.
    replace (path ++ k :: keys) with ((path ++ [k]) ++ keys)
      by (rewrite <- app_assoc; reflexivity).
    eapply IH; [|eassumption]. eapply on_path_child; eassumption.
Qed.

Lemma on_path_leafValues (n : tnode) :
  forall (path : list string) (x : T),
    on_path path n -> In (some x) (leafValues n) ->
    is_prefix path (keys_of x).
Proof.
  induction n as [v cs IH] using node_induction. intros path x Hp Hin.
  inversion Hp as [p v' cs' Hv HF]; subst.
  destruct cs as [|kc cs'].
  - cbn in Hin. destruct Hin as [Hin|[]]. exists []. rewrite app_nil_r.
    apply Hv. assumption.
  - unfold leafValues in Hin. rewrite leaves_inner in Hin by discriminate.
    apply in_map_iff in Hin. destruct Hin as (l & Hl & Hin).
    apply in_flat_map in Hin. destruct Hin as ([k c] & Hkc & Hin).
    rewrite Forall_forall in IH, HF.
    destruct (IH _ Hkc (path ++ [k]) x (HF _ Hkc)) as [rest Hrest].
    + apply in_map_iff. exists l. auto.
    + exists (k :: rest). rewrite Hrest, <- app_assoc. reflexivity.
Qed.

(** In a trie built by [add], every binding among the leaf values below the
    node a buffer leads to has a key sequence that begins with the buffer's
    keys. *)
Lemma leafValues_extend_buffer (tr : Trie.t T) (buffer : list C)
  (n : tnode) (x : T)
  (Hbuilt : built tr)
  (Hnode : Trie.bestMatch tr buffer = Some n)
  (Hin : In (some x) (leafValues n)) :
  is_prefix (map serialize buffer) (keys_of x).
Proof.
  pose proof (bestMatch_from_on_path _ (built_on_path Hbuilt) Hnode) as Hp.
  cbn in Hp. eapply on_path_leafValues; eassumption.
Qed.

(** Below a node other than the root of a trie built by [add], every leaf
    value is a binding, never [undefined] or [null]. *)
Lemma leafValues_are_bindings (tr : Trie.t T) (buffer : list C) (n : tnode)
  (Hbuilt : built tr) (Hbuffer : buffer <> [])
  (Hnode : Trie.bestMatch tr buffer = Some n) :
  Forall is_binding (leafValues n).
Proof.
  destruct (bestMatch_from_wf_root _ (built_wf Hbuilt) Hnode) as [_ Hn].
  apply wf_node_leafValues. apply Hn.
  destruct buffer; [congruence|discriminate].
Qed.

(** X6. The leaf values below the node a non-empty buffer leads to, in a
    trie built by [add]: there is at least one, each is a binding (never
    [undefined] or [null]) whose key sequence begins with the buffer's keys,
    and every stored binding whose sequence begins with the buffer is among
    them. *)
Theorem leafValues_of_built_trie (tr : Trie.t T) (buffer : list C)
  (n : tnode)
  (Hbuilt : built tr) (Hbuffer : buffer <> [])
  (Hnode : Trie.bestMatch tr buffer = Some n) :
  leafValues n <> []
  /\ Forall (fun v => exists x,
                 v = some x /\ is_prefix (map serialize buffer) (keys_of x))
       (leafValues n)
  /\ (forall composite rest,
         stored tr composite -> components composite = buffer ++ rest ->
         In (some composite) (leafValues n)).
Proof.
  split; [|split].
  - unfold leafValues. intros E. apply map_eq_nil in E.
    exact (leaves_nonempty n E).
  - pose proof (leafValues_are_bindings Hbuilt Hbuffer Hnode) as HF.
    rewrite Forall_forall in *. intros v Hin.
    destruct (HF v Hin) as [x ->]. exists x. split; [reflexivity|].
    eapply leafValues_extend_buffer; eassumption.
  - intros composite rest Hst Hseq.
    destruct (stored_in_leafValues buffer rest Hbuilt Hst Hseq)
      as (n' & Hb' & Hin).
    congruence.
Qed.

End Tries.

Lemma leafValues_of_built_trie_witness :
  built focus_trie /\ [KeyPress.ctrl_ "b"] <> []
  /\ In (some focus_bottom)
       (leafValues
          (Node null
             [("h", Node (some focus_left) []);
              ("j", Node (some focus_bottom) []);
              ("k", Node (some focus_top) [])])).
Proof.
  assert (Hb : built focus_trie) by apply MatcherOverTrie.load_built.
  assert (Hne : [KeyPress.ctrl_ "b"] <> []) by discriminate.
  split; [exact Hb|]. split; [exact Hne|].
  refine (proj2 (proj2 (@leafValues_of_built_trie KeyMap.t KeyPress.t _ _
                          focus_trie [KeyPress.ctrl_ "b"] _ Hb Hne _))
            focus_bottom [KeyPress.just "j"] _ _).
  - vm_compute. reflexivity.
  - eexists. split; vm_compute; reflexivity.
  - reflexivity.
Defined.

Lemma add_then_bestMatch_witness :
  built focus_trie
  /\ snd (Trie.add focus_trie
            (KeyMap.Build "focus-right"
               [KeyPress.ctrl_ "b"; KeyPress.just "l"])) = Returned
  /\ exists leaf,
       Trie.bestMatch
         (fst (Trie.add focus_trie
                 (KeyMap.Build "focus-right"
                    [KeyPress.ctrl_ "b"; KeyPress.just "l"])))
         [KeyPress.ctrl_ "b"; KeyPress.just "l"]
       = Some leaf
       /\ value leaf
          = some (KeyMap.Build "focus-right"
                    [KeyPress.ctrl_ "b"; KeyPress.just "l"])
       /\ isLeaf leaf = true.
Proof.
  assert (Hb : built focus_trie) by apply MatcherOverTrie.load_built.
  assert (Hr : snd (Trie.add focus_trie
                      (KeyMap.Build "focus-right"
                         [KeyPress.ctrl_ "b"; KeyPress.just "l"])) = Returned)
    by (vm_compute; reflexivity).
  split; [exact Hb|]. split; [exact Hr|].
  exact (@add_then_bestMatch KeyMap.t KeyPress.t _ _ focus_trie
           (KeyMap.Build "focus-right"
              [KeyPress.ctrl_ "b"; KeyPress.just "l"]) Hb Hr).
Defined.

Lemma add_thrown_unchanged_witness :
  built focus_trie
  /\ snd (Trie.add focus_trie focus_left) <> Returned
  /\ fst (Trie.add focus_trie focus_left) = focus_trie.
Proof.
  assert (Hb : built focus_trie) by apply MatcherOverTrie.load_built.
  assert (Ht : snd (Trie.add focus_trie focus_left) <> Returned)
    by (vm_compute; discriminate).
  split; [exact Hb|]. split; [exact Ht|].
  exact (@add_thrown_unchanged KeyMap.t KeyPress.t _ _ focus_trie focus_left
           Hb Ht).
Defined.

Lemma add_frame_witness :
  ~ is_prefix (map serialize [KeyPress.ctrl_ "b"; KeyPress.just "j"])
      (keys_of longer_than_focus_left)
  /\ Trie.bestMatch (fst (Trie.add focus_trie longer_than_focus_left))
       [KeyPress.ctrl_ "b"; KeyPress.just "j"]
     = Trie.bestMatch focus_trie [KeyPress.ctrl_ "b"; KeyPress.just "j"].
Proof.
  assert (Hn : ~ is_prefix
                 (map serialize [KeyPress.ctrl_ "b"; KeyPress.just "j"])
                 (keys_of longer_than_focus_left)).
  { intros [rest Hrest]. vm_compute in Hrest. discriminate. }
  split; [exact Hn|].
  exact (@add_frame KeyMap.t KeyPress.t _ _ focus_trie
           longer_than_focus_left [KeyPress.ctrl_ "b"; KeyPress.just "j"] Hn).
Defined.

Lemma add_then_contains_witness :
  components (KeyMap.Build "focus-right"
                [KeyPress.ctrl_ "b"; KeyPress.just "l"])
  = [KeyPress.ctrl_ "b"] ++ [KeyPress.just "l"]
  /\ Trie.contains
       (fst (Trie.add focus_trie
               (KeyMap.Build "focus-right"
                  [KeyPress.ctrl_ "b"; KeyPress.just "l"])))
       [KeyPress.ctrl_ "b"]
     = true.
Proof.
  split; [reflexivity|].
  exact (proj1 (@add_then_contains KeyMap.t KeyPress.t _ _ focus_trie
                  (KeyMap.Build "focus-right"
                     [KeyPress.ctrl_ "b"; KeyPress.just "l"])
                  [KeyPress.ctrl_ "b"] [KeyPress.just "l"] eq_refl)).
Defined.

End TrieMore.

(** ** The matcher: what its state says, and what the handler does with it *)

Module KeyMatcherMore.
Import LeaderHotkeysPlugin KeyMatchingState KeyMatcher KeyMatcherSpec.
Import KeyMatcherFacts KeyMatcherClaims TrieSpec TrieFacts MatcherOverTrie.
Import TrieLookupSpec TrieMore KeyMatcherInvariantSpec.

Lemma snoc_nonempty (A : Type) (xs : list A) (x : A) : xs ++ [x] <> [].
Proof. destruct xs; discriminate. Qed.

Lemma state_inv_start (m : t) (k : KeyPress.t) :
  currentState m = NoMatch -> currentSequence m = [] ->
  state_inv (fst (advance m k)).
Proof.
  intros Hs Hbuf. rewrite (advance_start _ k Hs), Hbuf. unfold state_inv.
  destruct (Trie.bestMatch (trie m) ([] ++ [k])) as [n|] eqn:Eb; cbn;
    [|auto].
  destruct (TrieNode.isLeaf n) eqn:El; cbn; (split; [discriminate|]);
    exists n; auto.
Qed.

Lemma state_inv_advance (m : t) (k : KeyPress.t) :
  state_inv m -> state_inv (fst (advance m k)).
Proof.
  intros Hinv. destruct (state_cases (currentState m)) as [Hs | [Hs | Hs]].
  - apply state_inv_start; [assumption|].
    unfold state_inv in Hinv. rewrite Hs in Hinv. apply Hinv.
  - destruct (KeyPress.classification k) eqn:Ek.
    + rewrite (advance_noise _ k Hs Ek). unfold state_inv in *. cbn.
      destruct Hs as [Hs | [Hs | Hs]]; rewrite Hs in Hinv;
        destruct Hinv as (Hne & n & Hb & Hl & _) || destruct Hinv as (Hne & n & Hb & Hl);
        (split; [assumption|]); exists n; auto.
    + rewrite (advance_continue m k Hs) by congruence. unfold state_inv.
      destruct (Trie.bestMatch (trie m) (currentSequence m ++ [k]))
        as [n|] eqn:Eb; cbn.
      * destruct (TrieNode.isLeaf n) eqn:El; cbn;
          (split; [apply snoc_nonempty|]); exists n; auto.
      * split; [apply snoc_nonempty|]. auto.
    + rewrite (advance_continue m k Hs) by congruence. unfold state_inv.
      destruct (Trie.bestMatch (trie m) (currentSequence m ++ [k]))
        as [n|] eqn:Eb; cbn.
      * destruct (TrieNode.isLeaf n) eqn:El; cbn;
          (split; [apply snoc_nonempty|]); exists n; auto.
      * split; [apply snoc_nonempty|]. auto.
  - rewrite (advance_restart m k Hs).
    apply state_inv_start; reflexivity.
Qed.

Lemma feed_state_inv (tr : Trie.t KeyMap.t) (keys : list KeyPress.t) :
  state_inv (feed (new tr) keys).
Proof.
  induction keys as [|k keys IH] using rev_ind.
  - cbn. split; reflexivity.
  - rewrite feed_snoc. apply state_inv_advance. assumption.
Qed.

Lemma reachable_inv (tr : Trie.t KeyMap.t) (m : t) :
  reachable tr m -> state_inv m /\ trie m = tr.
Proof.
  intros [keys ->]. split; [apply feed_state_inv | apply feed_trie].
Qed.

(** X7. The state of a reachable matcher tells where its buffer leads in
    the trie: to an inner node in [StartedMatch], [ImprovedMatch] and
    [RetainedMatch], to a leaf in [SuccessMatch], nowhere in
    [InvalidMatch]; the buffer is empty in [NoMatch] only; and outside
    [RetainedMatch] the current matches are the leaf values of that node. *)
Theorem reachable_state_inv (tr : Trie.t KeyMap.t) (m : t)
  (Hreach : reachable tr m) :
  state_inv m.
Proof.
  destruct Hreach as [keys Hm]. subst m. apply feed_state_inv.
Qed.

Lemma reachable_state_inv_witness :
  reachable focus_trie after_leader /\ state_inv after_leader.
Proof.
  assert (H : reachable focus_trie after_leader) by (eexists; reflexivity).
  split; [exact H|]. exact (reachable_state_inv H).
Defined.

Lemma handleKeyDown_prevented (m : t) (e : KeyboardEvent) :
  defaultPrevented (snd (handleKeyDown m e))
  = negb (KeyMatchingState.eqb (snd (advance m (fromEvent e))) NoMatch).
Proof.
  unfold handleKeyDown.
  destruct (advance m (fromEvent e)) as [m' s].
  destruct s; cbn; try reflexivity.
  destruct (fullMatch m') as [keymap logged]. reflexivity.
Qed.

Lemma reachable_trie (tr : Trie.t KeyMap.t) (m : t) :
  reachable tr m -> trie m = tr.
Proof. intros [keys ->]. apply feed_trie. Qed.

(** X8. While a match is in progress every key event is swallowed: from
    [StartedMatch], [RetainedMatch] or [ImprovedMatch], [advance] never
    returns [NoMatch] or [StartedMatch], so the handler calls
    [preventDefault] whatever the key. *)
Theorem in_progress_swallows_every_key (m : t) (e : KeyboardEvent)
  (Hprogress : in_progress (currentState m)) :
  defaultPrevented (snd (handleKeyDown m e)) = true
  /\ snd (advance m (fromEvent e)) <> NoMatch
  /\ snd (advance m (fromEvent e)) <> StartedMatch.
Proof.
  rewrite handleKeyDown_prevented, advance_returns_state.
  destruct (KeyPress.classification (fromEvent e)) eqn:Ek.
  - rewrite (advance_noise _ _ Hprogress Ek). cbn.
    repeat split; discriminate.
  - rewrite (advance_continue m _ Hprogress) by congruence.
    destruct (Trie.bestMatch _ _) as [n|]; cbn;
      [destruct (TrieNode.isLeaf n)|]; cbn; repeat split; discriminate.
  - rewrite (advance_continue m _ Hprogress) by congruence.
    destruct (Trie.bestMatch _ _) as [n|]; cbn;
      [destruct (TrieNode.isLeaf n)|]; cbn; repeat split; discriminate.
Qed.

Lemma in_progress_swallows_every_key_witness :
  in_progress (currentState after_leader)
  /\ defaultPrevented
       (snd (handleKeyDown after_leader (Event "x" false false false false)))
     = true.
Proof.
  assert (H : in_progress (currentState after_leader))
    by (left; reflexivity).
  split; [exact H|].
  exact (proj1 (@in_progress_swallows_every_key after_leader
                  (Event "x" false false false false) H)).
Defined.

(** X9. When no match is in progress (a reachable matcher in [NoMatch],
    [SuccessMatch] or [InvalidMatch]), a key event is swallowed exactly when
    the key press alone is in the trie, that is when it begins a binding. *)
Theorem idle_swallows_leaders_only (tr : Trie.t KeyMap.t) (m : t)
  (e : KeyboardEvent)
  (Hreach : reachable tr m)
  (Hidle : ~ in_progress (currentState m)) :
  defaultPrevented (snd (handleKeyDown m e))
  = Trie.contains tr [fromEvent e].
Proof.
  rewrite handleKeyDown_prevented, advance_returns_state.
  destruct (reachable_inv Hreach) as [Hinv Htr].
  assert (Hstart : forall m0 : t,
             currentState m0 = NoMatch -> currentSequence m0 = [] ->
             trie m0 = tr ->
             negb (KeyMatchingState.eqb
                     (currentState (fst (advance m0 (fromEvent e)))) NoMatch)
             = Trie.contains tr [fromEvent e]).
  { intros m0 Hs Hb Ht. rewrite (advance_start _ _ Hs), Hb, Ht.
    unfold Trie.contains. cbn [app].
    destruct (Trie.bestMatch tr [fromEvent e]) as [n|]; cbn; [|reflexivity].
    destruct (TrieNode.isLeaf n); reflexivity. }
  destruct (state_cases (currentState m)) as [Hs | [Hs | Hs]].
  - apply Hstart; [assumption| |assumption].
    unfold state_inv in Hinv. rewrite Hs in Hinv. apply Hinv.
  - contradiction.
  - rewrite (advance_restart m _ Hs). apply Hstart; [reflexivity..|].
    assumption.
Qed.

Lemma idle_swallows_leaders_only_witness :
  reachable focus_trie after_focus_left
  /\ ~ in_progress (currentState after_focus_left)
  /\ defaultPrevented
       (snd (handleKeyDown after_focus_left
               (Event "b" false true false false)))
     = Trie.contains focus_trie
         [fromEvent (Event "b" false true false false)].
Proof.
  assert (H : reachable focus_trie after_focus_left)
    by (eexists; reflexivity).
  assert (Hi : ~ in_progress (currentState after_focus_left))
    by (intros [Hs | [Hs | Hs]]; vm_compute in Hs; discriminate).
  split; [exact H|]. split; [exact Hi|].
  exact (@idle_swallows_leaders_only focus_trie after_focus_left
           (Event "b" false true false false) H Hi).
Defined.

(** X10. The handler executes a command only when [advance] returns
    [SuccessMatch]; over a trie built by [add] it then executes exactly one
    command, the one of the single binding reachable from the buffer. *)
Theorem handleKeyDown_executes (tr : Trie.t KeyMap.t) (m : t)
  (e : KeyboardEvent)
  (Hbuilt : built tr) (Hreach : reachable tr m) :
  (snd (advance m (fromEvent e)) = SuccessMatch ->
   exists km,
     reachableFrom tr (currentSequence (fst (advance m (fromEvent e))))
     = [some km]
     /\ executed (snd (handleKeyDown m e)) = [KeyMap.commandID km])
  /\ (snd (advance m (fromEvent e)) <> SuccessMatch ->
      executed (snd (handleKeyDown m e)) = []).
Proof.
  pose proof (reachable_trie Hreach) as Htr.
  pose proof (advance_returns_state m (fromEvent e)) as Hret.
  pose proof (@advance_success m (fromEvent e)) as Hsucc.
  unfold handleKeyDown.
  destruct (advance m (fromEvent e)) as [m' s]. cbn [fst snd] in *. subst s.
  split.
  - intros Hs.
    destruct Hsucc as (n & km & _ & _ & Hm & Hr);
      [rewrite Htr; apply built_wf; assumption | assumption |].
    exists km. rewrite Htr in Hr. split; [assumption|].
    rewrite Hs. unfold fullMatch, allMatches. rewrite Hs, Hm. reflexivity.
  - intros Hs. destruct (currentState m'); cbn; try reflexivity.
    congruence.
Qed.

Lemma handleKeyDown_executes_witness :
  built focus_trie /\ reachable focus_trie after_leader
  /\ executed (snd (handleKeyDown after_leader
                      (Event "h" false false false false)))
     = ["focus-left"].
Proof.
  assert (Hb : built focus_trie) by apply load_built.
  assert (Hr : reachable focus_trie after_leader) by (eexists; reflexivity).
  split; [exact Hb|]. split; [exact Hr|].
  destruct (proj1 (@handleKeyDown_executes focus_trie after_leader
                     (Event "h" false false false false) Hb Hr))
    as (km & Hkm & Hex); [vm_compute; reflexivity|].
  vm_compute in Hkm. injection Hkm as <-. exact Hex.
Defined.

(** X11. In [StartedMatch], [ImprovedMatch] and [SuccessMatch], over a trie
    built by [add], [allMatches()] is not empty, holds bindings only, each
    with a key sequence that begins with the buffer's keys, and lists every
    stored binding whose sequence begins with the buffer. *)
Theorem allMatches_are_candidates (tr : Trie.t KeyMap.t) (m : t)
  (Hbuilt : built tr) (Hreach : reachable tr m)
  (Hstate : has_candidates (currentState m)) :
  allMatches m <> []
  /\ Forall (fun v => exists km,
                 v = some km
                 /\ is_prefix (map serialize (currentSequence m)) (keys_of km))
       (allMatches m)
  /\ (forall km rest,
         stored tr km -> KeyMap.sequence km = currentSequence m ++ rest ->
         In (some km) (allMatches m)).
Proof.
  destruct (reachable_inv Hreach) as [Hinv Htr].
  assert (Hn : currentSequence m <> []
               /\ exists n, Trie.bestMatch tr (currentSequence m) = Some n
                            /\ currentMatches m = TrieNode.leafValues n).
  { unfold state_inv in Hinv. rewrite Htr in Hinv.
    destruct Hstate as [Hs | [Hs | Hs]]; rewrite Hs in Hinv;
      destruct Hinv as (Hne & n & Hb & _ & Hm); split; eauto. }
  destruct Hn as (Hne & n & Hb & Hm). unfold allMatches. rewrite Hm.
  split; [|split].
  - unfold TrieNode.leafValues. intros E. apply map_eq_nil in E.
    exact (leaves_nonempty n E).
  - pose proof (leafValues_are_bindings Hbuilt Hne Hb) as HF.
    rewrite Forall_forall in *. intros v Hin.
    destruct (HF v Hin) as [km ->]. exists km. split; [reflexivity|].
    eapply leafValues_extend_buffer; eassumption.
  - intros km rest Hst Hseq.
    destruct (stored_in_leafValues (currentSequence m) rest Hbuilt Hst Hseq)
      as (n' & Hb' & Hin).
    congruence.
Qed.

Lemma allMatches_are_candidates_witness :
  built focus_trie /\ reachable focus_trie after_leader
  /\ has_candidates (currentState after_leader)
  /\ allMatches after_leader <> [].
Proof.
  assert (Hb : built focus_trie) by apply load_built.
  assert (Hr : reachable focus_trie after_leader) by (eexists; reflexivity).
  assert (Hs : has_candidates (currentState after_leader))
    by (left; reflexivity).
  split; [exact Hb|]. split; [exact Hr|]. split; [exact Hs|].
  exact (proj1 (allMatches_are_candidates Hb Hr Hs)).
Defined.

End KeyMatcherMore.

(** ** Key presses: classification and the host's custom hotkeys *)

Module KeyPressMore.
Import LeaderHotkeysPlugin KeyPressCustom KeyPressCustomSpec.

Lemma containsKey_classification (k : KeyPress.t) :
  KeyPress.containsKey k
  = match KeyPress.classification k with
    | NoKey => false
    | _ => true
    end.
Proof.
  unfold KeyPress.containsKey, KeyPress.classification.
  destruct (String.eqb (KeyPress.key k) "Alt"),
    (String.eqb (KeyPress.key k) "Control"),
    (String.eqb (KeyPress.key k) "Shift"),
    (String.eqb (KeyPress.key k) "Meta"); cbn; try reflexivity.
  destruct (String.eqb (KeyPress.key k) "Enter"
            || String.eqb (KeyPress.key k) "Escape"); reflexivity.
Qed.

(** X12. [containsKey] and [classification] agree: a key press contains a
    key exactly when it is not classified [NoKey], whatever its
    modifiers. *)
Theorem containsKey_iff_not_NoKey (p : KeyPress.t) :
  (KeyPress.containsKey p = true <-> KeyPress.classification p <> NoKey)
  /\ (forall q,
         KeyPress.key q = KeyPress.key p ->
         KeyPress.classification q = KeyPress.classification p).
Proof.
  split.
  - rewrite containsKey_classification.
    destruct (KeyPress.classification p); split; congruence.
  - intros q Hq. unfold KeyPress.classification. rewrite Hq. reflexivity.
Qed.

Lemma containsKey_iff_not_NoKey_witness :
  KeyPress.key (KeyPress.just "b") = KeyPress.key (KeyPress.ctrl_ "b")
  /\ KeyPress.classification (KeyPress.just "b")
     = KeyPress.classification (KeyPress.ctrl_ "b").
Proof.
  split; [reflexivity|].
  exact (proj2 (containsKey_iff_not_NoKey (KeyPress.ctrl_ "b"))
           (KeyPress.just "b") eq_refl).
Defined.

(** X13. [fromCustom] exchanges Ctrl and Alt: the key press it builds for a
    custom hotkey equals the key press [fromEvent] builds for the event with
    that key and exactly those modifiers held if and only if Ctrl and Alt
    are both among the modifiers or both absent. *)
Theorem fromCustom_agrees_with_fromEvent_iff (binding : CustomCommand) :
  fromCustom binding = fromEvent (event_of binding)
  <-> contains (modifiers binding) "Ctrl" = contains (modifiers binding) "Alt".
Proof.
  unfold fromCustom, fromEvent, event_of. cbn.
  destruct (contains (modifiers binding) "Ctrl"),
    (contains (modifiers binding) "Alt"); split; intros H;
    (reflexivity || discriminate || (injection H; congruence)).
Qed.

End KeyPressMore.

(** ** The register machine and its modal *)

Module RegisterMachineMore.
Import KeyRegisterState RegisterMachine RegisterMachineSpec.
Import RegisterMachineInvariantSpec RegisterMachineClaims.

Lemma advance_collecting (m : t) (e : KeyPress.t) :
  collecting (currentState m) ->
  advance m e =
    match KeyPress.classification e with
    | NoKey => (Build RetainedKeys (currentSequence m), RetainedKeys)
    | SpecialKey =>
        (Build PendingConfirmation (currentSequence m ++ [e]),
         PendingConfirmation)
    | NormalKey =>
        match currentState m with
        | NoKeys => (Build FirstKey (currentSequence m ++ [e]), FirstKey)
        | _ => (Build AddedKeys (currentSequence m ++ [e]), AddedKeys)
        end
    end.
Proof.
  intros Hs. unfold advance. destruct m as [s buf]. cbn in *.
  destruct Hs as [-> | [-> | [-> | [-> | ->]]]]; cbn;
    destruct (KeyPress.classification e); cbn; unfold pop; cbn;
    rewrite ?removelast_last; reflexivity.
Qed.

Lemma register_state_cases (s : KeyRegisterState.t) :
  collecting s \/ s = PendingConfirmation \/ s = FinishedRegistering.
Proof. unfold collecting. destruct s; auto 10. Qed.

Lemma advance_finished (m : t) (e : KeyPress.t) :
  currentState m = FinishedRegistering -> advance m e = advance new e.
Proof.
  intros Hs. unfold advance. destruct m as [s buf]. cbn in *. subst s. cbn.
  destruct (KeyPress.classification e); reflexivity.
Qed.

(** X14. Re-entrancy of the register machine: from [FinishedRegistering],
    [advance] gives what a new machine gives for the same key press, so the
    finished recording is dropped and [presses()] holds the new key press
    alone, or nothing when that is a bare modifier. *)
Theorem register_advance_after_finished (m : t) (e : KeyPress.t)
  (Hfinished : currentState m = FinishedRegistering) :
  advance m e = advance new e
  /\ presses (fst (advance m e))
     = if KeyPress.containsKey e then [e] else [].
Proof.
  rewrite (@advance_finished m e Hfinished). split; [reflexivity|].
  rewrite (@advance_collecting new e) by (left; reflexivity).
  rewrite KeyPressMore.containsKey_classification.
  destruct (KeyPress.classification e); reflexivity.
Qed.

Lemma register_advance_after_finished_witness :
  currentState (fst (advance pending_enter (KeyPress.ctrlAlt "Enter")))
  = FinishedRegistering
  /\ advance (fst (advance pending_enter (KeyPress.ctrlAlt "Enter")))
       (KeyPress.just "a")
     = advance new (KeyPress.just "a").
Proof.
  assert (H : currentState
                (fst (advance pending_enter (KeyPress.ctrlAlt "Enter")))
              = FinishedRegistering) by (vm_compute; reflexivity).
  split; [exact H|].
  exact (proj1 (@register_advance_after_finished
                  (fst (advance pending_enter (KeyPress.ctrlAlt "Enter")))
                  (KeyPress.just "a") H)).
Defined.

(** X15. The register machine never takes back a recorded key press: unless
    it starts over from [FinishedRegistering], [presses()] after [advance]
    is the old [presses()], or the old one with the new key press at the
    end. *)
Theorem advance_never_deletes (m : t) (e : KeyPress.t)
  (Hnot_finished : currentState m <> FinishedRegistering) :
  presses (fst (advance m e)) = presses m
  \/ presses (fst (advance m e)) = presses m ++ [e].
Proof.
  unfold presses.
  destruct (register_state_cases (currentState m)) as [Hs | [Hs | Hs]].
  - rewrite (@advance_collecting m e Hs).
    destruct (KeyPress.classification e); cbn; auto.
    destruct (currentState m); cbn; auto.
  - rewrite (advance_pending m e Hs).
    repeat match goal with
           | |- context [if ?b then _ else _] => destruct b
           end; cbn; auto.
  - contradiction.
Qed.

Lemma advance_never_deletes_witness :
  currentState pending_enter <> FinishedRegistering
  /\ (presses (fst (advance pending_enter (KeyPress.just "Backspace")))
      = presses pending_enter
      \/ presses (fst (advance pending_enter (KeyPress.just "Backspace")))
         = presses pending_enter ++ [KeyPress.just "Backspace"]).
Proof.
  assert (H : currentState pending_enter <> FinishedRegistering)
    by (vm_compute; discriminate).
  split; [exact H|].
  exact (@advance_never_deletes pending_enter (KeyPress.just "Backspace") H).
Defined.

Lemma register_feed_snoc (m : t) (keys : list KeyPress.t) (k : KeyPress.t) :
  feed m (keys ++ [k]) = fst (advance (feed m keys) k).
Proof. unfold feed. rewrite fold_left_app. reflexivity. Qed.

Lemma register_feed_cons (m : t) (k : KeyPress.t) (keys : list KeyPress.t) :
  feed m (k :: keys) = feed (fst (advance m k)) keys.
Proof. reflexivity. Qed.

Lemma register_feed_app (m : t) (xs ys : list KeyPress.t) :
  feed m (xs ++ ys) = feed (feed m xs) ys.
Proof. unfold feed. apply fold_left_app. Qed.

Lemma register_advance_returns_state (m : t) (e : KeyPress.t) :
  snd (advance m e) = currentState (fst (advance m e)).
Proof.
  destruct (register_state_cases (currentState m)) as [Hs | [Hs | Hs]].
  - rewrite (@advance_collecting m e Hs).
    destruct (KeyPress.classification e); cbn; auto.
    destruct (currentState m); reflexivity.
  - rewrite (advance_pending m e Hs).
    repeat match goal with
           | |- context [if ?b then _ else _] => destruct b
           end; reflexivity.
  - rewrite (@advance_finished m e Hs).
    rewrite (@advance_collecting new e) by (left; reflexivity).
    destruct (KeyPress.classification e); reflexivity.
Qed.

Lemma advance_not_NoKeys (m : t) (e : KeyPress.t) :
  snd (advance m e) <> NoKeys.
Proof.
  destruct (register_state_cases (currentState m)) as [Hs | [Hs | Hs]].
  - rewrite (@advance_collecting m e Hs).
    destruct (KeyPress.classification e); cbn; try discriminate.
    destruct (currentState m); discriminate.
  - rewrite (advance_pending m e Hs).
    repeat match goal with
           | |- context [if ?b then _ else _] => destruct b
           end; discriminate.
  - rewrite (@advance_finished m e Hs).
    rewrite (@advance_collecting new e) by (left; reflexivity).
    destruct (KeyPress.classification e); discriminate.
Qed.

Lemma reachable_NoKeys_empty (m : t) :
  reachable m -> currentState m = NoKeys -> currentSequence m = [].
Proof.
  intros [keys ->]. destruct keys as [|k keys _] using rev_ind.
  - reflexivity.
  - rewrite register_feed_snoc, <- register_advance_returns_state. intros H.
    exfalso. exact (advance_not_NoKeys _ _ H).
Qed.

(** X16. [advance] never returns [NoKeys], whatever the machine and the
    key press; and when a reachable machine returns [FirstKey] the recorded
    sequence is that one key press. *)
Theorem first_key_is_alone (m : t) (e : KeyPress.t) :
  snd (advance m e) <> NoKeys
  /\ (reachable m -> snd (advance m e) = FirstKey ->
      presses (fst (advance m e)) = [e]).
Proof.
  split; [apply advance_not_NoKeys|]. intros Hreach Hfirst. unfold presses.
  assert (Hnew : forall m0 : t,
             currentState m0 = NoKeys -> currentSequence m0 = [] ->
             snd (advance m0 e) = FirstKey ->
             currentSequence (fst (advance m0 e)) = [e]).
  { intros m0 Hs Hb. rewrite (@advance_collecting m0 e) by (left; assumption).
    rewrite Hs, Hb. destruct (KeyPress.classification e); cbn;
      (discriminate || reflexivity). }
  destruct (register_state_cases (currentState m)) as [Hs | [Hs | Hs]].
  - destruct Hs as [Hs | Hs].
    + apply Hnew; [assumption| |assumption].
      apply reachable_NoKeys_empty; assumption.
    + exfalso. rewrite (@advance_collecting m e) in Hfirst by (right; exact Hs).
      destruct (KeyPress.classification e); cbn in Hfirst; try discriminate.
      destruct Hs as [Hs | [Hs | [Hs | Hs]]]; rewrite Hs in Hfirst;
        discriminate.
  - exfalso. rewrite (advance_pending m e Hs) in Hfirst.
    repeat match type of Hfirst with
           | context [if ?b then _ else _] => destruct b
           end; discriminate.
  - rewrite (@advance_finished m e Hs) in *.
    apply Hnew; [reflexivity..|assumption].
Qed.

Lemma first_key_is_alone_witness :
  reachable new /\ snd (advance new (KeyPress.just "a")) = FirstKey
  /\ presses (fst (advance new (KeyPress.just "a"))) = [KeyPress.just "a"]
  /\ snd (advance pending_enter (KeyPress.just "Shift")) <> NoKeys.
Proof.
  assert (Hr : reachable new) by (exists []; reflexivity).
  assert (Hf : snd (advance new (KeyPress.just "a")) = FirstKey)
    by (vm_compute; reflexivity).
  split; [exact Hr|]. split; [exact Hf|]. split.
  - exact (proj2 (first_key_is_alone new (KeyPress.just "a")) Hr Hf).
  - exact (proj1 (first_key_is_alone pending_enter (KeyPress.just "Shift"))).
Defined.

(** X17. Without [Enter] and [Escape] the machine records exactly the key
    presses that contain a key, in order, and never asks for confirmation:
    bare modifiers are dropped, everything else is kept. *)
Theorem records_keys_without_modifiers (keys : list KeyPress.t)
  (Hno_special : Forall (fun k => ~ is_special k) keys) :
  presses (feed new keys) = filter KeyPress.containsKey keys
  /\ collecting (currentState (feed new keys)).
Proof.
  unfold presses.
  induction keys as [|k keys IH] using rev_ind.
  - split; [reflexivity|left; reflexivity].
  - apply Forall_app in Hno_special. destruct Hno_special as [Hks Hk].
    inversion Hk as [|? ? Hk' _]; subst. destruct (IH Hks) as [Hp Hc].
    rewrite register_feed_snoc, filter_app, (@advance_collecting _ k Hc), <- Hp. cbn.
    rewrite (KeyPressMore.containsKey_classification k).
    unfold is_special in Hk'.
    destruct (KeyPress.classification k) eqn:Ek; cbn.
    + rewrite app_nil_r. split; [reflexivity|]. unfold collecting. auto.
    + congruence.
    + destruct (currentState (feed new keys)); cbn;
        (split; [reflexivity|]); unfold collecting; auto.
Qed.

Lemma records_keys_without_modifiers_witness :
  Forall (fun k => ~ is_special k)
    [KeyPress.ctrl_ "Control"; KeyPress.ctrl_ "b"; KeyPress.just "h"]
  /\ presses (feed new
                [KeyPress.ctrl_ "Control"; KeyPress.ctrl_ "b";
                 KeyPress.just "h"])
     = [KeyPress.ctrl_ "b"; KeyPress.just "h"].
Proof.
  assert (H : Forall (fun k => ~ is_special k)
                [KeyPress.ctrl_ "Control"; KeyPress.ctrl_ "b";
                 KeyPress.just "h"])
    by (repeat constructor; intros E; vm_compute in E; discriminate).
  split; [exact H|].
  exact (proj1 (records_keys_without_modifiers H)).
Defined.

Lemma feed_pending (mods : list KeyPress.t) :
  forall m : t,
    currentState m = PendingConfirmation ->
    Forall (fun k => is_enter k = false /\ is_backspace k = false) mods ->
    feed m mods = Build PendingConfirmation (currentSequence m ++ mods)
    \/ (mods = [] /\ feed m mods = m).
Proof.
  induction mods as [|k mods IH] using rev_ind; intros m Hs HF.
  - right. split; reflexivity.
  - left. apply Forall_app in HF. destruct HF as [Hmods Hk].
    inversion Hk as [|? ? [He Hb] _]; subst.
    unfold is_enter, is_backspace in *. rewrite register_feed_snoc.
    assert (Hp : currentState (feed m mods) = PendingConfirmation
                 /\ currentSequence (feed m mods) = currentSequence m ++ mods).
    { destruct (IH m Hs Hmods) as [-> | [-> ->]]; cbn;
        [|rewrite app_nil_r]; auto. }
    destruct Hp as [Hs' Hb'].
    rewrite (advance_pending (feed m mods) k Hs'), He, Hb, Hb'. cbn.
    rewrite <- app_assoc. reflexivity.
Qed.

(** X18. Finishing keeps whatever was typed while the confirmation was
    pending: from [PendingConfirmation], key presses other than [Enter] and
    [Backspace] followed by Ctrl+Alt+[Enter] end in [FinishedRegistering]
    with all of them recorded after the earlier ones, bare modifiers
    included; only the confirming key press is left out. *)
Theorem finishing_records_pending_keys (m : t) (mods : list KeyPress.t)
  (e : KeyPress.t)
  (Hpending : currentState m = PendingConfirmation)
  (Hmods : Forall (fun k => is_enter k = false /\ is_backspace k = false) mods)
  (Hconfirm : is_confirmation e = true) :
  feed m (mods ++ [e]) = Build FinishedRegistering (presses m ++ mods).
Proof.
  unfold presses. rewrite register_feed_snoc.
  assert (Hp : currentState (feed m mods) = PendingConfirmation
               /\ currentSequence (feed m mods) = currentSequence m ++ mods).
  { destruct (feed_pending m Hpending Hmods) as [-> | [-> ->]]; cbn;
      [|rewrite app_nil_r]; auto. }
  destruct Hp as [Hs' Hb'].
  unfold is_confirmation, is_enter in Hconfirm.
  rewrite (advance_pending (feed m mods) e Hs'), Hconfirm, Hb'. reflexivity.
Qed.

Lemma finishing_records_pending_keys_witness :
  currentState pending_enter = PendingConfirmation
  /\ presses
       (feed pending_enter
          ([KeyPress.ctrl_ "Control"; KeyPress.ctrlAlt "Alt"]
           ++ [KeyPress.ctrlAlt "Enter"]))
     = [KeyPress.just "a"; KeyPress.just "Enter";
        KeyPress.ctrl_ "Control"; KeyPress.ctrlAlt "Alt"].
Proof.
  assert (Hs : currentState pending_enter = PendingConfirmation)
    by (vm_compute; reflexivity).
  split; [exact Hs|].
  rewrite (@finishing_records_pending_keys pending_enter
             [KeyPress.ctrl_ "Control"; KeyPress.ctrlAlt "Alt"]
             (KeyPress.ctrlAlt "Enter") Hs).
  - vm_compute. reflexivity.
  - repeat constructor.
  - reflexivity.
Defined.

Lemma special_inv_advance (m : t) (e : KeyPress.t) :
  (currentState m = PendingConfirmation
   \/ currentState m = FinishedRegistering ->
   Exists is_special (currentSequence m)) ->
  currentState (fst (advance m e)) = PendingConfirmation
  \/ currentState (fst (advance m e)) = FinishedRegistering ->
  Exists is_special (currentSequence (fst (advance m e))).
Proof.
  intros Hinv.
  assert (Hcol : forall m0 : t,
             collecting (currentState m0) ->
             currentState (fst (advance m0 e)) = PendingConfirmation
             \/ currentState (fst (advance m0 e)) = FinishedRegistering ->
             Exists is_special (currentSequence (fst (advance m0 e)))).
  { intros m0 Hs. rewrite (@advance_collecting m0 e Hs).
    destruct (KeyPress.classification e) eqn:Ek; cbn.
    - intros [H|H]; discriminate.
    - intros _. apply Exists_app. right. constructor. exact Ek.
    - destruct (currentState m0); cbn; intros [H|H]; discriminate. }
  destruct (register_state_cases (currentState m)) as [Hs | [Hs | Hs]].
  - apply Hcol. assumption.
  - rewrite (advance_pending m e Hs).
    specialize (Hinv (or_introl Hs)).
    repeat match goal with
           | |- context [if ?b then _ else _] => destruct b
           end; cbn; intros [H|H]; try discriminate; try assumption.
    apply Exists_app. left. assumption.
  - rewrite (@advance_finished m e Hs).
    apply Hcol. left. reflexivity.
Qed.

(** X19. A recording can only be finished with a special key in it: in
    every reachable machine in [PendingConfirmation] or
    [FinishedRegistering], [presses()] holds a key press classified
    [SpecialKey] ([Enter] or [Escape]). *)
Theorem finished_sequence_has_special_key (m : t)
  (Hreach : reachable m)
  (Hstate : currentState m = PendingConfirmation
            \/ currentState m = FinishedRegistering) :
  Exists is_special (presses m).
Proof.
  unfold presses. destruct Hreach as [keys ->]. revert Hstate.
  induction keys as [|k keys IH] using rev_ind.
  - cbn. intros [H|H]; discriminate.
  - rewrite register_feed_snoc. apply special_inv_advance. exact IH.
Qed.

Lemma finished_sequence_has_special_key_witness :
  reachable pending_enter
  /\ (currentState pending_enter = PendingConfirmation
      \/ currentState pending_enter = FinishedRegistering)
  /\ Exists is_special (presses pending_enter).
Proof.
  assert (Hr : reachable pending_enter) by (eexists; reflexivity).
  assert (Hs : currentState pending_enter = PendingConfirmation
               \/ currentState pending_enter = FinishedRegistering)
    by (left; vm_compute; reflexivity).
  split; [exact Hr|]. split; [exact Hs|].
  exact (finished_sequence_has_special_key Hr Hs).
Defined.

(** X20. The modal's handler calls [preventDefault] for every key event and
    never hands a sequence over: neither [setNewKey] nor [close] is ever
    called.  When the register machine reports [FinishedRegistering] the
    handler prevents the default, writes to the console, shows the conflict
    message and returns; the statements after that [return], which would
    call [setNewKey] and [close], are never reached, whatever was
    recorded. *)
Theorem modal_never_commits (modal : SetHotkeyModal.t)
  (event : LeaderHotkeysPlugin.KeyboardEvent) :
  prevents (snd (SetHotkeyModal.handleKeyDown modal event)) = true
  /\ commits (snd (SetHotkeyModal.handleKeyDown modal event)) = false
  /\ (snd (advance (SetHotkeyModal.keyRegister modal)
             (LeaderHotkeysPlugin.fromEvent event)) = FinishedRegistering ->
      SetHotkeyModal.contentEl
        (fst (SetHotkeyModal.handleKeyDown modal event))
      = ["This sequence conflicts with other sequences [ . . . ] . Please try again."]
      /\ snd (SetHotkeyModal.handleKeyDown modal event)
         = [SetHotkeyModal.LogEvent; SetHotkeyModal.Prevent;
            SetHotkeyModal.Console
              "An keypress resulted in a FinishedRegistering state."]).
Proof.
  unfold SetHotkeyModal.handleKeyDown.
  destruct (advance (SetHotkeyModal.keyRegister modal)
              (LeaderHotkeysPlugin.fromEvent event)) as [r s].
  destruct s; cbn; repeat split; intros; (reflexivity || discriminate).
Qed.

Lemma modal_never_commits_witness :
  snd (advance
         (SetHotkeyModal.keyRegister
            (SetHotkeyModal.Build pending_enter ["Just Testing, you know"]))
         (LeaderHotkeysPlugin.fromEvent
            (LeaderHotkeysPlugin.Event "Enter" false true true false)))
  = FinishedRegistering
  /\ SetHotkeyModal.contentEl
       (fst (SetHotkeyModal.handleKeyDown
               (SetHotkeyModal.Build pending_enter ["Just Testing, you know"])
               (LeaderHotkeysPlugin.Event "Enter" false true true false)))
     = ["This sequence conflicts with other sequences [ . . . ] . Please try again."]
  /\ snd (SetHotkeyModal.handleKeyDown
            (SetHotkeyModal.Build pending_enter ["Just Testing, you know"])
            (LeaderHotkeysPlugin.Event "Enter" false true true false))
     = [SetHotkeyModal.LogEvent; SetHotkeyModal.Prevent;
        SetHotkeyModal.Console
          "An keypress resulted in a FinishedRegistering state."].
Proof.
  assert (Hf : snd (advance
                      (SetHotkeyModal.keyRegister
                         (SetHotkeyModal.Build pending_enter
                            ["Just Testing, you know"]))
                      (LeaderHotkeysPlugin.fromEvent
                         (LeaderHotkeysPlugin.Event "Enter" false true true
                            false)))
               = FinishedRegistering) by (vm_compute; reflexivity).
  split; [exact Hf|].
  exact (proj2 (proj2 (modal_never_commits
                         (SetHotkeyModal.Build pending_enter
                            ["Just Testing, you know"])
                         (LeaderHotkeysPlugin.Event "Enter" false true true
                            false))) Hf).
Defined.

End RegisterMachineMore.

(** ** The settings of the first version: validate, store, delete, update *)

Module SettingsMore.
Import SettingsTab SettingsSpec.

Lemma differs_false_iff (h e : Hotkey.t) :
  differs h e = false <-> binding h = binding e.
Proof.
  unfold differs, binding. destruct h as [k m s c], e as [k' m' s' c']. cbn.
  destruct (String.eqb_spec k k'), (Bool.eqb_spec m m'), (Bool.eqb_spec s s');
    cbn; split; intros H; try reflexivity; try discriminate; try congruence.
Qed.

Lemma differs_true_iff (h e : Hotkey.t) :
  differs h e = true <-> binding h <> binding e.
Proof.
  rewrite <- differs_false_iff. destruct (differs h e); split; congruence.
Qed.

Lemma validate_true_iff (hotkeys : list Hotkey.t) (k : string) (m s : bool) :
  fst (validateNewHotkey hotkeys k m s) = true
  <-> ~ In (k, m, s) (map binding hotkeys).
Proof.
  induction hotkeys as [|h rest IH]; cbn.
  - split; auto.
  - destruct h as [k' m' s' c']. cbn.
    destruct (String.eqb_spec k' k), (Bool.eqb_spec m' m), (Bool.eqb_spec s' s);
      cbn; subst;
      try (split; [discriminate | intros H; exfalso; apply H; left; reflexivity]);
      rewrite IH; unfold binding; cbn; split; intros H;
      try (intros [E|E]; [congruence | auto]);
      try (intros E; apply H; right; assumption).
Qed.

Lemma delete_loop_skipping (fuel : nat) (e : Hotkey.t) :
  forall pre suf : list Hotkey.t,
    List.length suf < fuel ->
    delete_loop fuel (List.length pre) (pre ++ suf) e
    = pre ++ delete_skipping suf e.
Proof.
  induction fuel as [|fuel IH]; intros pre suf Hlen; [lia|].
  cbn [delete_loop]. rewrite nth_error_app2, Nat.sub_diag by lia.
  destruct suf as [|h r]; cbn [nth_error delete_skipping].
  - reflexivity.
  - cbn [List.length] in Hlen.
    assert (Hsnoc : forall x (ys : list Hotkey.t),
               pre ++ x :: ys = (pre ++ [x]) ++ ys)
      by (intros; rewrite <- app_assoc; reflexivity).
    assert (Hl : forall x : Hotkey.t,
               S (List.length pre) = List.length (pre ++ [x]))
      by (intros; rewrite length_app; cbn; lia).
    destruct (differs h e).
    + rewrite Hsnoc, (Hl h), IH by lia. rewrite <- app_assoc. reflexivity.
    + assert (Hsp : splice1 (pre ++ h :: r) (List.length pre) = pre ++ r).
      { unfold splice1. clear. induction pre as [|a pre IHp]; cbn;
          [reflexivity|]. f_equal. exact IHp. }
      rewrite Hsp. destruct r as [|next r'].
      * rewrite app_nil_r. destruct fuel; cbn [delete_loop]; [reflexivity|].
        rewrite (proj2 (nth_error_None pre (S (List.length pre)))) by lia.
        reflexivity.
      * cbn [List.length] in Hlen.
        rewrite Hsnoc, (Hl next), IH by lia.
        rewrite <- app_assoc. reflexivity.
Qed.

(** X21. The loop of [deleteHotkeyFromSettings] ends within its bound and
    comes to this: every hotkey with the key, [meta] and [shift] of
    [existingHotkey] is removed, except one that directly follows a removed
    hotkey, which the loop passes over; so of two such neighbours the second
    stays. *)
Theorem delete_skips_after_removal (hotkeys : list Hotkey.t)
  (existingHotkey : Hotkey.t) :
  (forall extra,
      delete_loop (S (List.length hotkeys) + extra) 0 hotkeys existingHotkey
      = delete_skipping hotkeys existingHotkey)
  /\ deleteHotkeyFromSettings hotkeys existingHotkey
     = delete_skipping hotkeys existingHotkey
  /\ (forall h h' rest,
         differs h existingHotkey = false ->
         deleteHotkeyFromSettings (h :: h' :: rest) existingHotkey
         = h' :: deleteHotkeyFromSettings rest existingHotkey).
Proof.
  assert (H : forall (l : list Hotkey.t) extra,
             delete_loop (S (List.length l) + extra) 0 l existingHotkey
             = delete_skipping l existingHotkey).
  { intros l extra.
    apply (delete_loop_skipping (fuel := S (List.length l) + extra)
             existingHotkey [] l). lia. }
  assert (H0 : forall l : list Hotkey.t,
             deleteHotkeyFromSettings l existingHotkey
             = delete_skipping l existingHotkey).
  { intros l. unfold deleteHotkeyFromSettings.
    rewrite <- (H l 0), Nat.add_0_r. reflexivity. }
  split; [apply H|]. split; [apply H0|].
  intros h h' rest Hd. rewrite !H0. cbn. rewrite Hd. reflexivity.
Qed.

Lemma delete_skips_after_removal_witness :
  differs (Hotkey.Build "h" false false "editor:focus-left")
    (Hotkey.Build "h" false false "") = false
  /\ deleteHotkeyFromSettings
       [Hotkey.Build "h" false false "editor:focus-left";
        Hotkey.Build "h" false false "editor:focus-right";
        Hotkey.Build "k" false false "editor:focus-top"]
       (Hotkey.Build "h" false false "")
     = Hotkey.Build "h" false false "editor:focus-right"
       :: deleteHotkeyFromSettings
            [Hotkey.Build "k" false false "editor:focus-top"]
            (Hotkey.Build "h" false false "").
Proof.
  split; [reflexivity|].
  exact (proj2 (proj2 (delete_skips_after_removal []
                         (Hotkey.Build "h" false false "")))
           (Hotkey.Build "h" false false "editor:focus-left")
           (Hotkey.Build "h" false false "editor:focus-right")
           [Hotkey.Build "k" false false "editor:focus-top"] eq_refl).
Defined.

Lemma deleteHotkeyFromSettings_skipping (l : list Hotkey.t) (e : Hotkey.t) :
  deleteHotkeyFromSettings l e = delete_skipping l e.
Proof.
  unfold deleteHotkeyFromSettings.
  apply (delete_loop_skipping (fuel := S (List.length l)) e [] l). lia.
Qed.

Lemma delete_skipping_none (l : list Hotkey.t) (e : Hotkey.t) :
  ~ In (binding e) (map binding l) -> delete_skipping l e = l.
Proof.
  induction l as [|h rest IH]; cbn; [reflexivity|]. intros Hn.
  destruct (differs h e) eqn:Ed.
  - rewrite IH; [reflexivity|]. intros Hin. apply Hn. right. assumption.
  - exfalso. apply Hn. left. apply differs_false_iff. assumption.
Qed.

Lemma filter_differs_none (l : list Hotkey.t) (e : Hotkey.t) :
  ~ In (binding e) (map binding l) -> filter (fun h => differs h e) l = l.
Proof.
  induction l as [|h rest IH]; cbn; [reflexivity|]. intros Hn.
  destruct (differs h e) eqn:Ed.
  - rewrite IH; [reflexivity|]. intros Hin. apply Hn. right. assumption.
  - exfalso. apply Hn. left. apply differs_false_iff. assumption.
Qed.

Lemma delete_skipping_distinct (l : list Hotkey.t) (e : Hotkey.t) :
  distinct l -> delete_skipping l e = filter (fun h => differs h e) l.
Proof.
  unfold distinct. induction l as [|h rest IH]; cbn; [reflexivity|].
  intros Hnd. inversion Hnd as [|? ? Hnotin Hnd']; subst.
  destruct (differs h e) eqn:Ed.
  - rewrite IH by assumption. reflexivity.
  - apply differs_false_iff in Ed. rewrite Ed in Hnotin.
    rewrite (filter_differs_none _ _ Hnotin).
    pose proof (delete_skipping_none _ _ Hnotin) as Hd.
    destruct rest as [|next rest']; [reflexivity|].
    cbn in Hd. destruct (differs next e) eqn:Ed'.
    + injection Hd as Hd. rewrite Hd. reflexivity.
    + exfalso. apply Hnotin. left.
      apply differs_false_iff. assumption.
Qed.

Lemma filter_distinct (l : list Hotkey.t) (f : Hotkey.t -> bool) :
  distinct l -> distinct (filter f l).
Proof.
  unfold distinct. induction l as [|h rest IH]; cbn; [auto|].
  intros Hnd. inversion Hnd as [|? ? Hnotin Hnd']; subst.
  destruct (f h); cbn; [constructor|]; auto.
  intros Hin. apply Hnotin. apply in_map_iff in Hin.
  destruct Hin as (x & Hx & Hin). apply filter_In in Hin.
  apply in_map_iff. exists x. tauto.
Qed.

(** X22. When no two hotkeys share key, [meta] and [shift],
    [deleteHotkeyFromSettings] removes exactly the hotkeys with those of
    [existingHotkey] and keeps the others in order; afterwards that key
    validates as free again and the hotkeys are still distinct. *)
Theorem delete_on_distinct (hotkeys : list Hotkey.t)
  (existingHotkey : Hotkey.t)
  (Hdistinct : distinct hotkeys) :
  deleteHotkeyFromSettings hotkeys existingHotkey
  = filter (fun h => differs h existingHotkey) hotkeys
  /\ fst (validateNewHotkey
            (deleteHotkeyFromSettings hotkeys existingHotkey)
            (Hotkey.key existingHotkey) (Hotkey.meta existingHotkey)
            (Hotkey.shift existingHotkey)) = true
  /\ distinct (deleteHotkeyFromSettings hotkeys existingHotkey).
Proof.
  rewrite deleteHotkeyFromSettings_skipping,
    (delete_skipping_distinct existingHotkey Hdistinct).
  split; [reflexivity|]. split; [|apply filter_distinct; assumption].
  apply validate_true_iff. intros Hin. apply in_map_iff in Hin.
  destruct Hin as (h & Hb & Hin). apply filter_In in Hin.
  destruct Hin as [_ Hd]. apply differs_true_iff in Hd. apply Hd.
  exact Hb.
Qed.

Lemma defaultHotkeys_distinct : distinct defaultHotkeys.
Proof.
  unfold distinct. cbn.
  repeat (constructor; [cbn; intuition discriminate|]). constructor.
Qed.

Lemma delete_on_distinct_witness :
  distinct defaultHotkeys
  /\ deleteHotkeyFromSettings defaultHotkeys
       (Hotkey.Build "j" false false "editor:focus-bottom")
     = filter (fun h =>
                 differs h (Hotkey.Build "j" false false "editor:focus-bottom"))
         defaultHotkeys.
Proof.
  split; [exact defaultHotkeys_distinct|].
  exact (proj1 (@delete_on_distinct defaultHotkeys
                  (Hotkey.Build "j" false false "editor:focus-bottom")
                  defaultHotkeys_distinct)).
Defined.

(** X23. Store then delete: a new hotkey that validates is appended by
    "Save New Hotkey", the pending hotkey is emptied, and deleting the new
    hotkey gives back the hotkeys there were. *)
Theorem save_then_delete (hotkeys : list Hotkey.t) (tempNewHotkey : Hotkey.t)
  (Hvalid : fst (validateNewHotkey hotkeys (Hotkey.key tempNewHotkey)
                   (Hotkey.meta tempNewHotkey) (Hotkey.shift tempNewHotkey))
            = true) :
  saveNewHotkey hotkeys tempNewHotkey
  = (hotkeys ++ [tempNewHotkey], newEmptyHotkey)
  /\ deleteHotkeyFromSettings (fst (saveNewHotkey hotkeys tempNewHotkey))
       tempNewHotkey
     = hotkeys.
Proof.
  unfold saveNewHotkey. rewrite Hvalid. cbn [fst storeNewHotkeyInSettings].
  split; [reflexivity|]. rewrite deleteHotkeyFromSettings_skipping.
  apply validate_true_iff in Hvalid.
  change (Hotkey.key tempNewHotkey, Hotkey.meta tempNewHotkey,
          Hotkey.shift tempNewHotkey) with (binding tempNewHotkey) in Hvalid.
  clear - Hvalid. induction hotkeys as [|h rest IH]; cbn.
  - assert (Hd : differs tempNewHotkey tempNewHotkey = false)
      by (apply differs_false_iff; reflexivity).
    rewrite Hd. reflexivity.
  - destruct (differs h tempNewHotkey) eqn:Ed.
    + rewrite IH; [reflexivity|]. intros Hin. apply Hvalid. right. assumption.
    + exfalso. apply Hvalid. left. apply differs_false_iff. assumption.
Qed.

Lemma save_then_delete_witness :
  fst (validateNewHotkey defaultHotkeys "x" false true) = true
  /\ deleteHotkeyFromSettings
       (fst (saveNewHotkey defaultHotkeys (Hotkey.Build "x" false true "cmd")))
       (Hotkey.Build "x" false true "cmd")
     = defaultHotkeys.
Proof.
  assert (H : fst (validateNewHotkey defaultHotkeys "x" false true) = true)
    by reflexivity.
  split; [exact H|].
  exact (proj2 (@save_then_delete defaultHotkeys
                  (Hotkey.Build "x" false true "cmd") H)).
Defined.

Lemma update_bindings (l : list Hotkey.t) (e : Hotkey.t) (k : string)
  (m s : bool) (b : string * bool * bool) :
  In b (map binding (updateHotkeyInSettings l e k m s)) ->
  In b (map binding l) \/ b = (k, m, s).
Proof.
  induction l as [|h rest IH]; cbn; [auto|].
  destruct (differs h e); cbn.
  - intros [H|H]; [auto|]. destruct (IH H); auto.
  - intros [H|H]; auto.
Qed.

Lemma update_distinct (l : list Hotkey.t) (e : Hotkey.t) (k : string)
  (m s : bool) :
  distinct l -> ~ In (k, m, s) (map binding l) ->
  distinct (updateHotkeyInSettings l e k m s).
Proof.
  unfold distinct. induction l as [|h rest IH]; cbn; [auto|].
  intros Hnd Hnew. inversion Hnd as [|? ? Hnotin Hnd']; subst.
  destruct (differs h e); cbn; constructor.
  - intros Hin. destruct (update_bindings _ _ _ _ _ _ Hin) as [H|H].
    + contradiction.
    + apply Hnew. left. assumption.
  - apply IH; [assumption|]. intros Hin. apply Hnew. right. assumption.
  - intros Hin. apply Hnew. right. assumption.
  - assumption.
Qed.

Lemma updateCommand_bindings (l : list Hotkey.t) (e : Hotkey.t) (c : string) :
  map binding (updateHotkeyCommandInSettings l e c) = map binding l.
Proof.
  induction l as [|h rest IH]; cbn; [reflexivity|].
  destruct (differs h e); cbn; [rewrite IH|]; reflexivity.
Qed.

(** X24. The settings operations keep the hotkeys distinct: if no two
    hotkeys share key, [meta] and [shift], this is still so after "Save New
    Hotkey", after setting a new key for an existing hotkey, after a delete
    and after a change of command. *)
Theorem settings_keep_distinct (hotkeys : list Hotkey.t)
  (temp existing : Hotkey.t) (newKey newCommand : string) (meta shift : bool)
  (Hdistinct : distinct hotkeys) :
  distinct (fst (saveNewHotkey hotkeys temp))
  /\ distinct (setKeyOfExisting hotkeys existing newKey meta shift)
  /\ distinct (deleteHotkeyFromSettings hotkeys existing)
  /\ distinct (updateHotkeyCommandInSettings hotkeys existing newCommand).
Proof.
  split; [|split; [|split]].
  - unfold saveNewHotkey.
    destruct (fst (validateNewHotkey hotkeys (Hotkey.key temp)
                     (Hotkey.meta temp) (Hotkey.shift temp))) eqn:Ev;
      cbn; [|assumption].
    apply validate_true_iff in Ev. unfold distinct in *.
    rewrite map_app. cbn. apply NoDup_app; [assumption | | ].
    + constructor; [intros []|constructor].
    + intros b Hin [<-|[]]. apply Ev. exact Hin.
  - unfold setKeyOfExisting.
    destruct (fst (validateNewHotkey hotkeys newKey meta shift)) eqn:Ev;
      [|assumption].
    apply update_distinct; [assumption|]. apply validate_true_iff. assumption.
  - rewrite deleteHotkeyFromSettings_skipping,
      (delete_skipping_distinct existing Hdistinct).
    apply filter_distinct. assumption.
  - unfold distinct. rewrite updateCommand_bindings. assumption.
Qed.

Lemma settings_keep_distinct_witness :
  distinct defaultHotkeys
  /\ distinct (setKeyOfExisting defaultHotkeys
                 (Hotkey.Build "h" false false "editor:focus-left")
                 "j" false false).
Proof.
  split; [exact defaultHotkeys_distinct|].
  exact (proj1 (proj2 (@settings_keep_distinct defaultHotkeys
                         newEmptyHotkey
                         (Hotkey.Build "h" false false "editor:focus-left")
                         "j" "" false false defaultHotkeys_distinct))).
Defined.

(** X25. [updateHotkeyInSettings] keeps every command and the order of the
    hotkeys; it changes nothing when no hotkey has the key, [meta] and
    [shift] of [existingHotkey]; and when one has, the new key is in use
    afterwards. *)
Theorem update_changes_first_match (hotkeys : list Hotkey.t)
  (existingHotkey : Hotkey.t) (newKey : string) (meta shift : bool) :
  map Hotkey.commandID
    (updateHotkeyInSettings hotkeys existingHotkey newKey meta shift)
  = map Hotkey.commandID hotkeys
  /\ (~ In (binding existingHotkey) (map binding hotkeys) ->
      updateHotkeyInSettings hotkeys existingHotkey newKey meta shift
      = hotkeys)
  /\ (In (binding existingHotkey) (map binding hotkeys) ->
      fst (validateNewHotkey
             (updateHotkeyInSettings hotkeys existingHotkey newKey meta shift)
             newKey meta shift) = false).
Proof.
  split; [|split].
  - induction hotkeys as [|h rest IH]; cbn; [reflexivity|].
    destruct (differs h existingHotkey); cbn; [rewrite IH|]; reflexivity.
  - induction hotkeys as [|h rest IH]; cbn; [reflexivity|]. intros Hn.
    destruct (differs h existingHotkey) eqn:Ed.
    + rewrite IH; [reflexivity|]. intros Hin. apply Hn. right. assumption.
    + exfalso. apply Hn. left. apply differs_false_iff. assumption.
  - induction hotkeys as [|h rest IH]; cbn; [intros []|]. intros Hin.
    destruct (differs h existingHotkey) eqn:Ed; cbn.
    + destruct (String.eqb (Hotkey.key h) newKey
                && Bool.eqb (Hotkey.meta h) meta
                && Bool.eqb (Hotkey.shift h) shift); [reflexivity|].
      apply IH. destruct Hin as [Hin|Hin]; [|assumption].
      apply differs_true_iff in Ed. congruence.
    + rewrite String.eqb_refl, !Bool.eqb_reflx. reflexivity.
Qed.

Lemma update_changes_first_match_witness :
  In (binding (Hotkey.Build "j" false false "editor:focus-bottom"))
    (map binding defaultHotkeys)
  /\ fst (validateNewHotkey
            (updateHotkeyInSettings defaultHotkeys
               (Hotkey.Build "j" false false "editor:focus-bottom")
               "x" true false)
            "x" true false) = false.
Proof.
  assert (Hin : In (binding (Hotkey.Build "j" false false
                               "editor:focus-bottom"))
                  (map binding defaultHotkeys))
    by (right; left; reflexivity).
  split; [exact Hin|].
  exact (proj2 (proj2 (update_changes_first_match defaultHotkeys
                         (Hotkey.Build "j" false false "editor:focus-bottom")
                         "x" true false)) Hin).
Defined.

End SettingsMore.

(** ** The earlier matcher and the later one *)

Module StateMachineMore.
Import MatchingState StateMachine StateMachineSpec.
Import KeyMatcherFacts.

Lemma earlier_advance_start (s : t) (k : KeyPress.t) :
  currentState s = NoMatch ->
  fst (advance s k) =
    match Trie.bestMatch (trie s) (keyPressBuffer s ++ [k]) with
    | None => Build (trie s) NoMatch [] []
    | Some n =>
        Build (trie s) (if TrieNode.isLeaf n then FullMatch else LeaderMatch)
          (keyPressBuffer s ++ [k]) (TrieNode.leafValues n)
    end.
Proof.
  intros Hs. unfold advance. destruct s as [tr st buf cs]. cbn in *. subst st.
  cbn. unfold lookup. cbn.
  destruct (Trie.bestMatch tr (buf ++ [k])) as [n|]; cbn; [|reflexivity].
  destruct (TrieNode.isLeaf n); reflexivity.
Qed.

Lemma earlier_advance_noise (s : t) (k : KeyPress.t) :
  currentState s = LeaderMatch \/ currentState s = PartialMatch ->
  KeyPress.containsKey k = false ->
  fst (advance s k)
  = Build (trie s) PartialMatch (keyPressBuffer s) (availableCommands s).
Proof.
  intros Hs Hk. unfold advance. destruct s as [tr st buf cs]. cbn in *.
  destruct Hs as [-> | ->]; cbn; rewrite Hk; cbn; unfold pop; cbn;
    rewrite removelast_last; reflexivity.
Qed.

Lemma earlier_advance_continue (s : t) (k : KeyPress.t) :
  currentState s = LeaderMatch \/ currentState s = PartialMatch ->
  KeyPress.containsKey k = true ->
  fst (advance s k) =
    match Trie.bestMatch (trie s) (keyPressBuffer s ++ [k]) with
    | None => Build (trie s) ExitMatch (keyPressBuffer s ++ [k]) []
    | Some n =>
        Build (trie s) (if TrieNode.isLeaf n then FullMatch else PartialMatch)
          (keyPressBuffer s ++ [k]) (TrieNode.leafValues n)
    end.
Proof.
  intros Hs Hk. unfold advance. destruct s as [tr st buf cs]. cbn in *.
  destruct Hs as [-> | ->]; cbn; rewrite Hk; cbn; unfold lookup; cbn;
    (destruct (Trie.bestMatch tr (buf ++ [k])) as [n|]; cbn; [|reflexivity]);
    destruct (TrieNode.isLeaf n); reflexivity.
Qed.

Lemma earlier_advance_restart (s : t) (k : KeyPress.t) :
  currentState s = FullMatch \/ currentState s = ExitMatch ->
  advance s k = advance (initial (trie s)) k.
Proof.
  intros Hs. unfold advance. destruct s as [tr st buf cs]. cbn in *.
  destruct Hs as [-> | ->]; cbn; unfold lookup; cbn;
    (destruct (Trie.bestMatch tr [k]) as [n|]; cbn; [|reflexivity]);
    destruct (TrieNode.isLeaf n); reflexivity.
Qed.

Lemma earlier_feed_snoc (s : t) (keys : list KeyPress.t) (k : KeyPress.t) :
  feed s (keys ++ [k]) = fst (advance (feed s keys) k).
Proof. unfold feed. rewrite fold_left_app. reflexivity. Qed.

Lemma earlier_advance_returns_state (s : t) (k : KeyPress.t) :
  snd (advance s k) = currentState (fst (advance s k)).
Proof.
  unfold advance. destruct s as [tr st buf cs].
  destruct st; cbn; unfold lookup; cbn;
    repeat match goal with
           | |- context [Trie.bestMatch ?a ?b] =>
               destruct (Trie.bestMatch a b) as [?n|]; cbn
           | |- context [TrieNode.isLeaf ?n] =>
               destruct (TrieNode.isLeaf n); cbn
           | |- context [KeyPress.containsKey ?k] =>
               destruct (KeyPress.containsKey k); cbn
           end; reflexivity.
Qed.

Lemma agree_start (m : KeyMatcher.t) (s : t) (k : KeyPress.t) :
  KeyMatcher.currentState m = KeyMatchingState.NoMatch ->
  currentState s = NoMatch ->
  KeyMatcher.trie m = trie s ->
  KeyMatcher.currentSequence m = keyPressBuffer s ->
  agree (fst (KeyMatcher.advance m k)) (fst (advance s k)).
Proof.
  intros Hm Hs Ht Hb.
  rewrite (advance_start _ k Hm), (earlier_advance_start _ k Hs), Ht, Hb.
  unfold agree.
  destruct (Trie.bestMatch (trie s) (keyPressBuffer s ++ [k])) as [n|]; cbn;
    [|auto].
  destruct (TrieNode.isLeaf n); cbn; auto.
Qed.

Lemma agree_advance (m : KeyMatcher.t) (s : t) (k : KeyPress.t) :
  agree m s -> agree (fst (KeyMatcher.advance m k)) (fst (advance s k)).
Proof.
  intros (Ht & Hst & Hb & _).
  destruct (MatcherOverTrie.state_cases (KeyMatcher.currentState m))
    as [Hm | [Hm | Hm]].
  - apply agree_start; try assumption. rewrite <- Hst, Hm. reflexivity.
  - assert (Hs : currentState s = LeaderMatch \/ currentState s = PartialMatch).
    { rewrite <- Hst. destruct Hm as [-> | [-> | ->]]; cbn; auto. }
    pose proof (KeyPressMore.containsKey_classification k) as Hck.
    destruct (KeyPress.classification k) eqn:Ek.
    + rewrite (advance_noise _ k Hm Ek), (earlier_advance_noise _ k Hs Hck).
      unfold agree. cbn. repeat split; auto. congruence.
    + rewrite (advance_continue m k Hm) by congruence.
      rewrite (earlier_advance_continue _ k Hs Hck), Ht, Hb. unfold agree.
      destruct (Trie.bestMatch (trie s) (keyPressBuffer s ++ [k])) as [n|];
        cbn; [|auto].
      destruct (TrieNode.isLeaf n); cbn; auto.
    + rewrite (advance_continue m k Hm) by congruence.
      rewrite (earlier_advance_continue _ k Hs Hck), Ht, Hb. unfold agree.
      destruct (Trie.bestMatch (trie s) (keyPressBuffer s ++ [k])) as [n|];
        cbn; [|auto].
      destruct (TrieNode.isLeaf n); cbn; auto.
  - assert (Hs : currentState s = FullMatch \/ currentState s = ExitMatch).
    { rewrite <- Hst. destruct Hm as [-> | ->]; cbn; auto. }
    rewrite (advance_restart m k Hm), (earlier_advance_restart _ k Hs).
    apply agree_start; cbn; auto.
Qed.

(** X26. The later [KeyMatcher] and the earlier [StateMachine] agree on
    every input: fed the same key presses over the same trie they are in
    corresponding states with the same buffer, they hold the same matches
    unless the later one is in [RetainedMatch], and they return
    corresponding states for the next key press. *)
Theorem versions_agree (tr : Trie.t KeyMap.t) (keys : list KeyPress.t)
  (k : KeyPress.t) :
  agree (KeyMatcherSpec.feed (KeyMatcher.new tr) keys) (feed (initial tr) keys)
  /\ earlier_state
       (snd (KeyMatcher.advance
               (KeyMatcherSpec.feed (KeyMatcher.new tr) keys) k))
     = snd (advance (feed (initial tr) keys) k).
Proof.
  assert (H : forall ks,
             agree (KeyMatcherSpec.feed (KeyMatcher.new tr) ks)
               (feed (initial tr) ks)).
  { induction ks as [|k0 ks IH] using rev_ind.
    - unfold agree. cbn. auto.
    - rewrite KeyMatcherClaims.feed_snoc, earlier_feed_snoc.
      apply agree_advance. assumption. }
  split; [apply H|].
  rewrite advance_returns_state, earlier_advance_returns_state.
  apply (agree_advance k (H keys)).
Qed.

Lemma commands_follow_buffer_advance (s : t) (k : KeyPress.t) :
  commands_follow_buffer s -> commands_follow_buffer (fst (advance s k)).
Proof.
  intros Hinv.
  assert (Hlook : forall (tr : Trie.t KeyMap.t) (buf : list KeyPress.t)
                    (st1 st2 st3 : MatchingState.t),
             commands_follow_buffer
               match Trie.bestMatch tr buf with
               | None => Build tr st1 buf []
               | Some n =>
                   Build tr (if TrieNode.isLeaf n then st2 else st3) buf
                     (TrieNode.leafValues n)
               end).
  { intros tr buf st1 st2 st3.
    unfold commands_follow_buffer, KeyMatcherSpec.reachableFrom.
    destruct (Trie.bestMatch tr buf) as [n|] eqn:Eb; cbn; rewrite Eb;
      reflexivity. }
  assert (Hstart : forall s0 : t,
             currentState s0 = NoMatch ->
             commands_follow_buffer (fst (advance s0 k))).
  { intros s0 Hs. rewrite (earlier_advance_start _ k Hs).
    destruct (Trie.bestMatch (trie s0) (keyPressBuffer s0 ++ [k]))
      as [n|] eqn:Eb.
    - pose proof (Hlook (trie s0) (keyPressBuffer s0 ++ [k])
                    NoMatch FullMatch LeaderMatch) as H.
      rewrite Eb in H. exact H.
    - intros H. cbn in H. congruence. }
  assert (Hmid : currentState s = LeaderMatch \/ currentState s = PartialMatch ->
                 commands_follow_buffer (fst (advance s k))).
  { intros Hs. destruct (KeyPress.containsKey k) eqn:Ek.
    - rewrite (earlier_advance_continue _ k Hs Ek). apply Hlook.
    - rewrite (earlier_advance_noise _ k Hs Ek).
      unfold commands_follow_buffer in *. cbn. intros _. apply Hinv.
      destruct Hs as [-> | ->]; discriminate. }
  destruct (currentState s) eqn:Es; auto.
  - rewrite (earlier_advance_restart s k) by auto. apply Hstart. reflexivity.
  - rewrite (earlier_advance_restart s k) by auto. apply Hstart. reflexivity.
Qed.

(** X27. The earlier [StateMachine] keeps its available commands in step
    with its buffer: after any key presses, in every state but [NoMatch],
    they are the leaf values below the node the buffer leads to, also after
    a bare modifier has been dropped. *)
Theorem earlier_commands_follow_buffer (tr : Trie.t KeyMap.t)
  (keys : list KeyPress.t) :
  commands_follow_buffer (feed (initial tr) keys)
  /\ (forall k,
         KeyPress.containsKey k = false ->
         currentState (feed (initial tr) keys) = LeaderMatch
         \/ currentState (feed (initial tr) keys) = PartialMatch ->
         getPartialMatchedKeymaps (fst (advance (feed (initial tr) keys) k))
         = KeyMatcherSpec.reachableFrom tr
             (keyPressBuffer (feed (initial tr) keys))).
Proof.
  assert (H : forall ks, commands_follow_buffer (feed (initial tr) ks)).
  { induction ks as [|k0 ks IH] using rev_ind.
    - intros Hs. cbn in Hs. congruence.
    - rewrite earlier_feed_snoc. apply commands_follow_buffer_advance.
      assumption. }
  assert (Htr : forall ks, trie (feed (initial tr) ks) = tr).
  { induction ks as [|k0 ks IH] using rev_ind; [reflexivity|].
    rewrite earlier_feed_snoc. unfold advance.
    destruct (feed (initial tr) ks) as [tr0 st buf cs]. cbn in IH. subst tr0.
    destruct st; cbn; unfold lookup; cbn;
      repeat match goal with
             | |- context [Trie.bestMatch ?a ?b] =>
                 destruct (Trie.bestMatch a b) as [?n|]; cbn
             | |- context [TrieNode.isLeaf ?n] =>
                 destruct (TrieNode.isLeaf n); cbn
             | |- context [KeyPress.containsKey ?k] =>
                 destruct (KeyPress.containsKey k); cbn
             end; reflexivity. }
  split; [apply H|].
  intros k Hk Hs. rewrite (earlier_advance_noise _ k Hs Hk).
  unfold getPartialMatchedKeymaps. cbn. rewrite <- (Htr keys) at 2.
  apply H. destruct Hs as [-> | ->]; discriminate.
Qed.

Lemma earlier_commands_follow_buffer_witness :
  KeyPress.containsKey (KeyPress.just "Shift") = false
  /\ (currentState (feed (initial focus_trie) [KeyPress.ctrl_ "b"])
      = LeaderMatch
      \/ currentState (feed (initial focus_trie) [KeyPress.ctrl_ "b"])
         = PartialMatch)
  /\ getPartialMatchedKeymaps
       (fst (advance (feed (initial focus_trie) [KeyPress.ctrl_ "b"])
               (KeyPress.just "Shift")))
     = KeyMatcherSpec.reachableFrom focus_trie
         (keyPressBuffer (feed (initial focus_trie) [KeyPress.ctrl_ "b"])).
Proof.
  assert (Hk : KeyPress.containsKey (KeyPress.just "Shift") = false)
    by reflexivity.
  assert (Hs : currentState (feed (initial focus_trie) [KeyPress.ctrl_ "b"])
               = LeaderMatch
               \/ currentState
                    (feed (initial focus_trie) [KeyPress.ctrl_ "b"])
                  = PartialMatch) by (left; vm_compute; reflexivity).
  split; [exact Hk|]. split; [exact Hs|].
  exact (proj2 (earlier_commands_follow_buffer focus_trie
                  [KeyPress.ctrl_ "b"]) (KeyPress.just "Shift") Hk Hs).
Defined.

End StateMachineMore.

(** ** The earlier trie *)

Module EarlierTrieMore.
Import TrieNode.

Section Tries.
Context {T C : Type} {HC : Hashable C} {HI : HashIter T C}.

Lemma earlier_add_from_keeps (keys : list string) (composite : T) :
  forall (n : TrieNode.t T) (other : list string) (n0 : TrieNode.t T) (x : T),
    Trie.bestMatch_from n other = Some n0 -> value n0 = some x ->
    exists n1,
      Trie.bestMatch_from (fst (EarlierTrie.add_from n keys composite)) other
      = Some n1
      /\ value n1 = some x.
Proof.
  induction keys as [|k keys IH]; intros n other n0 x Hb Hv.
  - cbn. destruct (is_defined (value n)) eqn:Ed; cbn; [eauto|].
    destruct other as [|o os].
    + cbn in Hb. injection Hb as <-. rewrite Hv in Ed. discriminate.
    + exists n0. split; [exact Hb|assumption].
  - cbn [EarlierTrie.add_from].
    destruct other as [|o os].
    + cbn in Hb. injection Hb as <-.
      destruct (EarlierTrie.add_from _ keys composite) as [c' r].
      eexists. split; [reflexivity|]. exact Hv.
    + cbn in Hb. destruct (child n o) as [ch|] eqn:Eo; [|discriminate].
      destruct (String.eqb_spec k o) as [->|Hne].
      * rewrite Eo. destruct (IH ch os n0 x Hb Hv) as (n1 & Hb1 & Hv1).
        destruct (EarlierTrie.add_from ch keys composite) as [c' r].
        cbn in *. exists n1. unfold child, EarlierTrie.addChild. cbn.
        rewrite TrieFacts.map_get_set_same. auto.
      * destruct (EarlierTrie.add_from _ keys composite) as [c' r].
        exists n0. cbn. unfold child, EarlierTrie.addChild. cbn.
        rewrite TrieMore.map_get_set_other by assumption.
        unfold child in Eo. rewrite Eo. auto.
Qed.

(** X28. The earlier [Trie.add], whose [addChild] leaves [value] alone,
    never takes a binding out of the trie: whatever is added, and whether
    the call returns or throws, a node that carried a binding is still
    reached by the same walk and still carries it. *)
Theorem earlier_add_keeps_bindings (tr : Trie.t T) (composite : T)
  (other : list C) (n : TrieNode.t T) (x : T)
  (Hnode : Trie.bestMatch tr other = Some n)
  (Hvalue : value n = some x) :
  exists n',
    Trie.bestMatch (fst (EarlierTrie.add tr composite)) other = Some n'
    /\ value n' = some x.
Proof.
  unfold Trie.bestMatch, EarlierTrie.add in *.
  destruct (earlier_add_from_keeps (map serialize (components composite))
              composite (Trie.root tr) (map serialize other) Hnode Hvalue)
    as (n1 & Hb & Hv).
  destruct (EarlierTrie.add_from (Trie.root tr)
              (map serialize (components composite)) composite) as [r c].
  cbn in *. eauto.
Qed.

End Tries.

Lemma earlier_add_keeps_bindings_witness :
  exists n',
    Trie.bestMatch
      (fst (EarlierTrie.add (fst (EarlierTrie.constructor [focus_left]))
              longer_than_focus_left))
      (KeyMap.sequence focus_left) = Some n'
    /\ value n' = some focus_left.
Proof.
  apply (@earlier_add_keeps_bindings KeyMap.t KeyPress.t _ _
           (fst (EarlierTrie.constructor [focus_left])) longer_than_focus_left
           (KeyMap.sequence focus_left)
           (Node (some focus_left) [])).
  - vm_compute. reflexivity.
  - reflexivity.
Defined.

End EarlierTrieMore.

(** ** The first version: nothing ever matches *)

Module FirstStateMachineMore.
Import MatchingState FirstStateMachine FirstStateMachineSpec.
Import KeyMatcherInvariantSpec.

Lemma first_advance_NoMatch (m : t) (event : KeyboardEvent) :
  currentState m = NoMatch ->
  advance m event
  = (Build (trie m) NoMatch (eventBuffer m ++ [event]) [] (matchedHotkey m),
     NoMatch).
Proof.
  intros Hs. unfold advance. destruct m as [tr st buf hs mh]. cbn in *.
  subst st. reflexivity.
Qed.

(** X29. With the trie of [main.ts], whose [availableHotkeys] finds
    nothing, the matcher never leaves [NoMatch]: whatever hotkeys it was
    built from and whatever events it handles, no event is prevented, no
    command is executed, and the event buffer, which only a match would
    clear, holds every event handled so far. *)
Theorem first_version_never_matches (hotkeys : list Hotkey.t)
  (events : list KeyboardEvent) :
  currentState (fst (handle_all (constructor hotkeys) events)) = NoMatch
  /\ eventBuffer (fst (handle_all (constructor hotkeys) events)) = events
  /\ LeaderHotkeysPlugin.defaultPrevented
       (snd (handle_all (constructor hotkeys) events)) = false
  /\ executed (snd (handle_all (constructor hotkeys) events)) = [].
Proof.
  assert (H : forall (evs : list KeyboardEvent) (m : t),
             currentState m = NoMatch ->
             currentState (fst (handle_all m evs)) = NoMatch
             /\ eventBuffer (fst (handle_all m evs)) = eventBuffer m ++ evs
             /\ LeaderHotkeysPlugin.defaultPrevented (snd (handle_all m evs))
                = false
             /\ executed (snd (handle_all m evs)) = []).
  { induction evs as [|e evs IH]; intros m Hs.
    - cbn. rewrite app_nil_r. auto.
    - cbn [handle_all]. unfold handleKeyDown.
      rewrite (first_advance_NoMatch m e Hs).
      specialize (IH (Build (trie m) NoMatch (eventBuffer m ++ [e]) []
                        (matchedHotkey m)) eq_refl).
      destruct (handle_all _ evs) as [m'' effects'].
      cbn in *. destruct IH as (H1 & H2 & H3 & H4).
      rewrite <- app_assoc in H2. auto. }
  apply (H events (constructor hotkeys)). reflexivity.
Qed.

End FirstStateMachineMore.
